(** * MolPAL acquirer: a shallow embedding of [molpal/acquirer/acquirer.py]

    The development follows the Python module function by function.

    - Python [int] is [Z]; a Python [float] / numpy [float64] is [Float64.t],
      an exact model of IEEE-754 binary64 values with round-to-nearest-even;
    - a call that can raise returns a [result]; a [while] loop that the
      source does not bound is run with fuel and answers [Diverge] when the
      fuel is spent;
    - the [explored] mapping is a [gmap]; dictionaries whose iteration order
      is observed (the per-cluster heaps) are association lists;
    - [heapq] is modelled on lists exactly as CPython implements it
      ([_siftdown] / [_siftup] over an array). *)

From stdpp Require Import gmap list strings sorting.

Local Open Scope Z_scope.

(** ** Exceptions and results *)

Inductive exn : Type :=
  | IndexError | KeyError | TypeError | ValueError | AttributeError
  | OverflowError | ZeroDivisionError | StopIteration | AxisError.

Inductive result (A : Type) : Type :=
  | Ok (a : A)
  | Raise (e : exn)
  | Diverge.
Arguments Ok {A} a.
Arguments Raise {A} e.
Arguments Diverge {A}.

Definition result_bind {A B} (f : A → result B) (r : result A) : result B :=
  match r with
  | Ok a => f a
  | Raise e => Raise e
  | Diverge => Diverge
  end.

#[global] Instance result_ret : MRet result := λ A a, Ok a.
#[global] Instance result_mbind : MBind result := λ A B f r, result_bind f r.

(** ** IEEE-754 binary64 *)

Module Float64.

(** Every finite double is an integer multiple of the least subnormal
    [2^-1074]; [Fin m] is the double [m * 2^-1074].  The two zeros are
    identified (they compare equal and nothing here divides by a float). *)
Inductive t : Type := NaN | NegInf | Fin (m : Z) | PosInf.

#[global] Instance t_eq_dec : EqDecision t.
Proof. solve_decision. Defined.

Definition unit : Z := 2 ^ 1074.
(** [sys.float_info.max] *)
Definition max_units : Z := (2 ^ 53 - 1) * 2 ^ 2045.
(** the least magnitude that rounds to an infinity *)
Definition overflow_units : Z := 2 ^ 2098.

Definition of_int_exact (z : Z) : t := Fin (z * unit).
Definition zero : t := Fin 0.
Definition one : t := Fin unit.

(** [x < y], false as soon as one side is NaN *)
Definition ltb (x y : t) : bool :=
  match x, y with
  | NaN, _ | _, NaN => false
  | NegInf, NegInf => false
  | NegInf, _ => true
  | _, NegInf => false
  | PosInf, _ => false
  | _, PosInf => true
  | Fin a, Fin b => a <? b
  end.

(** [x == y], false as soon as one side is NaN *)
Definition eqb (x y : t) : bool :=
  match x, y with
  | NegInf, NegInf | PosInf, PosInf => true
  | Fin a, Fin b => a =? b
  | _, _ => false
  end.

Definition leb (x y : t) : bool := ltb x y || eqb x y.

Definition is_nan (x : t) : bool := match x with NaN => true | _ => false end.
Definition is_inf (x : t) : bool :=
  match x with NegInf | PosInf => true | _ => false end.

Definition neg (x : t) : t :=
  match x with
  | NaN => NaN
  | NegInf => PosInf
  | PosInf => NegInf
  | Fin m => Fin (- m)
  end.

(** Round the non-negative rational [n / d] (counted in units of
    [2^-1074], [d > 0]) to the nearest double, ties to even: keep the 53
    leading bits of the quotient and decide on the exact remainder. *)
Definition round_pos (n d : Z) : t :=
  let q := n / d in
  let e := Z.max 0 (Z.log2 q - 52) in
  let m := Z.shiftr q e in
  let rest := n - Z.shiftl m e * d in
  let half := Z.shiftl d e in
  let m' := match 2 * rest ?= half with
            | Lt => m
            | Gt => m + 1
            | Eq => if Z.even m then m else m + 1
            end in
  let r := Z.shiftl m' e in
  if overflow_units <=? r then PosInf else Fin r.

Definition round_ratio (n d : Z) : t :=
  if n <? 0 then neg (round_pos (- n) d) else round_pos n d.

(** the correctly rounded quotient of two integers, [d > 0]: what a
    decimal literal or an exact integer denotes as a double *)
Definition of_ratio (n d : Z) : t := round_ratio (n * unit) d.

Definition sign (x : t) : Z :=
  match x with
  | NaN => 0
  | NegInf => -1
  | PosInf => 1
  | Fin m => Z.sgn m
  end.

Definition signed_inf (s : Z) : t :=
  if s <? 0 then NegInf else if 0 <? s then PosInf else NaN.

(** [x * y] *)
Definition mul (x y : t) : t :=
  match x, y with
  | NaN, _ | _, NaN => NaN
  | Fin a, Fin b => round_ratio (a * b) unit
  | _, _ => signed_inf (sign x * sign y)
  end.

(** [x + y] *)
Definition add (x y : t) : t :=
  match x, y with
  | NaN, _ | _, NaN => NaN
  | Fin a, Fin b => round_ratio (a + b) 1
  | PosInf, NegInf | NegInf, PosInf => NaN
  | PosInf, _ | _, PosInf => PosInf
  | NegInf, _ | _, NegInf => NegInf
  end.

(** [x - y] *)
Definition sub (x y : t) : t := add x (neg y).

(** [x / y] on Python floats: a zero divisor raises *)
Definition div (x y : t) : result t :=
  match x, y with
  | _, Fin 0 => Raise ZeroDivisionError
  | NaN, _ | _, NaN => Ok NaN
  | Fin a, Fin b => Ok (round_ratio (a * Z.sgn b * unit) (Z.abs b))
  | Fin _, _ => Ok zero
  | _, Fin b => Ok (signed_inf (sign x * Z.sgn b))
  | _, _ => Ok NaN
  end.

(** [numpy.ceil]: float to float *)
Definition ceil (x : t) : t :=
  match x with
  | Fin m => Fin (- ((- m) / unit) * unit)
  | _ => x
  end.

(** [float(z)] for a Python int *)
Definition of_int (z : Z) : result t :=
  match of_ratio z 1 with
  | Fin m => Ok (Fin m)
  | _ => Raise OverflowError
  end.

(** [int(x)]: truncation toward zero *)
Definition to_int (x : t) : result Z :=
  match x with
  | NaN => Raise ValueError
  | NegInf | PosInf => Raise OverflowError
  | Fin m => Ok (m ÷ unit)
  end.

(** [math.ceil(x)]: float to int *)
Definition math_ceil (x : t) : result Z :=
  match x with
  | NaN => Raise ValueError
  | NegInf | PosInf => Raise OverflowError
  | Fin m => Ok (- ((- m) / unit))
  end.

(** [a / b] on Python ints: the correctly rounded quotient *)
Definition int_truediv (a b : Z) : result t :=
  if b =? 0 then Raise ZeroDivisionError
  else
    match round_ratio (a * Z.sgn b * unit) (Z.abs b) with
    | Fin m => Ok (Fin m)
    | _ => Raise OverflowError
    end.

(** [z * x] for a Python int [z] and a float [x] *)
Definition int_mul (z : Z) (x : t) : result t :=
  fz ← of_int z; Ok (mul fz x).

(** [numpy.nan_to_num(x, nan=nan)] on one element: with [posinf] and
    [neginf] left at their defaults the infinities become the largest
    finite doubles of their sign. *)
Definition nan_to_num (nan : t) (x : t) : t :=
  match x with
  | NaN => nan
  | PosInf => Fin max_units
  | NegInf => Fin (- max_units)
  | Fin m => Fin m
  end.

End Float64.

Abbreviation float64 := Float64.t.

(** ** Python sequences *)

(** [l[i]] with Python's negative indices; [IndexError] out of range *)
Definition py_index {A} (l : list A) (i : Z) : result A :=
  let n := Z.of_nat (length l) in
  let j := if i <? 0 then i + n else i in
  if (0 <=? j) && (j <? n) then
    match l !! Z.to_nat j with
    | Some a => Ok a
    | None => Raise IndexError
    end
  else Raise IndexError.

(** [sorted(l, key=key, reverse=True)] on integer keys: descending by
    [key] and stable, equal keys keep their original order *)
Section Sorted.
Context {A : Type} (key : A → Z).

Fixpoint insert_by_rev (a : A) (l : list A) : list A :=
  match l with
  | [] => [a]
  | b :: l' => if key a <=? key b then b :: insert_by_rev a l' else a :: l
  end.

Definition sorted_by_rev (l : list A) : list A :=
  foldl (λ acc a, insert_by_rev a acc) [] l.
End Sorted.

(** ** [heapq] *)

Section Heapq.
Context {E : Type} (lt : E → E → bool).

(** the [while pos > startpos] loop of [_siftdown]; at most [pos] rounds *)
Fixpoint siftdown_loop (fuel : nat) (heap : list E) (newitem : E)
    (startpos pos : nat) : list E * nat :=
  match fuel with
  | O => (heap, pos)
  | S fuel' =>
    if decide (startpos < pos)%nat then
      let parentpos := ((pos - 1) / 2)%nat in
      match heap !! parentpos with
      | Some parent =>
        if lt newitem parent then
          siftdown_loop fuel' (<[pos := parent]> heap) newitem startpos parentpos
        else (heap, pos)
      | None => (heap, pos)
      end
    else (heap, pos)
  end.

Definition _siftdown (heap : list E) (startpos pos : nat) : list E :=
  match heap !! pos with
  | Some newitem =>
    let '(heap', pos') := siftdown_loop pos heap newitem startpos pos in
    <[pos' := newitem]> heap'
  | None => heap
  end.

(** the [while childpos < endpos] loop of [_siftup]: bubble the smaller
    child up until a leaf is reached *)
Fixpoint siftup_loop (fuel : nat) (heap : list E) (pos : nat) : list E * nat :=
  match fuel with
  | O => (heap, pos)
  | S fuel' =>
    let endpos := length heap in
    let childpos := (2 * pos + 1)%nat in
    if decide (childpos < endpos)%nat then
      let rightpos := (childpos + 1)%nat in
      let childpos :=
        match heap !! childpos, heap !! rightpos with
        | Some c, Some r => if negb (lt c r) then rightpos else childpos
        | _, _ => childpos
        end in
      match heap !! childpos with
      | Some c => siftup_loop fuel' (<[pos := c]> heap) childpos
      | None => (heap, pos)
      end
    else (heap, pos)
  end.

Definition _siftup (heap : list E) (pos : nat) : list E :=
  match heap !! pos with
  | Some newitem =>
    let '(heap', pos') := siftup_loop (length heap) heap pos in
    _siftdown (<[pos' := newitem]> heap') pos pos'
  | None => heap
  end.

Definition heappush (heap : list E) (item : E) : list E :=
  _siftdown (heap ++ [item]) 0 (length heap).

(** returns the popped item and the heap that is left *)
Definition heappop (heap : list E) : result (E * list E) :=
  match last heap with
  | None => Raise IndexError
  | Some lastelt =>
    let heap := removelast heap in
    match heap with
    | [] => Ok (lastelt, heap)
    | returnitem :: _ => Ok (returnitem, _siftup (<[0%nat := lastelt]> heap) 0)
    end
  end.

(** returns the item handed back and the heap that is left *)
Definition heappushpop (heap : list E) (item : E) : E * list E :=
  match heap with
  | top :: _ =>
    if lt top item then (top, _siftup (<[0%nat := item]> heap) 0)
    else (item, heap)
  | [] => (item, heap)
  end.

(** [heapq.nlargest(n, it)], that is [sorted(it, reverse=True)[:n]] *)
Fixpoint insert_desc (a : E) (l : list E) : list E :=
  match l with
  | [] => [a]
  | b :: l' => if lt b a then a :: l else b :: insert_desc a l'
  end.

Definition nlargest (n : Z) (it : list E) : list E :=
  take (Z.to_nat n) (foldl (λ acc a, insert_desc a acc) [] it).

End Heapq.

(** Heap entries are [(utility, item)] tuples; Python compares tuples
    lexicographically, moving to the second component only when the first
    components are [==]. *)
Definition entry_lt {T} (item_lt : T → T → bool) (a b : float64 * T) : bool :=
  if Float64.eqb a.1 b.1 then item_lt a.2 b.2 else Float64.ltb a.1 b.1.

(** ** Dictionaries whose order is observed

    A Python [dict] keeps insertion order; assigning to a key that is
    present leaves the order alone. *)

Fixpoint dict_get {V} (d : list (Z * V)) (k : Z) : result V :=
  match d with
  | [] => Raise KeyError
  | (k', v) :: d' => if decide (k' = k) then Ok v else dict_get d' k
  end.

Fixpoint dict_set {V} (d : list (Z * V)) (k : Z) (v : V) : list (Z * V) :=
  match d with
  | [] => [(k, v)]
  | (k', v') :: d' =>
    if decide (k' = k) then (k, v) :: d' else (k', v') :: dict_set d' k v
  end.

(** ** numpy *)

(** The order [numpy.sort] uses on floats: the usual one, NaN last. *)
Definition np_le (x y : float64) : Prop :=
  Float64.is_nan y ∨ (¬ Float64.is_nan x ∧ Float64.leb x y).

#[global] Instance np_le_dec : RelDecision np_le.
Proof. intros x y. unfold np_le. apply _. Defined.

(** [numpy.unique] on integers: the distinct values in ascending order *)
Definition np_unique (l : list Z) : list Z :=
  merge_sort Z.le (remove_dups l).

(** [numpy.partition(a, kth)[kth]].  numpy promises that position [kth]
    holds what a full sort would put there; the read position is the only
    one the acquirer looks at, so the model sorts.  [kth] may be negative
    and is out of bounds outside [-n, n). *)
Definition np_partition_at (a : list float64) (kth : Z) : result float64 :=
  let n := Z.of_nat (length a) in
  let j := if kth <? 0 then kth + n else kth in
  if (0 <=? j) && (j <? n) then py_index (merge_sort np_le a) kth
  else Raise ValueError.

(** [a[idxs] = v] for an index array of in-range positions *)
Definition np_put {A} (a : list A) (idxs : list nat) (v : A) : list A :=
  foldl (λ a i, <[i := v]> a) a idxs.

(** The sample space of [numpy.random.choice(numpy.arange(n), size=m,
    replace=False)]: every ordered draw of [m] indices out of [pool], each
    listed once.  The generator picks one of them uniformly. *)
Fixpoint draws (m : nat) (pool : list nat) : list (list nat) :=
  match m with
  | O => [[]]
  | S m' =>
    i ← pool; (λ d, i :: d) <$> draws m' (filter (λ j, j ≠ i) pool)
  end.

Definition np_random_choice (n : nat) (size : Z) : result (list (list nat)) :=
  if size <? 0 then Raise ValueError
  else if Z.of_nat n <? size then Raise ValueError
  else Ok (draws (Z.to_nat size) (seq 0 n)).

(** ** The acquirer *)

(** The attributes of an [Acquirer] instance that the selection code reads,
    after the validation done by the setters. *)
Record Acquirer : Type := {
  size : Z;
  init_size : Z;
  batch_sizes : list Z;
  dim : Z;
  epsilon : float64;
  temp_i : option float64;
  temp_f : option float64;
  cluster_type : option string;
  cluster_superset : option Z;
}.

Definition set_cluster_type (self : Acquirer) (ct : option string) : Acquirer :=
  {| size := size self; init_size := init_size self;
     batch_sizes := batch_sizes self; dim := dim self;
     epsilon := epsilon self; temp_i := temp_i self; temp_f := temp_f self;
     cluster_type := ct; cluster_superset := cluster_superset self |}.

(** [Union[int, float]] *)
Inductive num : Type := Int (z : Z) | Float (f : float64).

(** the [init_size] setter *)
Definition resolve_init_size (size : Z) (v : num) : result Z :=
  n ← match v with
      | Float f =>
        if Float64.ltb f Float64.zero || Float64.ltb Float64.one f
        then Raise ValueError
        else x ← Float64.int_mul size f; Float64.math_ceil x
      | Int z => Ok z
      end;
  if n <? 0 then Raise ValueError else Ok n.

(** one round of the loop in the [batch_sizes] setter *)
Definition resolve_batch_size (size : Z) (v : num) : result Z :=
  match v with
  | Float f =>
    if Float64.ltb f Float64.zero || Float64.ltb Float64.one f
    then Raise ValueError
    else x ← Float64.int_mul size f; Float64.math_ceil x
  | Int z => if z <? 0 then Raise ValueError else Ok z
  end.

Fixpoint resolve_batch_sizes (size : Z) (vs : list num) : result (list Z) :=
  match vs with
  | [] => Ok []
  | v :: vs' =>
    b ← resolve_batch_size size v;
    bs ← resolve_batch_sizes size vs';
    Ok (b :: bs)
  end.

(** [self.cluster_superset = cluster_superset or 10*self.batch_sizes[0]]
    under [if self.cluster_type], else [None] *)
Definition init_cluster_superset (cluster_type : option string)
    (cluster_superset : option Z) (batch_sizes : list Z) : result (option Z) :=
  match cluster_type with
  | None | Some EmptyString => Ok None
  | Some _ =>
    match cluster_superset with
    | Some c => if c =? 0 then b ← py_index batch_sizes 0; Ok (Some (10 * b))
                else Ok (Some c)
    | None => b ← py_index batch_sizes 0; Ok (Some (10 * b))
    end
  end.

(** the constructor arguments that reach the attributes above *)
Record init_args : Type := {
  arg_size : Z;
  arg_init_size : num;
  arg_batch_sizes : list num;
  arg_dim : Z;
  arg_epsilon : float64;
  arg_temp_i : option float64;
  arg_temp_f : option float64;
  arg_seed : option Z;
  arg_cluster_type : option string;
  arg_cluster_superset : option Z;
}.

(** [Acquirer.__init__], up to the call of [metrics.set_seed] *)
Definition Acquirer_init (a : init_args) : result Acquirer :=
  isz ← resolve_init_size (arg_size a) (arg_init_size a);
  bss ← resolve_batch_sizes (arg_size a) (arg_batch_sizes a);
  _ ← (if arg_dim a <? 1 then Raise ValueError else Ok ());
  cs ← init_cluster_superset (arg_cluster_type a) (arg_cluster_superset a) bss;
  _ ← (if Float64.leb Float64.zero (arg_epsilon a)
          && Float64.leb (arg_epsilon a) Float64.one
       then Ok () else Raise ValueError);
  Ok {| size := arg_size a; init_size := isz; batch_sizes := bss;
        dim := arg_dim a; epsilon := arg_epsilon a;
        temp_i := arg_temp_i a; temp_f := arg_temp_f a;
        cluster_type := arg_cluster_type a; cluster_superset := cs |}.

(** [Acquirer.batch_size]: [self.batch_sizes[t]], and on [IndexError] the
    last entry *)
Definition batch_size (self : Acquirer) (t : Z) : result Z :=
  match py_index (batch_sizes self) t with
  | Raise IndexError => py_index (batch_sizes self) (-1)
  | r => r
  end.

(** ** Selection *)

Section Selection.
Context `{Countable T} (item_lt : T → T → bool).

Abbreviation entry := (float64 * T)%type.
Abbreviation lt := (entry_lt item_lt).

(** the body shared by every selection loop:
    [heappush] under capacity, [heappushpop] at capacity *)
Definition bounded_push (heap : list entry) (cap : Z) (e : entry) : list entry :=
  if Z.of_nat (length heap) <? cap then heappush lt heap e
  else (heappushpop lt heap e).2.

(** [Acquirer.top_k] *)
Definition top_k {V} (xs : list T) (U : list float64) (batch_size : Z)
    (explored : gmap T V) : list entry :=
  foldl (λ heap xu,
           if decide (is_Some (explored !! xu.1)) then heap
           else bounded_push heap batch_size (xu.2, xu.1))
        [] (zip xs U).

(** *** Initial acquisition *)

(** [math.ceil(self.init_size * cluster_size / U.size)] *)
Definition initial_capacity (self : Acquirer) (cluster_size U_size : Z) : result Z :=
  q ← Float64.int_truediv (init_size self * cluster_size) U_size;
  Float64.math_ceil q.

(** the dict comprehension that builds [d_cid_heap] *)
Fixpoint initial_heaps (self : Acquirer) (cluster_sizes : list (Z * Z))
    (U_size : Z) : result (list (Z * (list entry * Z))) :=
  match cluster_sizes with
  | [] => Ok []
  | (cid, cluster_size) :: rest =>
    cap ← initial_capacity self cluster_size U_size;
    d ← initial_heaps self rest U_size;
    Ok ((cid, ([], cap)) :: d)
  end.

(** one round of the clustered loop *)
Definition initial_step (d : list (Z * (list entry * Z)))
    (xuc : T * (float64 * Z)) : result (list (Z * (list entry * Z))) :=
  let '(x, (u, cid)) := xuc in
  hs ← dict_get d cid;
  Ok (dict_set d cid (bounded_push hs.1 hs.2 (u, x), hs.2)).

(** [Acquirer.acquire_initial], given the array [U] that
    [metrics.random] returned *)
Definition acquire_initial (self : Acquirer) (xs : list T) (U : list float64)
    (cluster_ids : option (list Z)) (cluster_sizes : option (list (Z * Z)))
    : result (list T) :=
  match cluster_ids, cluster_sizes with
  | None, None =>
    let heap := foldl (λ heap xu, bounded_push heap (init_size self) (xu.2, xu.1))
                      [] (zip xs U) in
    Ok heap.*2
  | _, None => Raise AttributeError
  | ids, Some sizes =>
    d ← initial_heaps self sizes (Z.of_nat (length U));
    ids ← match ids with Some ids => Ok ids | None => Raise TypeError end;
    d ← foldl (λ acc xuc, d ← acc; initial_step d xuc) (Ok d)
              (zip xs (zip U ids));
    Ok (concat (d.*2).*1).*2
  end.

(** *** The reference maximum (the head of [acquire_batch])

    [list(explored.values())] is read in the map's own order; the value
    taken from the partition is the same for every order.  The outcomes
    are scalars here, so [ys] is a one-dimensional array: with
    [self.dim != 1] the reduction [np.isnan(ys).any(axis=1)] has no axis 1
    to reduce over and raises numpy's [AxisError], before the Pareto front
    is reached. *)

Definition reference_max (self : Acquirer) (explored : gmap T float64)
    (k : Z) : result float64 :=
  if decide (explored = ∅) then Ok Float64.NegInf
  else
    let ys := (map_to_list explored).*2 in
    if dim self =? 1 then
      let Y := Float64.nan_to_num Float64.NegInf <$> ys in
      np_partition_at Y (- k)
    else Raise AxisError.

(** *** The epsilon-greedy override *)

(** [int(batch_size * self.epsilon)] *)
Definition forced_count (self : Acquirer) (batch_size : Z) : result Z :=
  x ← Float64.int_mul batch_size (epsilon self);
  Float64.to_int x.

(** every array that the two statements [idxs = np.random.choice(...)],
    [U[idxs] = np.inf] can leave behind, one per draw *)
Definition epsilon_override (self : Acquirer) (batch_size : Z)
    (U : list float64) : result (list (list float64)) :=
  size ← forced_count self batch_size;
  idxss ← np_random_choice (length U) size;
  Ok ((λ idxs, np_put U idxs Float64.PosInf) <$> (idxss : list (list nat))).

(** *** Clustered selection *)

(** [P] is what the surrogate predicts for one item, [F] a feature matrix *)
Context {P F : Type}.

Inductive basis : Type :=
  | Stacked (rows : list P)
  | Features (m : F).

(** the collaborators: [feature_matrix(xs, featurizer)] and
    [cluster_fps(fps, ncluster, 'minibatch', ncpu, init_size)] *)
Context (feature_matrix : list T → F) (cluster_fps : basis → Z → Z → list Z).

(** [[preds[x] for x in superset_xs]] *)
Fixpoint lookup_preds (preds : gmap T P) (xs : list T) : result (list P) :=
  match xs with
  | [] => Ok []
  | x :: xs' =>
    p ← match preds !! x with Some p => Ok p | None => Raise KeyError end;
    ps ← lookup_preds preds xs';
    Ok (p :: ps)
  end.

(** [numpy.stack] refuses an empty sequence *)
Definition np_stack (rows : list P) : result basis :=
  match rows with
  | [] => Raise ValueError
  | _ => Ok (Stacked rows)
  end.

Definition cluster_basis (self : Acquirer) (preds : gmap T P)
    (superset_xs : list T) : result basis :=
  if decide (cluster_type self = Some "objs"%string) then
    rows ← lookup_preds preds superset_xs; np_stack rows
  else if decide (cluster_type self = Some "fps"%string) then
    Ok (Features (feature_matrix superset_xs))
  else rows ← lookup_preds preds superset_xs; np_stack rows.

(** line 424: the superset is a top-k of size [self.cluster_superset] *)
Definition superset_of {V} (self : Acquirer) (xs : list T) (U : list float64)
    (explored : gmap T V) : result (list entry) :=
  match cluster_superset self with
  | Some c => Ok (top_k xs U c explored)
  | None => Raise TypeError
  end.

(** the loop that files the superset under its cluster ids *)
Definition fill_clusters (clusters : list (Z * list entry))
    (cxu : list (Z * entry)) : result (list (Z * list entry)) :=
  foldl (λ acc cxu,
           clusters ← acc;
           c ← dict_get clusters cxu.1;
           Ok (dict_set clusters cxu.1
                 (heappush lt c (Float64.neg cxu.2.1, cxu.2.2))))
        (Ok clusters) cxu.

(** [sorted(clusters, key=lambda k: len(clusters[k]), reverse=True)] *)
Definition cluster_order (clusters : list (Z * list entry)) : list Z :=
  (sorted_by_rev (λ c : Z * list entry, Z.of_nat (length c.2)) clusters).*1.

(** [next] on [itertools.cycle(order)]: [rest] is what is left of the
    current pass *)
Definition cycle_next (order rest : list Z) : result (Z * list Z) :=
  match rest with
  | cid :: rest' => Ok (cid, rest')
  | [] =>
    match order with
    | cid :: rest' => Ok (cid, rest')
    | [] => Raise StopIteration
    end
  end.

(** the [while len(heap) < batch_size] loop *)
Fixpoint round_robin (fuel : nat) (clusters : list (Z * list entry))
    (order rest : list Z) (heap : list entry) (batch_size : Z)
    : result (list entry) :=
  if Z.of_nat (length heap) <? batch_size then
    match fuel with
    | O => Diverge
    | S fuel' =>
      nx ← cycle_next order rest;
      c ← dict_get clusters nx.1;
      if (0 <? length c)%nat then
        popped ← heappop lt c;
        round_robin fuel' (dict_set clusters nx.1 popped.2) order nx.2
          (heap ++ [(Float64.neg popped.1.1, popped.1.2)]) batch_size
      else round_robin fuel' clusters order nx.2 heap batch_size
    end
  else Ok heap.

(** [Acquirer.clustered_batch] from line 426 on: cluster the superset and
    extract the batch *)
Definition cluster_and_extract (fuel : nat) (self : Acquirer)
    (superset : list entry) (batch_size : Z) (preds : gmap T P)
    : result (list entry) :=
  let superset_xs := superset.*2 in
  let superset_us := superset.*1 in
  cb ← cluster_basis self preds superset_xs;
  let cluster_ids := cluster_fps cb batch_size (3 * batch_size) in
  let clusters := (λ cid, (cid, [])) <$> np_unique cluster_ids in
  clusters ← fill_clusters clusters
               (zip cluster_ids (zip superset_us superset_xs));
  let order := cluster_order clusters in
  round_robin fuel clusters order order [] batch_size.

(** [Acquirer.clustered_batch] *)
Definition clustered_batch {V} (fuel : nat) (self : Acquirer) (xs : list T)
    (U : list float64) (batch_size : Z) (explored : gmap T V)
    (preds : gmap T P) : result (list entry) :=
  superset ← superset_of self xs U explored;
  cluster_and_extract fuel self superset batch_size preds.

(** [int(np.ceil(batch_size/2))] *)
Definition batch_size_objs (batch_size : Z) : result Z :=
  h ← Float64.int_truediv batch_size 2;
  Float64.to_int (Float64.ceil h).

(** [dont_acquire = {**explored, **{x: u for u, x in heap_objs}}] *)
Definition dont_acquire {V} (explored : gmap T V) (heap_objs : list entry)
    : gmap T (V + float64) :=
  foldl (λ m ux, <[ux.2 := inr ux.1]> m) (inl <$> explored) heap_objs.

(** [Acquirer.cluster_both]; the two partial batches are returned side
    by side, the source chains them as [heap_fps] then [heap_objs].  The
    attribute [cluster_type] is set to ['objs'], then ['fps'], and is
    ['both'] again when the call returns. *)
Definition cluster_both_parts {V} (fuel : nat) (self : Acquirer) (xs : list T)
    (U : list float64) (batch_size : Z) (explored : gmap T V)
    (preds : gmap T P) : result (list entry * list entry) :=
  bs_objs ← batch_size_objs batch_size;
  let bs_fps := batch_size - bs_objs in
  heap_objs ← clustered_batch fuel (set_cluster_type self (Some "objs"%string))
                xs U bs_objs explored preds;
  heap_fps ← clustered_batch fuel (set_cluster_type self (Some "fps"%string))
               xs U bs_fps (dont_acquire explored heap_objs) preds;
  Ok (heap_fps, heap_objs).

Definition cluster_both {V} (fuel : nat) (self : Acquirer) (xs : list T)
    (U : list float64) (batch_size : Z) (explored : gmap T V)
    (preds : gmap T P) : result (list entry) :=
  parts ← cluster_both_parts fuel self xs U batch_size explored preds;
  Ok (parts.1 ++ parts.2).

(** *** [acquire_batch] after the utilities are forced

    [U] is one of the arrays of [epsilon_override]; [Y_means] are the
    predicted means the [preds] dictionary is built from. *)
Definition build_preds (xs : list T) (Y_means : list P) : gmap T P :=
  foldl (λ m xp, <[xp.1 := xp.2]> m) ∅ (zip xs Y_means).

Definition select_batch (fuel : nat) (self : Acquirer) (xs : list T)
    (Y_means : list P) (U : list float64) (batch_size : Z)
    (explored : gmap T float64) : result (list T) :=
  heap ← match cluster_type self with
         | None => Ok (top_k xs U batch_size explored)
         | Some ct =>
           if decide (ct = "fps"%string ∨ ct = "objs"%string) then
             clustered_batch fuel self xs U batch_size explored
               (build_preds xs Y_means)
           else if decide (ct = "both"%string) then
             cluster_both fuel self xs U batch_size explored
               (build_preds xs Y_means)
           else Ok (top_k xs U batch_size explored)
         end;
  Ok heap.*2.

(** [metrics.calc], the scoring collaborator: it receives the reference
    maximum and [top_n_scored] among its arguments *)
Context (calc : Acquirer → list P → list P → float64 → Z → list float64).

(** [Acquirer.acquire_batch]: one result per draw of the generator *)
Definition acquire_batch (fuel : nat) (self : Acquirer) (xs : list T)
    (y_means y_vars : list P) (explored : gmap T float64) (k t : Z)
    : result (list (result (list T))) :=
  current_max ← reference_max self explored k;
  batch_size ← batch_size self t;
  let top_n_scored :=
    match cluster_superset self with
    | Some c => if c =? 0 then batch_size else c
    | None => batch_size
    end in
  let U := calc self y_means y_vars current_max top_n_scored in
  Us ← epsilon_override self batch_size U;
  Ok ((λ U, select_batch fuel self xs y_means U batch_size explored)
        <$> (Us : list (list float64))).

End Selection.

(** ** Temperature-based rescaling *)

Section ScaleHeaps.
Context {T : Type} (item_lt : T → T → bool).

Abbreviation entry := (float64 * T)%type.
Abbreviation lt := (entry_lt item_lt).

(** [math.exp]; it raises [OverflowError] when the result is too large *)
Context (math_exp : float64 → result float64).

(** what the parameter [local_max] of [_calc_decay] is bound to at run
    time: a float, or a heap entry *)
Inductive pyobj : Type :=
  | PyFloat (f : float64)
  | PyTuple (yx : entry).

(** [a - b] for a float [a]: a tuple on the right is a [TypeError] *)
Definition py_float_sub (a : float64) (b : pyobj) : result float64 :=
  match b with
  | PyFloat f => Ok (Float64.sub a f)
  | PyTuple _ => Raise TypeError
  end.

(** [Acquirer._calc_temp]: [temp_i * math.exp(-t/0.75) + temp_f] *)
Definition _calc_temp (t : Z) (temp_i temp_f : float64) : result float64 :=
  ft ← Float64.of_int (- t);
  q ← Float64.div ft (Float64.of_ratio 3 4);
  e ← math_exp q;
  Ok (Float64.add (Float64.mul temp_i e) temp_f).

(** [Acquirer._calc_decay]: [math.exp(-(global_max - local_max)/temp)] *)
Definition _calc_decay (global_max : float64) (local_max : pyobj)
    (temp : float64) : result float64 :=
  d ← py_float_sub global_max local_max;
  q ← Float64.div (Float64.neg d) temp;
  math_exp q.

(** [lambda yx: -1 if math.isinf(yx[0]) else yx[0]] *)
Definition local_key (yx : entry) : float64 :=
  if Float64.is_inf yx.1 then Float64.of_int_exact (-1) else yx.1.

(** [max(heap, key=key)]: the first entry whose key no later one exceeds *)
Definition py_max (key : entry → float64) (heap : list entry) : result entry :=
  match heap with
  | [] => Raise ValueError
  | yx :: rest =>
    Ok (foldl (λ best yx, if Float64.ltb (key best) (key yx) then yx else best)
              yx rest)
  end.

(** the body of the [for] loop of [_scale_heaps] *)
Definition scale_heap (pred_global_max temp : float64)
    (d : list (Z * (list entry * Z))) (item : Z * (list entry * Z))
    : result (list (Z * (list entry * Z))) :=
  let '(cid, (heap, heap_size)) := item in
  match heap with
  | [] => Ok d
  | _ =>
    pred_local_max ← py_max local_key heap;
    f ← _calc_decay pred_global_max (PyTuple pred_local_max) temp;
    scaled ← Float64.int_mul heap_size f;
    new_heap_size ← Float64.math_ceil scaled;
    Ok (dict_set d cid (nlargest lt new_heap_size heap, new_heap_size))
  end.

(** [Acquirer._scale_heaps] *)
Definition _scale_heaps (d_cid_heap : list (Z * (list entry * Z)))
    (pred_global_max : float64) (t : Z) (temp_i temp_f : float64)
    : result (list (Z * (list entry * Z))) :=
  temp ← _calc_temp t temp_i temp_f;
  foldl (λ acc item, d ← acc; scale_heap pred_global_max temp d item)
        (Ok d_cid_heap) d_cid_heap.

End ScaleHeaps.

(** ** The random generator behind initial acquisition *)

(** Modelled from the spec: the scoring module [molpal.acquirer.metrics]
    is not among the sources; the specification gives its interface as
    "[random(n) -> array of floats]; [set_seed(seed)] sets process-wide RNG
    state once at configuration time", a "seedable RNG".  [generator] is the
    state of that generator, [default_rng seed] the state a seed puts it
    in, and [rg_random g n] the [n] scores drawn from state [g] together
    with the state the draw leaves behind. *)
Class Metrics : Type := {
  generator : Type;
  default_rng : Z → generator;
  rg_random : generator → nat → list float64 * generator;
}.

Section Seeded.
Context `{Metrics} `{Countable T} (item_lt : T → T → bool).

(** the process-wide state: the module-level generator [RG] and what the
    operating system would seed an unseeded generator with *)
Record process : Type := {
  RG : generator;
  os_entropy : generator;
}.

(** Modelled from the spec: [metrics.set_seed(seed)] replaces the
    process-wide generator; without a seed it is seeded from the system. *)
Definition set_seed (seed : option Z) (p : process) : process :=
  match seed with
  | Some s => {| RG := default_rng s; os_entropy := os_entropy p |}
  | None => {| RG := os_entropy p; os_entropy := os_entropy p |}
  end.

(** Modelled from the spec: [metrics.random(np.empty(n))] draws [n]
    scores from the process-wide generator and advances it. *)
Definition metrics_random (n : Z) (p : process) : result (list float64 * process) :=
  if n <? 0 then Raise ValueError
  else
    let r := rg_random (RG p) (Z.to_nat n) in
    Ok (r.1, {| RG := r.2; os_entropy := os_entropy p |}).

(** [Acquirer.__init__] as a whole: validation, then [metrics.set_seed] *)
Definition Acquirer_new (a : init_args) (p : process) : result (Acquirer * process) :=
  self ← Acquirer_init a;
  Ok (self, set_seed (arg_seed a) p).

(** [Acquirer.acquire_initial] with its draw from the generator *)
Definition acquire_initial_run (self : Acquirer) (xs : list T)
    (cluster_ids : option (list Z)) (cluster_sizes : option (list (Z * Z)))
    (p : process) : result (list T * process) :=
  up ← metrics_random (size self) p;
  sel ← acquire_initial item_lt self xs up.1 cluster_ids cluster_sizes;
  Ok (sel, up.2).

(** one run: construct the acquirer, then acquire the initial batch *)
Definition initial_run (a : init_args) (xs : list T)
    (cluster_ids : option (list Z)) (cluster_sizes : option (list (Z * Z)))
    (p : process) : result (list T) :=
  sp ← Acquirer_new a p;
  r ← acquire_initial_run sp.1 xs cluster_ids cluster_sizes sp.2;
  Ok r.1.

End Seeded.


(** ** Vocabulary of the statements *)

(** NaN read as negative infinity, every other value left alone *)
Definition nan_as_neginf (y : float64) : float64 :=
  if Float64.is_nan y then Float64.NegInf else y.

(** [v] is a [k]-th largest value of [Y]: it occurs in [Y], fewer than [k]
    values lie above it and at least [k] values lie at or above it *)
Definition is_kth_largest (Y : list float64) (k : Z) (v : float64) : Prop :=
  v ∈ Y
  ∧ Z.of_nat (length (filter (λ y, Float64.ltb v y = true) Y)) < k
  ∧ k ≤ Z.of_nat (length (filter (λ y, Float64.leb v y = true) Y)).

(** the integer ceiling of [a / b] *)
Definition ceil_div (a b : Z) : Z := - ((- a) `div` b).

(** the sum of a list of integers *)
Definition Z_sum (l : list Z) : Z := foldr Z.add 0 l.

(** the [(u, x)] entries of the pool items filed under cluster [cid] *)
Definition cluster_entries {T} (cid : Z) (triples : list (T * (float64 * Z)))
    : list (float64 * T) :=
  (λ t, (t.2.1, t.1)) <$> filter (λ t : T * (float64 * Z), t.2.2 = cid) triples.

(** what the clustered loop of [acquire_initial] leaves in one heap: the
    bounded selection, at that cluster's capacity, among the items filed
    under the cluster *)
Definition settle `{Countable T} (item_lt : T → T → bool)
    (triples : list (T * (float64 * Z)))
    (e : Z * (list (float64 * T) * Z)) : Z * (list (float64 * T) * Z) :=
  (e.1, (foldl (λ h en, bounded_push item_lt h e.2.2 en) e.2.1
           (cluster_entries e.1 triples), e.2.2)).

(** the total population of a cluster dictionary *)
Definition population {E} (clusters : list (Z * list E)) : nat :=
  sum_list (length <$> clusters.*2).

(** what one pass over [order] hands out when nothing stops it: from each
    non-empty cluster the entry at the root of its heap, with the utility
    negated back *)
Definition first_yields {T} (clusters : list (Z * list (float64 * T)))
    (order : list Z) : list (float64 * T) :=
  omap (λ cid, match dict_get clusters cid with
               | Ok (top :: _) => Some (Float64.neg top.1, top.2)
               | _ => None
               end) order.

(** three and five as doubles *)
Definition f3 : float64 := Float64.of_ratio 3 1.
Definition f5 : float64 := Float64.of_ratio 5 1.

(** ** Concrete instances *)

Definition demo_acquirer : Acquirer :=
  {| size := 6; init_size := 2; batch_sizes := [3; 2]; dim := 1;
     epsilon := Float64.zero; temp_i := None; temp_f := Some Float64.one;
     cluster_type := None; cluster_superset := None |}.

(** half of every batch is drawn at random *)
Definition half_random_acquirer : Acquirer :=
  {| size := 5; init_size := 2; batch_sizes := [4]; dim := 1;
     epsilon := Float64.of_ratio 1 2; temp_i := None; temp_f := None;
     cluster_type := None; cluster_superset := None |}.

(** a purely random acquirer with batches of two *)
Definition all_random_acquirer : Acquirer :=
  {| size := 1; init_size := 1; batch_sizes := [2]; dim := 1;
     epsilon := Float64.one; temp_i := None; temp_f := None;
     cluster_type := None; cluster_superset := None |}.

(** hybrid clustering over a superset of six *)
Definition hybrid_acquirer : Acquirer :=
  {| size := 8; init_size := 2; batch_sizes := [3]; dim := 1;
     epsilon := Float64.zero; temp_i := None; temp_f := None;
     cluster_type := Some "both"%string; cluster_superset := Some 6 |}.

(** objective-space clustering with a configured superset of one *)
Definition narrow_acquirer : Acquirer :=
  {| size := 3; init_size := 1; batch_sizes := [2]; dim := 1;
     epsilon := Float64.zero; temp_i := None; temp_f := None;
     cluster_type := Some "objs"%string; cluster_superset := Some 1 |}.

Definition clustered_args : init_args :=
  {| arg_size := 6; arg_init_size := Float (Float64.of_ratio 3 10);
     arg_batch_sizes := [Int 5; Int 7]; arg_dim := 1;
     arg_epsilon := Float64.zero; arg_temp_i := None;
     arg_temp_f := Some Float64.one; arg_seed := Some 42;
     arg_cluster_type := Some "objs"%string; arg_cluster_superset := None |}.

(** a stand-in for the clustering backend: row [i] goes to cluster
    [i mod ncluster] *)
Definition modulo_cluster_fps (fps : @basis float64 (list Z)) (ncluster init_size : Z)
    : list Z :=
  let n := match fps with Stacked rows => length rows | Features m => length m end in
  (λ i, Z.of_nat i `mod` ncluster) <$> seq 0 n.

(** greedy scoring: the utility is the predicted mean *)
Definition greedy_calc (self : Acquirer) (y_means y_vars : list float64)
    (current_max : float64) (top_n_scored : Z) : list float64 := y_means.

(** a stand-in generator: the state is a counter, a draw of [n] scores
    reads [n] consecutive values off it *)
#[local] Instance counter_metrics : Metrics :=
  {| generator := Z;
     default_rng := λ seed, seed;
     rg_random := λ g n,
       ((λ i, Float64.of_int_exact (((g + Z.of_nat i) * 7) `mod` 11)) <$> seq 0 n,
        g + Z.of_nat n) |}.

(** three clusters of sizes five, three and two *)
Definition three_clusters : list (Z * list (float64 * Z)) :=
  [(0, foldl (heappush (entry_lt Z.ltb)) []
         ((λ x, (Float64.of_int_exact (- x), x)) <$> [11; 12]));
   (1, foldl (heappush (entry_lt Z.ltb)) []
         ((λ x, (Float64.of_int_exact (- x), x)) <$> [21; 25; 23; 22; 24]));
   (2, foldl (heappush (entry_lt Z.ltb)) []
         ((λ x, (Float64.of_int_exact (- x), x)) <$> [31; 33; 32]))].

(** ** Heaps and orders

    [heapq] documents its invariant as [heap[k] <= heap[2*k+1]] and
    [heap[k] <= heap[2*k+2]]; with [lt] for Python's [<] this reads: no entry
    is smaller than its parent. *)
Definition heap_ordered {E} (lt : E → E → bool) (heap : list E) : Prop :=
  ∀ j x p, (0 < j)%nat → heap !! j = Some x →
    heap !! ((j - 1) / 2)%nat = Some p → lt x p = false.

(** the array is ordered except around the hole at [pos] *)
Definition ordered_around {E} (lt : E → E → bool) (heap : list E)
    (pos : nat) : Prop :=
  ∀ j x p, (0 < j)%nat → j ≠ pos → ((j - 1) / 2)%nat ≠ pos →
    heap !! j = Some x → heap !! ((j - 1) / 2)%nat = Some p → lt x p = false.

(** the children of the hole are not below the hole's parent *)
Definition grand_ordered {E} (lt : E → E → bool) (heap : list E)
    (pos : nat) : Prop :=
  ∀ j x g, (0 < j)%nat → ((j - 1) / 2)%nat = pos → (0 < pos)%nat →
    heap !! j = Some x → heap !! ((pos - 1) / 2)%nat = Some g → lt x g = false.

(** the children of the hole are not below [newitem] *)
Definition above_item {E} (lt : E → E → bool) (heap : list E) (pos : nat)
    (newitem : E) : Prop :=
  ∀ j x, (0 < j)%nat → ((j - 1) / 2)%nat = pos → heap !! j = Some x →
    lt x newitem = false.

(** [lt] is a strict weak order on the values that satisfy [ok]: what
    Python's [<] is on strings, on integers, and on floats other than NaN *)
Class WeakOrderOn {E} (lt : E → E → bool) (ok : E → Prop) : Prop := {
  wo_irrefl a : ok a → lt a a = false;
  wo_trans a b c :
    ok a → ok b → ok c → lt a b = true → lt b c = true → lt a c = true;
  wo_le_trans a b c :
    ok a → ok b → ok c → lt b a = false → lt c b = false → lt c a = false;
}.

(** an entry whose utility is not NaN *)
Definition not_nan {T} (e : float64 * T) : Prop := Float64.is_nan e.1 = false.

(** what the selection loops keep: [heap] is an ordered heap of entries
    none of which is below an entry that was handed back in [rej], and
    nothing is handed back before the heap is full *)
Definition keeps_best {T} (item_lt : T → T → bool)
    (heap rej : list (float64 * T)) (cap : Z) : Prop :=
  Forall not_nan heap ∧ Forall not_nan rej
  ∧ heap_ordered (entry_lt item_lt) heap
  ∧ (∀ r b, r ∈ rej → b ∈ heap → entry_lt item_lt b r = false)
  ∧ (Z.of_nat (length heap) < cap → rej = []).

(** a heap entry with its utility negated, as [clustered_batch] files it *)
Definition negated {T} (e : float64 * T) : float64 * T := (Float64.neg e.1, e.2).

(** * [scripts/utility.py] *)

(** [cost(it)] *)
Definition cost (it : Z) : result Z :=
  if it <? 1 then Raise ValueError
  else
    let TRAIN_COST := 568 in
    let INFERENCE_COST := 152 in
    Ok (TRAIN_COST + INFERENCE_COST * it).

(** ** More concrete instances *)

(** feature-space clustering over a superset of four *)
Definition fps_acquirer : Acquirer :=
  {| size := 6; init_size := 2; batch_sizes := [2]; dim := 1;
     epsilon := Float64.zero; temp_i := None; temp_f := None;
     cluster_type := Some "fps"%string; cluster_superset := Some 4 |}.

(** a pool of six items with their utilities *)
Definition six_items : list Z := [1; 2; 3; 4; 5; 6].
Definition six_utilities : list float64 :=
  Float64.of_int_exact <$> [5; 1; 7; 3; 8; 2].

(** three utilities, and what the override of two of them can leave *)
Definition three_utilities : list float64 := Float64.of_int_exact <$> [5; 1; 7].
Definition forced_outcomes : list (list float64) :=
  (λ idxs, np_put three_utilities idxs Float64.PosInf) <$> draws 2 (seq 0 3).

(** what [Acquirer.__init__] makes of [clustered_args] *)
Definition clustered_acquirer : Acquirer :=
  {| size := 6; init_size := 2; batch_sizes := [5; 7]; dim := 1;
     epsilon := Float64.zero; temp_i := None; temp_f := Some Float64.one;
     cluster_type := Some "objs"%string; cluster_superset := Some 50 |}.

(** clustering enabled, no superset size configured, and a schedule that
    grows from one to eleven *)
Definition growing_args : init_args :=
  {| arg_size := 12; arg_init_size := Int 1;
     arg_batch_sizes := [Int 1; Int 11]; arg_dim := 1;
     arg_epsilon := Float64.zero; arg_temp_i := None;
     arg_temp_f := Some Float64.one; arg_seed := None;
     arg_cluster_type := Some "objs"%string; arg_cluster_superset := None |}.

(** what [Acquirer.__init__] makes of [growing_args] *)
Definition growing_acquirer : Acquirer :=
  {| size := 12; init_size := 1; batch_sizes := [1; 11]; dim := 1;
     epsilon := Float64.zero; temp_i := None; temp_f := Some Float64.one;
     cluster_type := Some "objs"%string; cluster_superset := Some 10 |}.

Definition twelve_items : list Z := [1; 2; 3; 4; 5; 6; 7; 8; 9; 10; 11; 12].

(** case analysis on every integer comparison in the goal *)
Ltac case_ltb :=
  repeat match goal with
         | |- context [?a <? ?b] => destruct (Z.ltb_spec a b)
         | |- context [?a <=? ?b] => destruct (Z.leb_spec a b)
         | |- context [?a =? ?b] => destruct (Z.eqb_spec a b)
         end.

(** ** The models on concrete inputs

    The values on the right are what CPython and numpy print for the same
    calls. *)

Example heappush_run :
  foldl (heappush Z.ltb) [] [5; 3; 8; 1; 9; 2] = [1; 3; 2; 5; 9; 8].
Proof. reflexivity. Qed.

Example heappop_run :
  heappop Z.ltb [1; 3; 2; 5; 9; 8] = Ok (1, [2; 3; 8; 5; 9]).
Proof. reflexivity. Qed.

Example heappushpop_run :
  heappushpop Z.ltb [1; 3; 2; 5; 9; 8] 4 = (1, [2; 3; 4; 5; 9; 8]).
Proof. reflexivity. Qed.

Example nlargest_run : nlargest Z.ltb 3 [5; 3; 8; 1; 9; 2] = [9; 8; 5].
Proof. reflexivity. Qed.

Example sorted_reverse_run :
  sorted_by_rev (λ x, x `mod` 3) [5; 3; 8; 1; 9; 2; 6; 7]
  = [5; 8; 2; 1; 7; 3; 9; 6].
Proof. reflexivity. Qed.

(** [int(10 * 0.7) == 7] although the double nearest to 0.7 lies below it:
    the product rounds up to 7.0 *)
Example seven_tenths_of_ten :
  (x ← Float64.int_mul 10 (Float64.of_ratio 7 10); Float64.to_int x) = Ok 7.
Proof. by vm_compute. Qed.

(** [int(100 * 0.29) == 28]: the product is 28.999999999999996 *)
Example twenty_nine_percent :
  (x ← Float64.int_mul 100 (Float64.of_ratio 29 100); Float64.to_int x)
  = Ok 28.
Proof. by vm_compute. Qed.

(** [float(2**53 + 1) == 2.0**53]: ties go to the even neighbour *)
Example float_of_large_int :
  Float64.of_int (2 ^ 53 + 1) = Ok (Float64.of_int_exact (2 ^ 53)).
Proof. by vm_compute. Qed.

(** [math.ceil(6 / 4) == 2] *)
Example ceil_of_quotient :
  (q ← Float64.int_truediv 6 4; Float64.math_ceil q) = Ok 2.
Proof. by vm_compute. Qed.

(** ** Lists *)

Lemma submseteq_NoDup {A} (l k : list A) : l ⊆+ k → NoDup k → NoDup l.
Proof.
  intros [k' Hk]%submseteq_Permutation Hnd. rewrite Hk in Hnd.
  by apply NoDup_app in Hnd as (? & _ & _).
Qed.

Lemma filter_all {A} (P : A → Prop) `{∀ x, Decision (P x)} (l : list A) :
  Forall P l → filter P l = l.
Proof.
  induction 1 as [|x l Hx _ IH]; [done|].
  by rewrite filter_cons_True, IH.
Qed.

Lemma filter_none {A} (P : A → Prop) `{∀ x, Decision (P x)} (l : list A) :
  Forall (λ x, ¬ P x) l → filter P l = [].
Proof.
  induction 1 as [|x l Hx _ IH]; [done|].
  by rewrite filter_cons_False.
Qed.

Lemma StronglySorted_mono {A} (R1 R2 : relation A) (l : list A) :
  (∀ x y, R1 x y → R2 x y) → StronglySorted R1 l → StronglySorted R2 l.
Proof.
  intros HR. induction 1 as [|x l _ IH Hall]; constructor; [done|].
  eapply Forall_impl; [exact Hall|]. intros y. apply HR.
Qed.

Section HeapqFacts.
Context {E : Type} (lt : E → E → bool).
Implicit Types (heap : list E) (item : E).

(** Both sift loops move a hole: putting the carried item back into the
    hole always gives a rearrangement of the array they started from. *)
Lemma hole_move heap newitem pos pos' c :
  (pos < length heap)%nat → pos ≠ pos' → heap !! pos' = Some c →
  <[pos' := newitem]> (<[pos := c]> heap) ≡ₚ <[pos := newitem]> heap.
Proof.
  intros Hlt Hne Hc.
  rewrite <- (list_insert_insert_eq heap pos c newitem).
  apply Permutation_insert_swap.
  - by apply list_lookup_insert_eq.
  - by rewrite list_lookup_insert_ne.
Qed.

Lemma siftdown_loop_spec fuel : ∀ heap newitem startpos pos,
  (pos < length heap)%nat →
  let r := siftdown_loop lt fuel heap newitem startpos pos in
  <[r.2 := newitem]> r.1 ≡ₚ <[pos := newitem]> heap
  ∧ length r.1 = length heap ∧ (r.2 < length heap)%nat.
Proof.
  induction fuel as [|fuel IH]; intros heap newitem startpos pos Hpos;
    cbn [siftdown_loop]; cbn zeta.
  { done. }
  case_decide as Hsp; [|done].
  destruct (heap !! ((pos - 1) / 2)%nat) as [parent|] eqn:Hparent; [|done].
  destruct (lt newitem parent); [|done].
  assert (((pos - 1) / 2 < pos)%nat) as Hpp.
  { apply Nat.Div0.div_lt_upper_bound. lia. }
  destruct (IH (<[pos := parent]> heap) newitem startpos ((pos - 1) / 2)%nat)
    as (Hperm & Hlen & Hlt'); [rewrite length_insert; lia|].
  rewrite length_insert in Hlen, Hlt'.
  split_and!; [|done..].
  rewrite Hperm. apply hole_move; [done|lia|done].
Qed.

(** The fuel handed to the two sift loops never cuts them short: with
    any larger fuel they return the same array and position. *)
Lemma siftdown_loop_fuel fuel : ∀ fuel' heap newitem startpos pos,
  (pos ≤ fuel)%nat → (pos ≤ fuel')%nat →
  siftdown_loop lt fuel heap newitem startpos pos
  = siftdown_loop lt fuel' heap newitem startpos pos.
Proof.
  induction fuel as [|fuel IH]; intros [|fuel'] heap newitem startpos pos Hf Hf';
    cbn [siftdown_loop]; try done.
  - assert (pos = 0)%nat as -> by lia. by rewrite decide_False by lia.
  - assert (pos = 0)%nat as -> by lia. by rewrite decide_False by lia.
  - case_decide as Hsp; [|done].
    destruct (heap !! ((pos - 1) / 2)%nat) as [parent|]; [|done].
    destruct (lt newitem parent); [|done].
    assert (((pos - 1) / 2 < pos)%nat)
      by (apply Nat.Div0.div_lt_upper_bound; lia).
    apply IH; lia.
Qed.

Lemma siftup_loop_fuel fuel : ∀ fuel' heap pos,
  (length heap - pos ≤ fuel)%nat → (length heap - pos ≤ fuel')%nat →
  siftup_loop lt fuel heap pos = siftup_loop lt fuel' heap pos.
Proof.
  induction fuel as [|fuel IH]; intros [|fuel'] heap pos Hf Hf';
    cbn [siftup_loop]; cbn zeta; try done.
  - by rewrite decide_False by lia.
  - by rewrite decide_False by lia.
  - case_decide as Hchild; [|done].
    set (child := match heap !! (2 * pos + 1)%nat, heap !! (2 * pos + 1 + 1)%nat with
                  | Some c, Some r => if negb (lt c r) then (2 * pos + 1 + 1)%nat
                                      else (2 * pos + 1)%nat
                  | _, _ => (2 * pos + 1)%nat
                  end).
    assert (pos < child)%nat as Hgt by (unfold child; repeat case_match; lia).
    destruct (heap !! child) as [c|]; [|done].
    apply IH; rewrite length_insert; lia.
Qed.

Lemma siftdown_perm heap startpos pos : _siftdown lt heap startpos pos ≡ₚ heap.
Proof.
  unfold _siftdown. destruct (heap !! pos) as [newitem|] eqn:Hnew; [|done].
  pose proof (siftdown_loop_spec pos heap newitem startpos pos
                (lookup_lt_Some _ _ _ Hnew)) as (Hperm & _ & _).
  destruct (siftdown_loop lt pos heap newitem startpos pos) as [heap' pos'].
  simpl in Hperm. by rewrite Hperm, list_insert_id.
Qed.

Lemma siftup_loop_spec fuel : ∀ heap newitem pos,
  (pos < length heap)%nat →
  let r := siftup_loop lt fuel heap pos in
  <[r.2 := newitem]> r.1 ≡ₚ <[pos := newitem]> heap
  ∧ length r.1 = length heap ∧ (r.2 < length heap)%nat.
Proof.
  induction fuel as [|fuel IH]; intros heap newitem pos Hpos;
    cbn [siftup_loop]; cbn zeta.
  { done. }
  case_decide as Hchild; [|done].
  set (child := match heap !! (2 * pos + 1)%nat, heap !! (2 * pos + 1 + 1)%nat with
                | Some c, Some r => if negb (lt c r) then (2 * pos + 1 + 1)%nat
                                    else (2 * pos + 1)%nat
                | _, _ => (2 * pos + 1)%nat
                end).
  assert (pos < child)%nat as Hgt.
  { unfold child. repeat case_match; lia. }
  destruct (heap !! child) as [c|] eqn:Hc; [|done].
  destruct (IH (<[pos := c]> heap) newitem child) as (Hperm & Hlen & Hlt').
  { rewrite length_insert. by eapply lookup_lt_Some. }
  rewrite length_insert in Hlen, Hlt'.
  split_and!; [|done..].
  rewrite Hperm. apply hole_move; [done|lia|done].
Qed.

Lemma siftup_perm heap pos : _siftup lt heap pos ≡ₚ heap.
Proof.
  unfold _siftup. destruct (heap !! pos) as [newitem|] eqn:Hnew; [|done].
  pose proof (siftup_loop_spec (length heap) heap newitem pos
                (lookup_lt_Some _ _ _ Hnew)) as (Hperm & _ & _).
  destruct (siftup_loop lt (length heap) heap pos) as [heap' pos'].
  simpl in Hperm. by rewrite siftdown_perm, Hperm, list_insert_id.
Qed.

Lemma heappush_perm heap item : heappush lt heap item ≡ₚ item :: heap.
Proof.
  unfold heappush. rewrite siftdown_perm. by rewrite Permutation_app_comm.
Qed.

Lemma heappush_length heap item :
  length (heappush lt heap item) = S (length heap).
Proof. by rewrite heappush_perm. Qed.

Lemma heappushpop_perm heap item :
  (heappushpop lt heap item).1 :: (heappushpop lt heap item).2 ≡ₚ item :: heap.
Proof.
  unfold heappushpop. destruct heap as [|top heap]; [done|].
  destruct (lt top item); [|done]. simpl.
  rewrite siftup_perm. apply perm_swap.
Qed.

Lemma heappushpop_length heap item :
  length (heappushpop lt heap item).2 = length heap.
Proof.
  pose proof (heappushpop_perm heap item) as Hperm.
  apply Permutation_length in Hperm. simpl in Hperm. lia.
Qed.

Lemma heappop_nil : heappop lt [] = Raise IndexError.
Proof. done. Qed.

(** popping a non-empty heap hands back its first entry *)
Lemma heappop_cons top heap :
  ∃ heap', heappop lt (top :: heap) = Ok (top, heap') ∧ heap' ≡ₚ heap.
Proof.
  unfold heappop.
  destruct (last (top :: heap)) as [lastelt|] eqn:Hlast.
  2: { by apply last_None in Hlast. }
  apply last_Some in Hlast as [front Hfront].
  rewrite Hfront, removelast_last.
  destruct front as [|a front]; simplify_eq/=.
  { by exists []. }
  eexists; split; [done|].
  rewrite siftup_perm. simpl. by rewrite Permutation_app_comm.
Qed.

End HeapqFacts.

(** ** The batch-size schedule *)

Lemma py_index_nat {A} (l : list A) (t : Z) :
  0 ≤ t → t < Z.of_nat (length l) →
  ∃ a, l !! Z.to_nat t = Some a ∧ py_index l t = Ok a.
Proof.
  intros H0 Hlt. unfold py_index.
  destruct (Z.ltb_spec t 0); [lia|].
  destruct (Z.leb_spec 0 t); [|lia].
  destruct (Z.ltb_spec t (Z.of_nat (length l))); [|lia]. simpl.
  destruct (lookup_lt_is_Some_2 l (Z.to_nat t)) as [a Ha]; [lia|].
  exists a. by rewrite Ha.
Qed.

Lemma py_index_out {A} (l : list A) (t : Z) :
  Z.of_nat (length l) ≤ t → py_index l t = Raise IndexError.
Proof.
  intros Hge. unfold py_index.
  destruct (Z.ltb_spec t 0); [lia|].
  destruct (Z.ltb_spec t (Z.of_nat (length l))); [lia|].
  by rewrite andb_false_r.
Qed.

Lemma py_index_last {A} (l : list A) (a : A) :
  last l = Some a → py_index l (-1) = Ok a.
Proof.
  intros Hlast. unfold py_index.
  assert (l ≠ []) as Hne by (intros ->; done).
  assert (0 < length l)%nat by (destruct l; simpl; [done|lia]).
  destruct (Z.ltb_spec (-1) 0); [|lia].
  destruct (Z.leb_spec 0 (-1 + Z.of_nat (length l))); [|lia].
  destruct (Z.ltb_spec (-1 + Z.of_nat (length l)) (Z.of_nat (length l))); [|lia].
  simpl. rewrite last_lookup in Hlast.
  replace (Z.to_nat (-1 + Z.of_nat (length l))) with (pred (length l)) by lia.
  by rewrite Hlast.
Qed.

(** C7. For a non-empty resolved schedule [S] and a round index [t >= 0],
    [batch_size t] returns [S[t]] when [t < len S] and the last entry
    [S[-1]] when [t >= len S]; it never raises. *)
Theorem batch_size_schedule (self : Acquirer) (t : Z) :
  batch_sizes self ≠ [] → 0 ≤ t →
  ∃ bs, batch_size self t = Ok bs ∧
    ((t < Z.of_nat (length (batch_sizes self))
        ∧ batch_sizes self !! Z.to_nat t = Some bs)
     ∨ (Z.of_nat (length (batch_sizes self)) ≤ t
        ∧ last (batch_sizes self) = Some bs
        ∧ py_index (batch_sizes self) (-1) = Ok bs)).
Proof.
  intros Hne Ht. unfold batch_size.
  destruct (Z.lt_ge_cases t (Z.of_nat (length (batch_sizes self)))) as [Hin|Hout].
  - destruct (py_index_nat (batch_sizes self) t Ht Hin) as (bs & Hbs & ->).
    exists bs. split; [done|]. by left.
  - rewrite py_index_out by done.
    destruct (last (batch_sizes self)) as [bs|] eqn:Hlast.
    2: { by apply last_None in Hlast. }
    exists bs. rewrite (py_index_last _ _ Hlast). split; [done|]. by right.
Qed.

(** ** Bounded selection *)

Section SelectionFacts.
Context `{Countable T} (item_lt : T → T → bool).

Abbreviation entry := (float64 * T)%type.
Abbreviation lt := (entry_lt item_lt).

Implicit Types (heap : list entry) (e : entry) (cap : Z).

Lemma bounded_push_submseteq heap cap e :
  bounded_push item_lt heap cap e ⊆+ e :: heap.
Proof.
  unfold bounded_push. case_match.
  - by rewrite heappush_perm.
  - rewrite <- heappushpop_perm. by apply submseteq_cons.
Qed.

Lemma bounded_push_length heap cap e :
  length (bounded_push item_lt heap cap e) =
    if Z.of_nat (length heap) <? cap then S (length heap) else length heap.
Proof.
  unfold bounded_push. case_match.
  - apply heappush_length.
  - apply heappushpop_length.
Qed.

(** what a run of pushes into a bounded heap leaves: a sub-multiset of
    what was offered, filled up to the capacity *)
Lemma bounded_fold_spec cap (es : list entry) : ∀ heap,
  let h := foldl (λ heap e, bounded_push item_lt heap cap e) heap es in
  h ⊆+ es ++ heap
  ∧ Z.of_nat (length h) =
      if Z.of_nat (length heap) <? cap
      then Z.min cap (Z.of_nat (length heap + length es))
      else Z.of_nat (length heap).
Proof.
  induction es as [|e es IH]; intros heap; simpl.
  { split; [done|]. case_ltb; lia. }
  destruct (IH (bounded_push item_lt heap cap e)) as [Hsub Hlen].
  split.
  - etrans; [exact Hsub|].
    etrans; [apply submseteq_app; [done|apply bounded_push_submseteq]|].
    apply Permutation_submseteq. symmetry. apply Permutation_middle.
  - rewrite Hlen, bounded_push_length.
    destruct (Z.ltb_spec (Z.of_nat (length heap)) cap); case_ltb; lia.
Qed.

Lemma top_k_as_fold {V} xs U cap (explored : gmap T V) :
  top_k item_lt xs U cap explored =
    foldl (λ heap e, bounded_push item_lt heap cap e) []
      ((λ xu : T * float64, (xu.2, xu.1)) <$>
         filter (λ xu : T * float64, explored !! xu.1 = None) (zip xs U)).
Proof.
  unfold top_k. generalize (@nil entry).
  induction (zip xs U) as [|xu l IH]; intros heap; [done|].
  simpl. rewrite filter_cons.
  destruct (decide (is_Some (explored !! xu.1))) as [Hs|Hn].
  - rewrite decide_False; [apply IH|].
    intros Hnone. rewrite Hnone in Hs. by destruct Hs.
  - rewrite decide_True; [apply IH|].
    by apply eq_None_not_Some.
Qed.

Lemma filter_zip_fst_length {V} (xs : list T) (U : list float64)
    (explored : gmap T V) :
  length U = length xs →
  length (filter (λ xu : T * float64, explored !! xu.1 = None) (zip xs U))
  = length (filter (λ x, explored !! x = None) xs).
Proof.
  revert U. induction xs as [|x xs IH]; intros [|u U] Hlen; simplify_eq/=;
    [done|].
  rewrite !filter_cons. simpl.
  destruct (decide (explored !! x = None)); simpl; rewrite IH; done.
Qed.

Lemma unexplored_size {V} (xs : list T) (explored : gmap T V) :
  NoDup xs →
  base.size (list_to_set xs ∖ dom explored : gset T)
  = length (filter (λ x, explored !! x = None) xs).
Proof.
  intros Hnd.
  rewrite <- (size_list_to_set (C := gset T)
                (filter (λ x, explored !! x = None) xs))
    by (by apply NoDup_filter).
  f_equal. apply set_eq. intros x.
  rewrite elem_of_difference, !elem_of_list_to_set, list_elem_of_filter,
    not_elem_of_dom. tauto.
Qed.

Lemma top_k_spec {V} xs U cap (explored : gmap T V) :
  let heap := top_k item_lt xs U cap explored in
  heap ⊆+ (λ xu : T * float64, (xu.2, xu.1)) <$>
            filter (λ xu : T * float64, explored !! xu.1 = None) (zip xs U)
  ∧ Z.of_nat (length heap) =
      Z.max 0 (Z.min cap (Z.of_nat (length
        (filter (λ xu : T * float64, explored !! xu.1 = None) (zip xs U))))).
Proof.
  intros heap. unfold heap. rewrite top_k_as_fold.
  match goal with |- context [foldl _ [] ?es] =>
    destruct (bounded_fold_spec cap es []) as [Hsub Hlen] end.
  rewrite app_nil_r in Hsub. split; [done|].
  rewrite Hlen. simpl. rewrite length_fmap.
  case_ltb; lia.
Qed.

Lemma top_k_items {V} xs U cap (explored : gmap T V) x :
  x ∈ (top_k item_lt xs U cap explored).*2 → x ∈ xs ∧ explored !! x = None.
Proof.
  intros Hx. apply list_elem_of_fmap in Hx as ([u x'] & -> & Hin).
  destruct (top_k_spec xs U cap explored) as [Hsub _].
  eapply elem_of_submseteq in Hin; [|exact Hsub].
  apply list_elem_of_fmap in Hin as ([x'' u'] & Heq & Hin).
  simplify_eq/=.
  apply list_elem_of_filter in Hin as [Hnone Hin]. simpl in Hnone.
  split; [|done].
  apply elem_of_zip_l in Hin. done.
Qed.

Lemma top_k_NoDup {V} xs U cap (explored : gmap T V) :
  NoDup xs → NoDup (top_k item_lt xs U cap explored).*2.
Proof.
  intros Hnd.
  destruct (top_k_spec xs U cap explored) as [Hsub _].
  eapply (fmap_submseteq snd) in Hsub.
  eapply submseteq_NoDup; [exact Hsub|].
  rewrite <- list_fmap_compose.
  eapply submseteq_NoDup; [|exact Hnd].
  etrans; [apply fmap_submseteq, sublist_submseteq, sublist_filter|].
  apply sublist_submseteq. rewrite (list_fmap_ext _ fst (zip xs U)) by done.
  clear. revert U. induction xs as [|x xs IH]; intros [|u U]; simpl;
    try constructor; auto using sublist_nil_l.
Qed.

Lemma top_k_count {V} xs U cap (explored : gmap T V) :
  NoDup xs → length U = length xs → 0 ≤ cap →
  Z.of_nat (length (top_k item_lt xs U cap explored)) =
    Z.min cap (Z.of_nat (base.size (list_to_set xs ∖ dom explored : gset T))).
Proof.
  intros Hnd Hlen Hcap.
  destruct (top_k_spec xs U cap explored) as [_ ->].
  rewrite unexplored_size, filter_zip_fst_length by done. lia.
Qed.

(** C1. Unclustered top-k selection over a pool of pairwise-distinct
    items, with one utility per item and a non-negative batch size,
    returns no item that is a key of the explored mapping, and returns
    exactly [min(batch_size, |pool \ explored|)] items (which are distinct
    members of the pool). *)
Theorem top_k_unexplored_count {V} (xs : list T) (U : list float64)
    (batch_size : Z) (explored : gmap T V) :
  NoDup xs → length U = length xs → 0 ≤ batch_size →
  let heap := top_k item_lt xs U batch_size explored in
  (∀ x, x ∈ heap.*2 → (x ∉ dom explored) ∧ x ∈ xs)
  ∧ NoDup (heap.*2)
  ∧ Z.of_nat (length (heap.*2)) =
      Z.min batch_size
        (Z.of_nat (base.size (list_to_set xs ∖ dom explored : gset T))).
Proof.
  intros Hnd Hlen Hbs heap. subst heap. split_and!.
  - intros x Hx. apply top_k_items in Hx as [Hin Hnone].
    split; [|done]. by apply not_elem_of_dom.
  - by apply top_k_NoDup.
  - rewrite length_fmap. by apply top_k_count.
Qed.

End SelectionFacts.

(** ** The reference maximum *)

#[local] Instance np_le_total : Total np_le.
Proof.
  intros x y. unfold np_le, Float64.leb.
  destruct x as [| |a|], y as [| |b|]; simpl; try (by left; auto);
    try (by right; auto); try (left; right; by split; auto);
    try (right; right; by split; auto).
  destruct (Z.ltb_spec a b); [left; right; by split; auto|].
  right. right. split; [auto|].
  destruct (Z.ltb_spec b a); [done|].
  simpl. apply Is_true_true. lia.
Qed.

#[local] Instance np_le_trans : Transitive np_le.
Proof.
  intros x y z. unfold np_le, Float64.leb.
  destruct x as [| |a|], y as [| |b|], z as [| |c|]; simpl;
    try tauto; try (intros _ _; right; by split; auto).
  intros [[]|[_ Hab]] [[]|[_ Hbc]]. right. split; [auto|].
  apply Is_true_true. apply Is_true_true in Hab, Hbc. lia.
Qed.

Lemma StronglySorted_lookup_lt {A} (R : relation A) (l : list A) i j x y :
  StronglySorted R l → (i < j)%nat → l !! i = Some x → l !! j = Some y → R x y.
Proof.
  intros Hs. revert i j. induction Hs as [|a l Hs IH Hall]; intros i j Hij Hi Hj.
  { done. }
  destruct j as [|j]; [lia|]. destruct i as [|i]; simplify_eq/=.
  - rewrite Forall_lookup in Hall. by eapply Hall.
  - eapply IH; [|done..]. lia.
Qed.

(** In an array without NaN sorted the way numpy sorts, the entry [k]
    places from the end is a [k]-th largest value. *)
Lemma sorted_kth_largest (srt : list float64) (k : Z) (v : float64) :
  StronglySorted np_le srt →
  Forall (λ y, Float64.is_nan y = false) srt →
  1 ≤ k ≤ Z.of_nat (length srt) →
  srt !! (length srt - Z.to_nat k)%nat = Some v →
  is_kth_largest srt k v.
Proof.
  intros Hs Hnan Hk Hv.
  set (i := (length srt - Z.to_nat k)%nat) in *.
  assert (Float64.is_nan v = false) as Hvn.
  { rewrite Forall_lookup in Hnan. by eapply Hnan. }
  split; [by eapply list_elem_of_lookup_2|].
  rewrite <- (take_drop_middle srt i v Hv).
  rewrite !filter_app, !filter_cons, !length_app.
  assert (filter (λ y, Float64.ltb v y = true) (take i srt) = []) as ->.
  { apply filter_none, Forall_forall. intros y Hy.
    apply list_elem_of_lookup in Hy as [j Hj].
    pose proof (lookup_lt_Some _ _ _ Hj) as Hjl.
    rewrite length_take in Hjl. rewrite lookup_take_lt in Hj by lia.
    assert (np_le y v) as Hle
      by (eapply (StronglySorted_lookup_lt np_le srt j i); [done|lia|done..]).
    destruct Hle as [Hn|[_ Hle]]; [by rewrite Hvn in Hn|].
    revert Hle. clear. unfold Float64.leb.
    destruct y as [| |a|], v as [| |b|]; simpl; try done.
    intros Hle%Is_true_true. destruct (Z.ltb_spec b a); [|done].
    destruct (Z.ltb_spec a b); [lia|]. destruct (Z.eqb_spec a b); [lia|done]. }
  assert (filter (λ y, Float64.leb v y = true) (drop (S i) srt) = drop (S i) srt)
    as ->.
  { apply filter_all, Forall_forall. intros y Hy.
    apply list_elem_of_lookup in Hy as [j Hj].
    rewrite lookup_drop in Hj.
    assert (np_le v y) as Hle
      by (eapply (StronglySorted_lookup_lt np_le srt i (S i + j)); [done|lia|done..]).
    assert (Float64.is_nan y = false) as Hyn.
    { rewrite Forall_lookup in Hnan. by eapply Hnan. }
    destruct Hle as [Hn|[_ Hle]]; [by rewrite Hyn in Hn|].
    by apply Is_true_true. }
  assert (Float64.ltb v v = false) as Hirr.
  { clear. destruct v; simpl; try done. apply Z.ltb_irrefl. }
  assert (Float64.leb v v = true) as Hrefl.
  { clear -Hvn. unfold Float64.leb. destruct v; simpl in *; try done.
    rewrite Z.eqb_refl. apply orb_true_r. }
  rewrite decide_False by (by rewrite Hirr).
  rewrite decide_True by done.
  pose proof (length_filter (λ y, Float64.ltb v y = true) (drop (S i) srt)) as Hf.
  rewrite length_drop in Hf. simpl. rewrite length_drop. lia.
Qed.

Lemma is_kth_largest_perm (Y Y' : list float64) k v :
  Y ≡ₚ Y' → is_kth_largest Y k v → is_kth_largest Y' k v.
Proof.
  intros Hp (Hin & Hlt & Hle). unfold is_kth_largest.
  rewrite <- Hp. done.
Qed.

Lemma filter_length_mono {A} (P Q : A → Prop) `{∀ x, Decision (P x)}
    `{∀ x, Decision (Q x)} (l : list A) :
  (∀ x, P x → Q x) → (length (filter P l) ≤ length (filter Q l))%nat.
Proof.
  intros HPQ. induction l as [|x l IH]; [done|].
  rewrite !filter_cons. destruct (decide (P x)) as [HP|HP].
  - rewrite decide_True by auto. simpl. lia.
  - destruct (decide (Q x)); simpl; lia.
Qed.

(** Without NaN the [k]-th largest value is unique, so the order in which
    the explored outcomes are listed does not matter. *)
Lemma is_kth_largest_unique (Y : list float64) (k : Z) (v1 v2 : float64) :
  Forall (λ y, Float64.is_nan y = false) Y →
  is_kth_largest Y k v1 → is_kth_largest Y k v2 → v1 = v2.
Proof.
  intros Hnan (Hin1 & Hlt1 & Hle1) (Hin2 & Hlt2 & Hle2).
  rewrite Forall_forall in Hnan.
  pose proof (Hnan v1 Hin1) as Hn1. pose proof (Hnan v2 Hin2) as Hn2.
  assert (Float64.ltb v1 v2 = true ∨ v1 = v2 ∨ Float64.ltb v2 v1 = true)
    as [Hlt|[Heq|Hgt]]; [|exfalso|done|exfalso].
  - clear -Hn1 Hn2. destruct v1 as [| |a|], v2 as [| |b|]; simpl in *;
      try done; auto.
    destruct (Z.lt_trichotomy a b) as [?|[->|?]];
      [left|right; by left|right; right]; by apply Z.ltb_lt.
  - assert (length (filter (λ y, Float64.leb v2 y = true) Y)
            ≤ length (filter (λ y, Float64.ltb v1 y = true) Y))%nat; [|lia].
    apply filter_length_mono.
    intros y. clear -Hlt. unfold Float64.leb.
    destruct v1 as [| |a|], v2 as [| |b|], y as [| |c|]; simpl in *; try done.
    rewrite orb_true_iff, !Z.ltb_lt, Z.eqb_eq in *. lia.
  - assert (length (filter (λ y, Float64.leb v1 y = true) Y)
            ≤ length (filter (λ y, Float64.ltb v2 y = true) Y))%nat; [|lia].
    apply filter_length_mono.
    intros y. clear -Hgt. unfold Float64.leb.
    destruct v1 as [| |a|], v2 as [| |b|], y as [| |c|]; simpl in *; try done.
    rewrite orb_true_iff, !Z.ltb_lt, Z.eqb_eq in *. lia.
Qed.

Lemma np_partition_at_kth_largest (Y : list float64) (k : Z) :
  Forall (λ y, Float64.is_nan y = false) Y →
  1 ≤ k ≤ Z.of_nat (length Y) →
  ∃ v, np_partition_at Y (- k) = Ok v ∧ is_kth_largest Y k v.
Proof.
  intros Hnan Hk. unfold np_partition_at.
  set (srt := merge_sort np_le Y).
  assert (srt ≡ₚ Y) as Hperm by apply merge_sort_Permutation.
  assert (length srt = length Y) as Hlen by (by rewrite Hperm).
  destruct (Z.ltb_spec (- k) 0); [|lia].
  destruct (Z.leb_spec 0 (- k + Z.of_nat (length Y))); [|lia].
  destruct (Z.ltb_spec (- k + Z.of_nat (length Y)) (Z.of_nat (length Y))); [|lia].
  simpl. unfold py_index. rewrite Hlen.
  destruct (Z.ltb_spec (- k) 0); [|lia].
  destruct (Z.leb_spec 0 (- k + Z.of_nat (length Y))); [|lia].
  destruct (Z.ltb_spec (- k + Z.of_nat (length Y)) (Z.of_nat (length Y))); [|lia].
  simpl.
  replace (Z.to_nat (- k + Z.of_nat (length Y)))
    with (length srt - Z.to_nat k)%nat by lia.
  destruct (lookup_lt_is_Some_2 srt (length srt - Z.to_nat k)%nat) as [v Hv]; [lia|].
  rewrite Hv. exists v. split; [done|].
  apply (is_kth_largest_perm srt Y); [done|].
  apply sorted_kth_largest; [|by rewrite Hperm|lia|done].
  apply StronglySorted_merge_sort; apply _.
Qed.

Lemma nan_to_num_no_nan (ys : list float64) :
  Forall (λ y, Float64.is_nan y = false) (Float64.nan_to_num Float64.NegInf <$> ys).
Proof. apply Forall_fmap, Forall_true. by intros []. Qed.

Lemma nan_to_num_no_inf (ys : list float64) :
  Forall (λ y, Float64.is_inf y = false) ys →
  Float64.nan_to_num Float64.NegInf <$> ys = nan_as_neginf <$> ys.
Proof.
  intros Hinf. apply Forall_fmap_ext_1.
  eapply Forall_impl; [exact Hinf|]. by intros [].
Qed.

Lemma first_largest_3_nan_5 (Y : list float64) (v : float64) :
  Y ≡ₚ [f3; Float64.NegInf; f5] → is_kth_largest Y 1 v → v = f5.
Proof.
  intros Hperm Hk. apply (is_kth_largest_perm _ _ _ _ Hperm) in Hk.
  destruct Hk as (Hin & Hlt & _).
  apply list_elem_of_In in Hin. simpl in Hin.
  destruct Hin as [<-|[<-|[<-|[]]]]; [| |done]; vm_compute in Hlt; done.
Qed.

Section ReferenceMax.
Context `{Countable T}.

(** C3, amended. When the explored mapping is non-empty, [dim == 1] and
    [1 <= k <= len(explored)], the reference maximum is the [k]-th largest
    value among the explored outcomes after [numpy.nan_to_num]: every NaN
    counts as negative infinity, and an infinite outcome counts as the
    largest finite double of its sign.  Where no outcome is infinite this
    is the [k]-th largest outcome with NaN read as negative infinity; for
    the outcomes 3.0, NaN, 5.0 and [k = 1] it is 5.0. *)
Theorem reference_max_kth_largest (self : Acquirer) (explored : gmap T float64)
    (k : Z) :
  explored ≠ ∅ → dim self = 1 → 1 ≤ k ≤ Z.of_nat (base.size explored) →
  let ys := (map_to_list explored).*2 in
  ∃ v, reference_max self explored k = Ok v
    ∧ is_kth_largest (Float64.nan_to_num Float64.NegInf <$> ys) k v
    ∧ (Forall (λ y, Float64.is_inf y = false) ys →
       is_kth_largest (nan_as_neginf <$> ys) k v)
    ∧ (ys ≡ₚ [f3; Float64.NaN; f5] → k = 1 → v = f5).
Proof.
  intros Hne Hdim Hk ys. unfold reference_max.
  rewrite decide_False by done. rewrite Hdim. simpl. fold ys.
  destruct (np_partition_at_kth_largest
              (Float64.nan_to_num Float64.NegInf <$> ys) k) as (v & Hv & Hkth).
  { apply nan_to_num_no_nan. }
  { unfold ys. rewrite !length_fmap, length_map_to_list. done. }
  exists v. split_and!; [done..| |].
  - intros Hinf. by rewrite <- nan_to_num_no_inf.
  - intros Hys ->. eapply first_largest_3_nan_5; [|exact Hkth].
    by rewrite Hys.
Qed.

End ReferenceMax.

(** ** Doubles that are exact *)

Module Float64Facts.
Import Float64.

Lemma unit_pos : 0 < unit.
Proof. unfold unit. by apply Z.pow_pos_nonneg. Qed.

(** A quotient that fits in 53 significant bits is not rounded. *)
Lemma round_pos_exact (q d e0 : Z) :
  0 < d → 0 ≤ q → 0 ≤ e0 → (2 ^ e0 | q) → q < 2 ^ (53 + e0) →
  q < overflow_units → round_pos (q * d) d = Fin q.
Proof.
  intros Hd Hq He0 Hdiv Hbits Hover. unfold round_pos.
  rewrite Z.div_mul by lia.
  set (e := Z.max 0 (Z.log2 q - 52)).
  assert (0 ≤ e) as He by lia.
  assert ((2 ^ e | q)) as Hdive.
  { destruct (decide (q = 0)) as [->|Hq0]; [apply Z.divide_0_r|].
    assert (Z.log2 q < 53 + e0) by (apply Z.log2_lt_pow2; lia).
    etrans; [|exact Hdiv].
    exists (2 ^ (e0 - e)). rewrite <- Z.pow_add_r by lia. f_equal. lia. }
  rewrite Z.shiftr_div_pow2 by done.
  rewrite !Z.shiftl_mul_pow2 by done.
  assert (q `div` 2 ^ e * 2 ^ e = q) as Hm.
  { assert (2 ^ e ≠ 0) as Hnz by (apply Z.pow_nonzero; lia).
    apply Z.mod_divide in Hdive; [|done].
    pose proof (Z.div_mod q (2 ^ e) Hnz). lia. }
  rewrite Hm, Z.sub_diag, Z.mul_0_r.
  assert (0 < d * 2 ^ e) as Hhalf.
  { apply Z.mul_pos_pos; [done|]. by apply Z.pow_pos_nonneg. }
  replace (0 ?= d * 2 ^ e) with Lt by (symmetry; by apply Z.compare_lt_iff).
  rewrite Hm.
  destruct (Z.leb_spec overflow_units q); [lia|done].
Qed.

(** Rounding a non-negative quotient gives a non-negative double, finite
    as long as the quotient is below [2^2097]. *)
Lemma round_pos_nonneg (n d : Z) :
  0 ≤ n → 0 < d → n `div` d < 2 ^ 2097 →
  ∃ r, round_pos n d = Fin r ∧ 0 ≤ r.
Proof.
  intros Hn Hd Hq. unfold round_pos.
  set (q := n `div` d) in *.
  assert (0 ≤ q) as Hq0 by (by apply Z.div_pos).
  set (e := Z.max 0 (Z.log2 q - 52)).
  assert (0 ≤ e) as He by lia.
  set (m := Z.shiftr q e).
  assert (0 ≤ m) as Hm by (by apply Z.shiftr_nonneg).
  set (m' := match 2 * (n - Z.shiftl m e * d) ?= Z.shiftl d e with
             | Lt => m | Gt => m + 1
             | Eq => if Z.even m then m else m + 1 end).
  assert (m ≤ m' ≤ m + 1) as Hm' by (unfold m'; repeat case_match; lia).
  assert (0 < 2 ^ e) as H2e by (by apply Z.pow_pos_nonneg).
  assert (m * 2 ^ e ≤ q) as Hmq.
  { unfold m. rewrite Z.shiftr_div_pow2 by done.
    rewrite Z.mul_comm. apply Z.mul_div_le. done. }
  assert (2 ^ e ≤ q + 1) as Heq.
  { destruct (decide (e = 0)) as [He0|Hne]; [rewrite He0; simpl; lia|].
    assert (52 < Z.log2 q) as Hlog52 by (unfold e in Hne; lia).
    assert (0 < q) as Hqpos.
    { destruct (Z.le_gt_cases q 0) as [Hle|]; [|lia].
      rewrite (Z.log2_nonpos q Hle) in Hlog52. lia. }
    pose proof (Z.log2_spec q Hqpos) as [Hlog _].
    assert (2 ^ e ≤ 2 ^ Z.log2 q); [|lia].
    apply Z.pow_le_mono_r; lia. }
  rewrite Z.shiftl_mul_pow2 by done.
  assert (m' * 2 ^ e < overflow_units) as Hlt.
  { assert (m' * 2 ^ e ≤ 2 * q + 1) by nia.
    assert (2 * 2 ^ 2097 = overflow_units) as <-; [|lia].
    unfold overflow_units. by rewrite <- Z.pow_succ_r. }
  destruct (Z.leb_spec overflow_units (m' * 2 ^ e)); [lia|].
  eexists; split; [done|]. nia.
Qed.

Lemma round_pos_sign (n d r : Z) :
  0 ≤ n → 0 < d → round_pos n d = Fin r → 0 ≤ r.
Proof.
  intros Hn Hd. unfold round_pos.
  set (q := n `div` d).
  assert (0 ≤ q) as Hq0 by (by apply Z.div_pos).
  set (e := Z.max 0 (Z.log2 q - 52)).
  set (m := Z.shiftr q e).
  assert (0 ≤ m) as Hm by (by apply Z.shiftr_nonneg).
  set (m' := match 2 * (n - Z.shiftl m e * d) ?= Z.shiftl d e with
             | Lt => m | Gt => m + 1
             | Eq => if Z.even m then m else m + 1 end).
  assert (0 ≤ m') as Hm' by (unfold m'; repeat case_match; lia).
  case_match; [done|]. intros [= <-]. by apply Z.shiftl_nonneg.
Qed.

(** a quotient of non-negative integers, rounded up, is non-negative *)
Lemma ceil_truediv_nonneg (a b c : Z) (q : t) :
  0 ≤ a → 0 ≤ b → int_truediv a b = Ok q → math_ceil q = Ok c → 0 ≤ c.
Proof.
  intros Ha Hb. unfold int_truediv. pose proof unit_pos as Hu.
  destruct (Z.eqb_spec b 0); [done|].
  assert (Z.sgn b = 1) as -> by lia.
  unfold round_ratio. destruct (Z.ltb_spec (a * 1 * unit) 0); [nia|].
  destruct (round_pos (a * 1 * unit) (Z.abs b)) as [| |r|] eqn:Hr; try done.
  intros [= <-]. simpl. intros [= <-].
  apply round_pos_sign in Hr; [|nia|lia].
  assert ((- r) `div` unit ≤ 0); [|lia].
  apply Z.div_le_upper_bound; lia.
Qed.

(** Within 53 bits the rounded quotient of two integers has the exact
    ceiling: [math.ceil(a / b)] is the integer ceiling of [a / b]. *)
Lemma ceil_truediv_exact (a b : Z) :
  0 ≤ a < 2 ^ 53 → 0 < b < 2 ^ 53 →
  ∃ q, int_truediv a b = Ok q ∧ math_ceil q = Ok (ceil_div a b).
Proof.
  intros Ha Hb. pose proof unit_pos as Hu.
  unfold int_truediv, ceil_div.
  destruct (Z.eqb_spec b 0) as [|_]; [lia|].
  assert (Z.sgn b = 1) as -> by lia.
  assert (Z.abs b = b) as -> by lia.
  rewrite Z.mul_1_r. unfold round_ratio.
  destruct (Z.ltb_spec (a * unit) 0); [nia|].
  unfold round_pos.
  set (n := a * unit).
  set (q := n `div` b).
  set (e := Z.max 0 (Z.log2 q - 52)).
  set (n0 := a `div` b).
  set (rm := a `mod` b).
  assert (a = b * n0 + rm ∧ 0 ≤ rm < b) as [Hab Hrm].
  { split; [apply Z.div_mod; lia|apply Z.mod_pos_bound; lia]. }
  assert (0 ≤ n0) as Hn0 by (apply Z.div_pos; lia).
  assert (n0 * unit ≤ q) as Hql.
  { apply Z.div_le_lower_bound; [lia|]. unfold n. nia. }
  assert (q < (n0 + 1) * unit) as Hqu.
  { apply Z.div_lt_upper_bound; [lia|]. unfold n. nia. }
  assert (b * q ≤ n) as Hbq by (apply Z.mul_div_le; lia).
  assert (unit = 2 ^ 1074) as Hunit by reflexivity.
  assert (0 ≤ e ≤ 1074) as He.
  { split; [lia|]. unfold e. apply Z.max_lub; [lia|].
    destruct (Z.le_gt_cases q 0) as [Hq0|Hq0].
    - rewrite (Z.log2_nonpos q Hq0). lia.
    - assert (Z.log2 q < 1127); [|lia].
      apply Z.log2_lt_pow2; [done|].
      assert (2 ^ 1127 = 2 ^ 53 * unit) as ->
        by (rewrite Hunit, <- Z.pow_add_r by lia; reflexivity).
      nia. }
  set (K := 2 ^ (1074 - e)).
  assert (0 < 2 ^ e) as H2e by (apply Z.pow_pos_nonneg; lia).
  assert (0 < K) as HK by (apply Z.pow_pos_nonneg; lia).
  assert (unit = K * 2 ^ e) as HKe.
  { unfold K. rewrite <- Z.pow_add_r, Hunit by lia. f_equal. lia. }
  rewrite Z.shiftr_div_pow2, !Z.shiftl_mul_pow2 by lia.
  set (m := q `div` 2 ^ e).
  assert (m * 2 ^ e ≤ q < (m + 1) * 2 ^ e) as Hm.
  { unfold m. pose proof (Z.div_mod q (2 ^ e)).
    pose proof (Z.mod_pos_bound q (2 ^ e)). lia. }
  assert (n0 * K ≤ m < (n0 + 1) * K) as HmK by nia.
  assert (b * 2 ^ e < 2 * unit) as Hhalf.
  { destruct (decide (e = 0)) as [He0|He0].
    - rewrite He0. simpl. assert (2 ^ 53 < 2 * unit) by (by vm_compute). lia.
    - assert (e = Z.log2 q - 52 ∧ 52 < Z.log2 q) as [Hee Hlog] by lia.
      assert (0 < q) as Hqpos.
      { destruct (Z.le_gt_cases q 0) as [Hq0|]; [|done].
        rewrite (Z.log2_nonpos q Hq0) in Hlog. lia. }
      pose proof (Z.log2_spec q Hqpos) as [Hlq _].
      assert (2 ^ Z.log2 q = 2 ^ e * 2 ^ 52) as Hsplit.
      { rewrite <- Z.pow_add_r by lia. f_equal. lia. }
      assert (a * unit < 2 ^ 53 * unit) by nia.
      assert (2 ^ 53 = 2 * 2 ^ 52) as H53 by reflexivity.
      assert (0 < 2 ^ 52) by reflexivity.
      unfold n in Hbq. nia. }
  set (rest := n - m * 2 ^ e * b).
  set (m' := match 2 * rest ?= b * 2 ^ e with
             | Lt => m | Gt => m + 1
             | Eq => if Z.even m then m else m + 1 end).
  assert (m ≤ m' ≤ m + 1) as Hm' by (unfold m'; repeat case_match; lia).
  assert (m' * 2 ^ e < overflow_units) as Hover.
  { assert (2 ^ 54 * unit < overflow_units) by (by vm_compute). nia. }
  destruct (Z.leb_spec overflow_units (m' * 2 ^ e)); [lia|].
  eexists. split; [done|]. unfold math_ceil. f_equal.
  destruct (decide (rm = 0)) as [Hz|Hnz].
  - (* the quotient is an integer and is represented exactly *)
    assert (q = n0 * unit) as Hq.
    { unfold q, n. rewrite Hab, Hz, Z.add_0_r.
      replace (b * n0 * unit) with (n0 * unit * b) by lia.
      apply Z.div_mul. lia. }
    assert (m = n0 * K) as HmE by nia.
    assert (rest = 0) as Hrest by (unfold rest, n; nia).
    assert (m' = m) as Hm'E.
    { unfold m'. rewrite Hrest, Z.mul_0_r.
      replace (0 ?= b * 2 ^ e) with Lt; [done|].
      symmetry. apply Z.compare_lt_iff. nia. }
    rewrite Hm'E.
    replace (m * 2 ^ e) with (n0 * unit) by nia.
    replace (- (n0 * unit)) with (- n0 * unit) by lia.
    rewrite Z.div_mul by lia.
    assert (- a = - n0 * b) as -> by lia.
    rewrite Z.div_mul by lia. done.
  - (* otherwise the double lies strictly between two integers, or on
       the upper one *)
    assert (n0 * unit < m' * 2 ^ e ≤ (n0 + 1) * unit) as Hr.
    { split; [|nia].
      destruct (decide (m = n0 * K)) as [HmE|HmN]; [|nia].
      assert (rest = rm * unit) as Hrest by (unfold rest, n; nia).
      assert (m' = m + 1) as Hm'E; [|nia].
      unfold m'. replace (2 * rest ?= b * 2 ^ e) with Gt; [done|].
      symmetry. apply Z.compare_gt_iff. nia. }
    assert ((- (m' * 2 ^ e)) `div` unit = - (n0 + 1)) as ->.
    { symmetry. apply (Z.div_unique_pos _ _ _ ((n0 + 1) * unit - m' * 2 ^ e)); lia. }
    assert ((- a) `div` b = - (n0 + 1)) as ->; [|lia].
    symmetry. apply (Z.div_unique_pos _ _ _ (b - rm)); lia.
Qed.

Lemma of_int_exact_ok (z : Z) :
  0 ≤ z < 2 ^ 53 → of_int z = Ok (of_int_exact z).
Proof.
  intros Hz. unfold of_int, of_ratio, round_ratio, of_int_exact.
  pose proof unit_pos.
  destruct (Z.ltb_spec (z * unit) 0); [nia|].
  replace (round_pos (z * unit) 1) with (round_pos (z * unit * 1) 1)
    by (by rewrite Z.mul_1_r).
  rewrite (round_pos_exact (z * unit) 1 1074); [done|lia|nia|lia| | |].
  - exists z. done.
  - rewrite Z.pow_add_r by lia. fold unit. nia.
  - assert (2 ^ 53 * unit < overflow_units) by (by vm_compute). nia.
Qed.

(** [batch_size * epsilon] for a batch size below [2^53] and a validated
    exploration fraction: a finite, non-negative double *)
Lemma int_mul_fraction (z : Z) (eps : t) :
  0 ≤ z < 2 ^ 53 → leb zero eps = true → leb eps one = true →
  ∃ e p, eps = Fin e ∧ 0 ≤ e ≤ unit
    ∧ int_mul z eps = Ok (Fin p) ∧ 0 ≤ p
    ∧ round_pos (z * e * unit) unit = Fin p.
Proof.
  intros Hz H0 H1. pose proof unit_pos as Hu.
  destruct eps as [| |e|]; try done.
  assert (0 ≤ e ≤ unit) as He.
  { change ((0 <? e) || (0 =? e) = true) in H0.
    change ((e <? unit) || (e =? unit) = true) in H1.
    apply orb_true_iff in H0, H1.
    rewrite Z.ltb_lt, Z.eqb_eq in H0, H1. lia. }
  unfold int_mul. rewrite of_int_exact_ok by done. simpl.
  unfold of_int_exact, mul, round_ratio.
  assert (0 ≤ z * unit * e) by nia.
  destruct (Z.ltb_spec (z * unit * e) 0); [lia|].
  replace (z * unit * e) with (z * e * unit) by lia.
  destruct (round_pos_nonneg (z * e * unit) unit) as (p & Hp & Hp0); [lia|done| |].
  { rewrite Z.div_mul by lia.
    assert (2 ^ 53 * unit < 2 ^ 2097) by (by vm_compute). nia. }
  exists e, p. by rewrite Hp.
Qed.

Lemma int_mul_zero (z : Z) : 0 ≤ z < 2 ^ 53 → int_mul z zero = Ok zero.
Proof.
  intros Hz. unfold int_mul. rewrite of_int_exact_ok by done. simpl.
  unfold of_int_exact, zero, mul. by rewrite Z.mul_0_r.
Qed.

Lemma int_mul_one (z : Z) : 0 ≤ z < 2 ^ 53 → int_mul z one = Ok (of_int_exact z).
Proof.
  intros Hz. unfold int_mul. rewrite of_int_exact_ok by done. simpl.
  unfold of_int_exact, one, mul, round_ratio. pose proof unit_pos.
  destruct (Z.ltb_spec (z * unit * unit) 0); [nia|].
  rewrite (round_pos_exact (z * unit) unit 1074); [done|lia|nia|lia| | |].
  - exists z. done.
  - rewrite Z.pow_add_r by lia. fold unit. nia.
  - assert (2 ^ 53 * unit < overflow_units) by (by vm_compute). nia.
Qed.

Lemma to_int_exact (z : Z) : to_int (of_int_exact z) = Ok z.
Proof.
  unfold to_int, of_int_exact. pose proof unit_pos.
  f_equal. apply Z.quot_mul. lia.
Qed.

End Float64Facts.

(** ** The epsilon-greedy override *)

(** The sample space of a draw without replacement: exactly the
    duplicate-free index lists of the requested length. *)
Lemma draws_spec (m : nat) : ∀ (pool : list nat) (d : list nat),
  d ∈ draws m pool ↔ length d = m ∧ NoDup d ∧ ∀ i, i ∈ d → i ∈ pool.
Proof.
  induction m as [|m IH]; intros pool d; simpl.
  { rewrite list_elem_of_singleton. split.
    - intros ->. split_and!; [done|constructor|]. by intros i ?%not_elem_of_nil.
    - intros (Hlen & _). by destruct d. }
  rewrite list_elem_of_bind. split.
  - intros (i & Hd & Hi). apply list_elem_of_fmap in Hd as (d' & -> & Hd').
    apply IH in Hd' as (Hlen & Hnd & Hsub). split_and!.
    + simpl. by rewrite Hlen.
    + constructor; [|done]. intros Hin%Hsub.
      apply list_elem_of_filter in Hin as [Hne _]. done.
    + intros j [->|Hj]%elem_of_cons; [done|].
      apply Hsub, list_elem_of_filter in Hj as [_ Hj]. done.
  - intros (Hlen & Hnd & Hsub). destruct d as [|i d]; [done|].
    apply NoDup_cons in Hnd as [Hi Hnd].
    exists i. split; [|apply Hsub; left].
    apply list_elem_of_fmap. exists d. split; [done|].
    apply IH. split_and!; [simpl in Hlen; lia|done|].
    intros j Hj. apply list_elem_of_filter. split.
    + intros ->. done.
    + apply Hsub. by right.
Qed.

(** ... and each of them is listed once. *)
Lemma draws_NoDup (m : nat) : ∀ (pool : list nat),
  NoDup pool → NoDup (draws m pool).
Proof.
  induction m as [|m IH]; intros pool Hnd; simpl.
  { apply NoDup_singleton. }
  apply NoDup_bind; [| |done].
  - intros i1 i2 d _ _ (d1 & -> & _)%list_elem_of_fmap
      (d2 & Heq & _)%list_elem_of_fmap. by simplify_eq.
  - intros i _. apply NoDup_fmap_2; [|by apply IH, NoDup_filter].
    by intros d1 d2 [=].
Qed.

Lemma np_put_length {A} (idxs : list nat) : ∀ (a : list A) (v : A),
  length (np_put a idxs v) = length a.
Proof.
  unfold np_put. induction idxs as [|j idxs IH]; intros a v; simpl; [done|].
  by rewrite IH, length_insert.
Qed.

Lemma np_put_lookup {A} (idxs : list nat) : ∀ (a : list A) (v : A) (i : nat),
  (i < length a)%nat →
  np_put a idxs v !! i = if decide (i ∈ idxs) then Some v else a !! i.
Proof.
  unfold np_put. induction idxs as [|j idxs IH]; intros a v i Hi.
  { destruct (decide (i ∈ [])) as [Hin|]; [|done]. by apply not_elem_of_nil in Hin. }
  cbn [foldl]. rewrite IH by (by rewrite length_insert).
  destruct (decide (i ∈ idxs)) as [Hin|Hnin];
    destruct (decide (i ∈ j :: idxs)) as [Hin'|Hnin']; try done.
  - exfalso. apply Hnin'. by right.
  - apply elem_of_cons in Hin' as [->|?]; [|done].
    by apply list_lookup_insert_eq.
  - apply list_lookup_insert_ne. intros ->. apply Hnin'. by left.
Qed.

Section EpsilonFacts.

Lemma np_random_choice_spec (n : nat) (m : Z) :
  0 ≤ m ≤ Z.of_nat n →
  ∃ idxss, np_random_choice n m = Ok idxss
    ∧ NoDup idxss
    ∧ ∀ idxs, idxs ∈ idxss ↔
        NoDup idxs ∧ Z.of_nat (length idxs) = m ∧ ∀ i, i ∈ idxs → (i < n)%nat.
Proof.
  intros Hm. unfold np_random_choice.
  destruct (Z.ltb_spec m 0); [lia|].
  destruct (Z.ltb_spec (Z.of_nat n) m); [lia|].
  eexists. split; [done|]. split.
  - apply draws_NoDup, NoDup_seq.
  - intros idxs. rewrite draws_spec.
    setoid_rewrite elem_of_seq. split.
    + intros (Hlen & Hnd & Hsub). split_and!; [done|lia|].
      intros i Hi. apply Hsub in Hi. lia.
    + intros (Hnd & Hlen & Hsub). split_and!; [lia|done|].
      intros i Hi. apply Hsub in Hi. lia.
Qed.

(** C2, amended. With a validated exploration fraction and a batch size
    below [2^53], [int(batch_size * epsilon)] is the floor [m] of the double
    product.  In every call in which [m] does not exceed the number of
    scored items, the override draws one of the duplicate-free lists of [m]
    indices of the scored set, each such list being one outcome of the
    uniform draw and listed exactly once, sets the utility at exactly those
    indices to positive infinity and leaves every other utility as it was.
    For [epsilon = 0.0] no utility is overridden; for [epsilon = 1.0] the
    number of forced indices is the batch size. *)
Theorem epsilon_override_forces (self : Acquirer) (batch_size : Z)
    (U : list float64) :
  0 ≤ batch_size < 2 ^ 53 →
  Float64.leb Float64.zero (epsilon self) = true →
  Float64.leb (epsilon self) Float64.one = true →
  ∃ p m,
    Float64.int_mul batch_size (epsilon self) = Ok (Float64.Fin p)
    ∧ m = p `div` Float64.unit
    ∧ forced_count self batch_size = Ok m
    ∧ (m ≤ Z.of_nat (length U) →
       ∃ idxss,
         np_random_choice (length U) m = Ok idxss
         ∧ epsilon_override self batch_size U
           = Ok ((λ idxs, np_put U idxs Float64.PosInf) <$> idxss)
         ∧ NoDup idxss
         ∧ (∀ idxs, idxs ∈ idxss ↔
              NoDup idxs ∧ Z.of_nat (length idxs) = m
              ∧ ∀ i, i ∈ idxs → (i < length U)%nat)
         ∧ ∀ idxs, idxs ∈ idxss →
             length (np_put U idxs Float64.PosInf) = length U
             ∧ ∀ i, (i < length U)%nat →
                 np_put U idxs Float64.PosInf !! i
                 = if decide (i ∈ idxs) then Some Float64.PosInf else U !! i)
    ∧ (epsilon self = Float64.zero →
       m = 0 ∧ epsilon_override self batch_size U = Ok [U])
    ∧ (epsilon self = Float64.one → m = batch_size).
Proof.
  intros Hbs H0 H1. pose proof Float64Facts.unit_pos as Hu.
  destruct (Float64Facts.int_mul_fraction batch_size (epsilon self) Hbs H0 H1)
    as (e & p & Heps & He & Hmul & Hp & Hround).
  exists p, (p `div` Float64.unit).
  assert (forced_count self batch_size = Ok (p `div` Float64.unit)) as Hfc.
  { unfold forced_count. rewrite Hmul. simpl.
    by rewrite Z.quot_div_nonneg by lia. }
  assert (0 ≤ p `div` Float64.unit) as Hm0 by (apply Z.div_pos; lia).
  split_and!; [done..| | |].
  - intros Hm.
    destruct (np_random_choice_spec (length U) (p `div` Float64.unit))
      as (idxss & Hch & Hnd & Hspec); [lia|].
    exists idxss. split_and!; [done| |done|done|].
    + unfold epsilon_override. rewrite Hfc. simpl. by rewrite Hch.
    + intros idxs _. split; [apply np_put_length|].
      intros i Hi. by apply np_put_lookup.
  - intros Hz. rewrite Hz in Hmul.
    rewrite Float64Facts.int_mul_zero in Hmul by done.
    injection Hmul as <-. split; [done|].
    unfold epsilon_override. rewrite Hfc, Z.div_0_l by lia.
    cbn [mbind result_mbind result_bind]. unfold np_random_choice.
    destruct (Z.ltb_spec 0 0); [lia|].
    destruct (Z.ltb_spec (Z.of_nat (length U)) 0); [lia|]. done.
  - intros Hone. rewrite Hone in Hmul.
    rewrite Float64Facts.int_mul_one in Hmul by done.
    injection Hmul as <-. apply Z.div_mul. lia.
Qed.

End EpsilonFacts.

(** ** Ordered dictionaries *)

Lemma dict_set_fmap {V} (d : list (Z * V)) (k : Z) (v v0 : V) :
  NoDup d.*1 → dict_get d k = Ok v0 →
  dict_set d k v = (λ kv, if decide (kv.1 = k) then (k, v) else kv) <$> d.
Proof.
  induction d as [|[k' v'] d IH]; intros Hnd Hget; [done|].
  apply NoDup_cons in Hnd as [Hk' Hnd]. cbn [dict_get dict_set] in *. csimpl.
  destruct (decide (k' = k)) as [->|Hne].
  - f_equal. symmetry. etrans; [|apply list_fmap_id].
    apply list_fmap_ext. intros i [k2 v2] Hi.
    destruct (decide ((k2, v2).1 = k)) as [Heq|]; [|done]. simpl in Heq. subst.
    exfalso. apply Hk'. apply list_elem_of_fmap. exists (k, v2).
    split; [done|]. by eapply list_elem_of_lookup_2.
  - f_equal. by apply IH.
Qed.

Lemma dict_get_elem {V} (d : list (Z * V)) (k : Z) (v : V) :
  dict_get d k = Ok v → (k, v) ∈ d.
Proof.
  induction d as [|[k' v'] d IH]; intros Hget; [done|]. cbn [dict_get] in Hget.
  destruct (decide (k' = k)) as [->|Hne]; [simplify_eq; left|right; auto].
Qed.

Lemma dict_get_is_Ok {V} (d : list (Z * V)) (k : Z) :
  k ∈ d.*1 → ∃ v, dict_get d k = Ok v.
Proof.
  induction d as [|[k' v'] d IH]; intros Hin; [by apply not_elem_of_nil in Hin|].
  cbn [dict_get]. destruct (decide (k' = k)) as [->|Hne]; [by eexists|].
  apply IH. csimpl in Hin. apply elem_of_cons in Hin as [?|?]; [congruence|done].
Qed.

Lemma dict_get_unique {V} (d : list (Z * V)) (k : Z) (v : V) :
  NoDup d.*1 → (k, v) ∈ d → dict_get d k = Ok v.
Proof.
  induction d as [|[k' v'] d IH]; intros Hnd Hin; [by apply not_elem_of_nil in Hin|].
  apply NoDup_cons in Hnd as [Hk' Hnd]. cbn [dict_get].
  apply elem_of_cons in Hin as [Heq|Hin].
  - simplify_eq. by rewrite decide_True.
  - rewrite decide_False; [by apply IH|].
    intros ->. apply Hk'. apply list_elem_of_fmap. by exists (k, v).
Qed.

Lemma dict_set_keys {V} (d : list (Z * V)) (k : Z) (v v0 : V) :
  dict_get d k = Ok v0 → (dict_set d k v).*1 = d.*1.
Proof.
  induction d as [|[k' v'] d IH]; intros Hget; [done|].
  cbn [dict_get dict_set] in *.
  destruct (decide (k' = k)) as [->|Hne]; csimpl; [done|]. f_equal. by apply IH.
Qed.

Lemma foldl_raise {A B} (f : A → B → result A) (l : list B) (e : exn) :
  foldl (λ acc b, a ← acc; f a b) (Raise e) l = Raise e.
Proof. induction l; [done|]. done. Qed.

(** ** Initial acquisition *)

Section InitialFacts.
Context `{Countable T} (item_lt : T → T → bool).

Abbreviation entry := (float64 * T)%type.

Lemma initial_fold_spec (triples : list (T * (float64 * Z))) :
  ∀ d d', NoDup d.*1 →
    foldl (λ acc t, d ← acc; initial_step item_lt d t) (Ok d) triples = Ok d' →
    d' = settle item_lt triples <$> d.
Proof.
  induction triples as [|[x [u cid]] triples IH]; intros d d' Hnd Hfold.
  { simpl in Hfold. simplify_eq. symmetry. etrans; [|apply list_fmap_id].
    apply list_fmap_ext. by intros i [k [h c]] _. }
  cbn [foldl] in Hfold.
  change (Ok d ≫= λ d, initial_step item_lt d (x, (u, cid)))
    with (initial_step item_lt d (x, (u, cid))) in Hfold.
  unfold initial_step in Hfold.
  destruct (dict_get d cid) as [[h cap]| |] eqn:Hget; simpl in Hfold;
    [|by rewrite foldl_raise in Hfold|].
  2: { exfalso. clear -Hfold. induction triples; done. }
  apply IH in Hfold.
  2: { by rewrite (dict_set_keys _ _ _ _ Hget). }
  rewrite Hfold, (dict_set_fmap _ _ _ _ Hnd Hget), <- list_fmap_compose.
  apply list_fmap_ext. intros i [k [h' c']] Hi. simpl.
  unfold settle, cluster_entries. simpl.
  destruct (decide (k = cid)) as [->|Hne]; simpl.
  - assert (dict_get d cid = Ok (h', c')) as Hget'
      by (apply dict_get_unique; [done|by eapply list_elem_of_lookup_2]).
    rewrite Hget in Hget'. simplify_eq.
    rewrite filter_cons_True by done. done.
  - rewrite filter_cons_False; [done|]. simpl. congruence.
Qed.

Lemma initial_heaps_spec (self : Acquirer) (sizes : list (Z * Z)) (n : Z)
    (d : list (Z * (list entry * Z))) :
  initial_heaps self sizes n = Ok d →
  ∃ caps, Forall2 (λ cs cap, initial_capacity self cs.2 n = Ok cap) sizes caps
    ∧ d = zip_with (λ cs cap, (cs.1, ([], cap))) sizes caps.
Proof.
  revert d. induction sizes as [|[cid cs] sizes IH]; intros d Hd.
  { simpl in Hd. simplify_eq. exists []. by split. }
  cbn [initial_heaps] in Hd.
  destruct (initial_capacity self cs n) as [cap| |] eqn:Hcap; [|done..].
  simpl in Hd.
  destruct (initial_heaps self sizes n) as [d0| |]; [|done..].
  simpl in Hd. simplify_eq.
  destruct (IH d0 eq_refl) as (caps & Hcaps & ->).
  exists (cap :: caps). split; [by constructor|done].
Qed.

End InitialFacts.

Section InitialCount.
Context `{Countable T} (item_lt : T → T → bool).

Lemma filed_count (cid : Z) (ids : list Z) : ∀ (xs : list T) (U : list float64),
  length U = length ids → length xs = length ids →
  length (cluster_entries cid (zip xs (zip U ids)))
  = length (filter (λ c, c = cid) ids).
Proof.
  unfold cluster_entries.
  induction ids as [|c ids IH]; intros [|x xs] [|u U] HU Hxs; simplify_eq/=;
    [done|].
  rewrite length_fmap, !filter_cons. simpl.
  specialize (IH xs U HU Hxs). rewrite length_fmap in IH.
  destruct (decide (c = cid)); simpl; by rewrite IH.
Qed.

Lemma settled_length (triples : list (T * (float64 * Z))) (sizes : list (Z * Z)) :
  ∀ caps : list Z, Forall (λ cap, 0 ≤ cap) caps →
    Z.of_nat (length (concat
      ((settle item_lt triples <$>
          zip_with (λ cs cap, (cs.1, ([], cap))) sizes caps).*2).*1))
    = Z_sum (zip_with
        (λ cs cap, Z.min (Z.of_nat (length (cluster_entries cs.1 triples))) cap)
        sizes caps).
Proof.
  induction sizes as [|[cid cs] sizes IH]; intros [|cap caps] Hcaps; try done.
  apply Forall_cons in Hcaps as [Hcap Hcaps].
  csimpl. rewrite length_app, Nat2Z.inj_add, (IH caps Hcaps). f_equal.
  destruct (bounded_fold_spec item_lt cap (cluster_entries cid triples) [])
    as [_ Hlen].
  rewrite Hlen. simpl. case_ltb; lia.
Qed.

End InitialCount.

(** The capacities of the per-cluster heaps are non-negative, and within
    53 bits they are the exact ceilings. *)
Lemma initial_capacities_spec (self : Acquirer) (n : Z) (sizes : list (Z * Z))
    (caps : list Z) :
  0 ≤ n → 0 ≤ init_size self → Forall (λ cs, 0 ≤ cs.2) sizes →
  Forall2 (λ cs cap, initial_capacity self cs.2 n = Ok cap) sizes caps →
  Forall2 (λ cs cap,
             initial_capacity self cs.2 n = Ok cap
             ∧ (init_size self * cs.2 < 2 ^ 53 → n < 2 ^ 53 →
                cap = ceil_div (init_size self * cs.2) n))
          sizes caps
  ∧ Forall (λ cap, 0 ≤ cap) caps.
Proof.
  intros Hn Hinit Hsizes Hcaps.
  induction Hcaps as [|[c s] cap sizes caps Hcap _ IH]; [by split; constructor|].
  apply Forall_cons in Hsizes as [Hs Hsizes]. simpl in Hs, Hcap.
  destruct (IH Hsizes) as [IH1 IH2].
  assert (0 ≤ cap ∧ (init_size self * s < 2 ^ 53 → n < 2 ^ 53 →
                     cap = ceil_div (init_size self * s) n)) as [Hc0 Hce].
  { unfold initial_capacity in Hcap.
    destruct (Float64.int_truediv (init_size self * s) n) as [q| |] eqn:Hq;
      [|done..].
    cbn [mbind result_mbind result_bind] in Hcap. split.
    - eapply Float64Facts.ceil_truediv_nonneg; [| |exact Hq|exact Hcap]; lia.
    - intros Hsmall Hnsmall.
      assert (n ≠ 0) as Hn0.
      { intros ->. unfold Float64.int_truediv in Hq. done. }
      destruct (Float64Facts.ceil_truediv_exact (init_size self * s) n)
        as (q' & Hq' & Hceil); [nia|lia|].
      rewrite Hq in Hq'. simplify_eq. by rewrite Hcap in Hceil; simplify_eq. }
  split; constructor; done.
Qed.

(** C10. In the clustered path of [acquire_initial], with the cluster ids
    and utilities aligned to the pool, the number of items returned is the
    sum over the cluster ids of [min(number of pool items with that id,
    ceil(init_size * cluster_size / pool_size))], the capacity being the
    exact integer ceiling as long as the operands stay below [2^53]; since
    every capacity is rounded up on its own the total can exceed
    [init_size]: a pool of four items in clusters of sizes 1 and 3 with
    [init_size = 2] yields three. *)
Theorem acquire_initial_clustered_count :
  (∀ `{Countable T} (item_lt : T → T → bool) (self : Acquirer) (xs : list T)
     (U : list float64) (ids : list Z) (sizes : list (Z * Z)) (items : list T),
     NoDup sizes.*1 → length U = length ids → length xs = length ids →
     0 ≤ init_size self → Forall (λ cs, 0 ≤ cs.2) sizes →
     acquire_initial item_lt self xs U (Some ids) (Some sizes) = Ok items →
     ∃ caps,
       Forall2 (λ cs cap,
                  initial_capacity self cs.2 (Z.of_nat (length U)) = Ok cap
                  ∧ (init_size self * cs.2 < 2 ^ 53 →
                     Z.of_nat (length U) < 2 ^ 53 →
                     cap = ceil_div (init_size self * cs.2)
                             (Z.of_nat (length U))))
               sizes caps
       ∧ Z.of_nat (length items)
         = Z_sum (zip_with
             (λ cs cap,
                Z.min (Z.of_nat (length (filter (λ c, c = cs.1) ids))) cap)
             sizes caps))
  ∧ (∃ (self : Acquirer) (xs : list Z) (U : list float64) (ids : list Z)
       (sizes : list (Z * Z)) (items : list Z),
       NoDup xs ∧ NoDup sizes.*1
       ∧ length U = length ids ∧ length xs = length ids
       ∧ size self = Z.of_nat (length xs)
       ∧ acquire_initial Z.ltb self xs U (Some ids) (Some sizes) = Ok items
       ∧ init_size self < Z.of_nat (length items)).
Proof.
  split.
  - intros T ?? item_lt self xs U ids sizes items Hnd HU Hxs Hinit Hsizes Hrun.
    unfold acquire_initial in Hrun.
    destruct (initial_heaps self sizes (Z.of_nat (length U))) as [d0| |] eqn:Hd0;
      [|done..].
    apply initial_heaps_spec in Hd0 as (caps & Hcaps & ->).
    cbn [mbind result_mbind result_bind] in Hrun.
    match type of Hrun with
    | context [foldl ?f (Ok ?d) ?l] =>
      destruct (foldl f (Ok d) l) as [d'| |] eqn:Hfold; [|done..]
    end.
    cbn [mbind result_mbind result_bind] in Hrun. simplify_eq.
    apply initial_fold_spec in Hfold.
    2: { assert (length sizes = length caps) as Hlen
           by (by eapply Forall2_length).
         clear -Hnd Hlen. revert caps Hlen.
         induction sizes as [|[c s] sizes IH]; intros [|cap caps] Hlen;
           simplify_eq/=; [constructor|].
         apply NoDup_cons in Hnd as [Hc Hnd]. constructor; [|by apply IH].
         intros Hin. apply Hc. clear -Hin.
         apply list_elem_of_fmap in Hin as ([c' hc] & -> & Hin).
         apply elem_of_lookup_zip_with in Hin as (i & [c2 s2] & cap2 & ? & Hs & _).
         simplify_eq/=. apply list_elem_of_fmap. exists (c2, s2).
         split; [done|]. by eapply list_elem_of_lookup_2. }
    destruct (initial_capacities_spec self (Z.of_nat (length U)) sizes caps)
      as [Hexact Hnonneg]; [lia|done..|].
    exists caps. split; [done|].
    rewrite Hfold, length_fmap, settled_length by done.
    f_equal. apply zip_with_ext; [|done..]. intros [c s] cap. simpl.
    by rewrite filed_count.
  - exists {| size := 4; init_size := 2; batch_sizes := [2]; dim := 1;
              epsilon := Float64.zero; temp_i := None; temp_f := None;
              cluster_type := None; cluster_superset := None |},
      [10; 20; 30; 40],
      (Float64.of_int_exact <$> [4; 3; 2; 1]),
      [0; 1; 1; 1], [(0, 1); (1, 3)], [10; 30; 20].
    split_and!; [compute_done|compute_done|done|done|done|by vm_compute|done].
Qed.

(** ** [sorted(..., reverse=True)] *)

Section SortedFacts.
Context {A : Type} (key : A → Z).

Lemma insert_by_rev_perm (a : A) (l : list A) : insert_by_rev key a l ≡ₚ a :: l.
Proof.
  induction l as [|b l IH]; [done|]. simpl. case_match; [|done].
  rewrite IH. apply perm_swap.
Qed.

Lemma sorted_by_rev_perm (l : list A) : sorted_by_rev key l ≡ₚ l.
Proof.
  unfold sorted_by_rev.
  assert (∀ acc, foldl (λ acc a, insert_by_rev key a acc) acc l ≡ₚ l ++ acc)
    as Hgen.
  { induction l as [|a l IH]; intros acc; [done|]. simpl.
    rewrite IH, insert_by_rev_perm. by rewrite Permutation_middle. }
  by rewrite Hgen, app_nil_r.
Qed.

Lemma insert_by_rev_sorted (a : A) (l : list A) :
  StronglySorted (λ x y, key y ≤ key x) l →
  StronglySorted (λ x y, key y ≤ key x) (insert_by_rev key a l).
Proof.
  induction 1 as [|b l Hs IH Hall]; simpl.
  { repeat constructor. }
  destruct (Z.leb_spec (key a) (key b)) as [Hle|Hgt].
  - constructor; [done|].
    rewrite insert_by_rev_perm. by constructor.
  - constructor; [by constructor|].
    constructor; [lia|]. eapply Forall_impl; [exact Hall|].
    intros c Hc. simpl in Hc. lia.
Qed.

Lemma sorted_by_rev_sorted (l : list A) :
  StronglySorted (λ x y, key y ≤ key x) (sorted_by_rev key l).
Proof.
  unfold sorted_by_rev.
  assert (∀ acc, StronglySorted (λ x y, key y ≤ key x) acc →
            StronglySorted (λ x y, key y ≤ key x)
              (foldl (λ acc a, insert_by_rev key a acc) acc l)) as Hgen.
  { induction l as [|a l IH]; intros acc Hacc; [done|]. simpl.
    by apply IH, insert_by_rev_sorted. }
  apply Hgen. constructor.
Qed.

End SortedFacts.

(** ** Round-robin extraction *)

Lemma dict_get_set_ne {V} (d : list (Z * V)) (k k' : Z) (v : V) :
  k ≠ k' → dict_get (dict_set d k v) k' = dict_get d k'.
Proof.
  intros Hne. induction d as [|[k0 v0] d IH]; cbn [dict_get dict_set].
  { by rewrite decide_False. }
  destruct (decide (k0 = k)) as [->|Hk0]; cbn [dict_get].
  - by rewrite !decide_False.
  - destruct (decide (k0 = k')); [done|apply IH].
Qed.

Lemma population_dict_set {E} (c : list (Z * list E)) (k : Z) (v v0 : list E) :
  dict_get c k = Ok v0 →
  (population (dict_set c k v) + length v0 = population c + length v)%nat.
Proof.
  unfold population. induction c as [|[k' v'] c IH]; intros Hget; [done|].
  cbn [dict_get dict_set] in *.
  destruct (decide (k' = k)) as [->|Hne]; csimpl.
  - simplify_eq. lia.
  - specialize (IH Hget). lia.
Qed.

Lemma population_empty {E} (l : list Z) :
  population ((λ cid : Z, (cid, @nil E)) <$> l) = 0%nat.
Proof. unfold population. induction l as [|cid l IH]; [done|]. by csimpl. Qed.

Lemma population_pos_nonempty {E} (c : list (Z * list E)) :
  (0 < population c)%nat → ∃ cid top tl, (cid, top :: tl) ∈ c.
Proof.
  unfold population. induction c as [|[k [|top tl]] c IH]; csimpl; intros Hpos.
  - lia.
  - destruct (IH Hpos) as (cid & top & tl & Hin). exists cid, top, tl. by right.
  - exists k, top, tl. by left.
Qed.

(** assigning to a key replaces its value and nothing else *)
Lemma dict_set_concat {E} (c : list (Z * list E)) (k : Z) (v0 : list E) :
  dict_get c k = Ok v0 →
  ∃ X, concat c.*2 ≡ₚ v0 ++ X ∧ ∀ v, concat (dict_set c k v).*2 ≡ₚ v ++ X.
Proof.
  induction c as [|[k' v'] c IH]; intros Hget; [done|].
  cbn [dict_get dict_set] in *.
  destruct (decide (k' = k)) as [->|Hne].
  - simplify_eq. exists (concat c.*2). split; [done|]. by intros v.
  - destruct (IH Hget) as (X & HX & Hset). exists (v' ++ X). split.
    + csimpl. rewrite HX. by rewrite !app_assoc, (Permutation_app_comm v' v0).
    + intros v. csimpl. rewrite Hset.
      by rewrite !app_assoc, (Permutation_app_comm v' v).
Qed.

Section RoundRobin.
Context `{Countable T} (item_lt : T → T → bool).

Abbreviation entry := (float64 * T)%type.
Abbreviation rr := (round_robin item_lt).

Implicit Types (c : list (Z * list entry)) (o r : list Z) (h : list entry).

Lemma rr_full fuel c o r h bs :
  bs ≤ Z.of_nat (length h) → rr fuel c o r h bs = Ok h.
Proof.
  intros Hfull. destruct fuel; cbn [round_robin];
    destruct (Z.ltb_spec (Z.of_nat (length h)) bs); (lia || done).
Qed.

Lemma rr_restart fuel c o h bs : rr fuel c o [] h bs = rr fuel c o o h bs.
Proof. destruct fuel; cbn [round_robin]; [done|]. by destruct o. Qed.

Lemma rr_prefix o bs fuel : ∀ c r h h',
  rr fuel c o r h bs = Ok h' → h `prefix_of` h'.
Proof.
  induction fuel as [|fuel IH]; intros c r h h'; cbn [round_robin];
    destruct (Z.ltb_spec (Z.of_nat (length h)) bs); try done;
    try (by intros [= ->]).
  destruct (cycle_next o r) as [[cid r']| |]; [|done..]. simpl.
  destruct (dict_get c cid) as [cl| |]; [|done..]. simpl.
  destruct (0 <? length cl)%nat.
  - destruct (heappop (entry_lt item_lt) cl) as [[top cl']| |]; [|done..].
    simpl. intros Hrun%IH. etrans; [|exact Hrun]. by apply prefix_app_r.
  - apply IH.
Qed.

Lemma rr_skip fuel c o cid r h bs :
  Z.of_nat (length h) < bs → dict_get c cid = Ok [] →
  rr (S fuel) c o (cid :: r) h bs = rr fuel c o r h bs.
Proof.
  intros Hlt Hget. cbn [round_robin].
  destruct (Z.ltb_spec (Z.of_nat (length h)) bs); [|lia].
  simpl. by rewrite Hget.
Qed.

Lemma rr_pop c o cid r h bs top tl :
  Z.of_nat (length h) < bs → dict_get c cid = Ok (top :: tl) →
  ∃ tl', tl' ≡ₚ tl ∧ ∀ fuel,
    rr (S fuel) c o (cid :: r) h bs
    = rr fuel (dict_set c cid tl') o r (h ++ [(Float64.neg top.1, top.2)]) bs.
Proof.
  intros Hlt Hget.
  destruct (heappop_cons (entry_lt item_lt) top tl) as (tl' & Hpop & Hperm).
  exists tl'. split; [done|]. intros fuel. cbn [round_robin].
  destruct (Z.ltb_spec (Z.of_nat (length h)) bs); [|lia].
  simpl. rewrite Hget. simpl. by rewrite Hpop.
Qed.

Lemma first_yields_set_ne c r cid (v : list entry) :
  cid ∉ r → first_yields (dict_set c cid v) r = first_yields c r.
Proof.
  intros Hnin. unfold first_yields. apply list_omap_ext, Forall2_same_length_lookup.
  split; [done|]. intros i k k' Hk Hk'. simplify_eq.
  rewrite dict_get_set_ne; [done|]. intros ->. apply Hnin.
  by eapply list_elem_of_lookup_2.
Qed.

(** One pass over what is left of the current cycle: every non-empty
    cluster hands out the root of its heap, in order, until the batch is
    full. *)
Lemma rr_pass o bs : ∀ r c h,
  NoDup r → (∀ cid, cid ∈ r → cid ∈ c.*1) →
  let taken := take (Z.to_nat (bs - Z.of_nat (length h))) (first_yields c r) in
  ∃ c', c'.*1 = c.*1
    ∧ (population c' + length taken = population c)%nat
    ∧ ∀ fuel, rr (length r + fuel) c o r h bs = rr fuel c' o [] (h ++ taken) bs.
Proof.
  induction r as [|cid r IH]; intros c h Hnd Hkeys taken.
  { exists c. subst taken. unfold first_yields. simpl. rewrite take_nil.
    split_and!; [done|simpl; lia|]. intros fuel. by rewrite app_nil_r. }
  apply NoDup_cons in Hnd as [Hcid Hnd].
  destruct (Z.lt_ge_cases (Z.of_nat (length h)) bs) as [Hlt|Hfull].
  2: { exists c. subst taken.
       replace (Z.to_nat (bs - Z.of_nat (length h))) with 0%nat by lia.
       rewrite take_0. split_and!; [done|simpl; lia|].
       intros fuel. rewrite app_nil_r. by rewrite !rr_full by lia. }
  destruct (dict_get_is_Ok c cid) as [cl Hget]; [apply Hkeys; by left|].
  destruct cl as [|top tl].
  - destruct (IH c h Hnd) as (c' & Hk & Hpop & Hrun).
    { intros k Hk. apply Hkeys. by right. }
    exists c'. subst taken. unfold first_yields in *. cbn [omap list_omap].
    rewrite Hget. split_and!; [done..|].
    intros fuel. cbn [length Nat.add]. rewrite rr_skip by done. apply Hrun.
  - destruct (rr_pop c o cid r h bs top tl Hlt Hget) as (tl' & Hperm & Hstep).
    destruct (IH (dict_set c cid tl') (h ++ [(Float64.neg top.1, top.2)]) Hnd)
      as (c' & Hk & Hpop & Hrun).
    { intros k Hk. rewrite (dict_set_keys _ _ _ _ Hget). apply Hkeys. by right. }
    rewrite first_yields_set_ne in Hpop, Hrun by done.
    rewrite length_app in Hpop, Hrun. cbn [length] in Hpop, Hrun.
    exists c'. subst taken. unfold first_yields in *. cbn [omap list_omap].
    rewrite Hget. cbn [option_bind mbind].
    replace (Z.to_nat (bs - Z.of_nat (length h)))
      with (S (Z.to_nat (bs - Z.of_nat (length h + 1)))) by lia.
    cbn [take length].
    pose proof (population_dict_set c cid tl' _ Hget) as Hps.
    pose proof (Permutation_length Hperm) as Hpl. cbn [length] in Hps.
    split_and!.
    + by rewrite Hk, (dict_set_keys _ _ _ _ Hget).
    + lia.
    + intros fuel. cbn [length Nat.add]. rewrite Hstep, Hrun.
      by rewrite <- app_assoc.
Qed.

(** the loop hands out entries of the clusters, each at most once *)
Lemma rr_submseteq o bs fuel : ∀ (c : list (Z * list entry)) r h h',
  rr fuel c o r h bs = Ok h' → h' ⊆+ h ++ (negated <$> concat c.*2).
Proof.
  induction fuel as [|fuel IH]; intros c r h h'; cbn [round_robin];
    destruct (Z.ltb_spec (Z.of_nat (length h)) bs); try done;
    try (intros [= ->]; by apply submseteq_inserts_r).
  destruct (cycle_next o r) as [[cid r']| |]; [|done..]. simpl.
  destruct (dict_get c cid) as [cl| |] eqn:Hget; [|done..]. simpl.
  destruct cl as [|top tl]; simpl.
  { apply IH. }
  destruct (heappop_cons (entry_lt item_lt) top tl) as (tl' & Hpop & Hperm).
  rewrite Hpop. simpl. intros Hrun%IH.
  etrans; [exact Hrun|]. apply Permutation_submseteq.
  destruct (dict_set_concat c cid _ Hget) as (X & HX & Hset).
  rewrite Hset, HX, Hperm, <- app_assoc. by csimpl.
Qed.

End RoundRobin.

Section RoundRobinTermination.
Context `{Countable T} (item_lt : T → T → bool).

Abbreviation entry := (float64 * T)%type.
Abbreviation rr := (round_robin item_lt).

Lemma first_yields_nonempty (c : list (Z * list entry)) (o : list Z) :
  NoDup c.*1 → (∀ cid, cid ∈ c.*1 → cid ∈ o) → (0 < population c)%nat →
  (0 < length (first_yields c o))%nat.
Proof.
  intros Hnd Hkeys Hpos.
  destruct (population_pos_nonempty c Hpos) as (cid & top & tl & Hin).
  assert (cid ∈ o) as Ho.
  { apply Hkeys, list_elem_of_fmap. by exists (cid, top :: tl). }
  assert ((Float64.neg top.1, top.2) ∈ first_yields c o) as Hy.
  { unfold first_yields. apply list_elem_of_omap. exists cid. split; [done|].
    by rewrite (dict_get_unique c cid (top :: tl) Hnd Hin). }
  destruct (first_yields c o); [by apply not_elem_of_nil in Hy|simpl; lia].
Qed.

Lemma rr_terminates (o : list Z) (bs : Z) : NoDup o →
  ∀ (n : nat) (c : list (Z * list entry)) (h : list entry),
    (Z.to_nat (bs - Z.of_nat (length h)) ≤ n)%nat →
    Z.of_nat (length h) ≤ bs →
    NoDup c.*1 → (∀ cid, cid ∈ o ↔ cid ∈ c.*1) →
    (Z.to_nat (bs - Z.of_nat (length h)) ≤ population c)%nat →
    ∃ N h', (∀ fuel, rr (N + fuel) c o [] h bs = Ok h')
      ∧ Z.of_nat (length h') = bs
      ∧ (h ++ take (Z.to_nat (bs - Z.of_nat (length h))) (first_yields c o))
          `prefix_of` h'.
Proof.
  intros Hndo. induction n as [|n IH]; intros c h Hn Hle Hndc Hkeys Hpop.
  { exists 0%nat, h. split_and!; [|lia|].
    - intros fuel. apply rr_full. lia.
    - replace (Z.to_nat (bs - Z.of_nat (length h))) with 0%nat by lia.
      by rewrite take_0, app_nil_r. }
  destruct (decide (Z.to_nat (bs - Z.of_nat (length h)) = 0%nat)) as [Hz|Hnz].
  { exists 0%nat, h. split_and!; [|lia|].
    - intros fuel. apply rr_full. lia.
    - by rewrite Hz, take_0, app_nil_r. }
  destruct (rr_pass item_lt o bs o c h Hndo) as (c' & Hk & Hpop' & Hrun).
  { intros cid. apply Hkeys. }
  set (taken := take (Z.to_nat (bs - Z.of_nat (length h))) (first_yields c o))
    in *.
  assert (0 < length taken ≤ Z.to_nat (bs - Z.of_nat (length h)))%nat as Htk.
  { pose proof (first_yields_nonempty c o Hndc) as Hy.
    unfold taken. rewrite length_take. split; [|lia].
    apply Nat.min_glb_lt; [lia|]. apply Hy; [|lia].
    intros cid. apply Hkeys. }
  destruct (IH c' (h ++ taken)) as (N & h' & Hfin & Hlen & Hpre).
  - rewrite length_app. lia.
  - rewrite length_app. lia.
  - by rewrite Hk.
  - intros cid. by rewrite Hk.
  - rewrite length_app. lia.
  - exists (length o + N)%nat, h'. split_and!; [|done|].
    + intros fuel. rewrite rr_restart, <- Nat.add_assoc, Hrun. apply Hfin.
    + etrans; [|exact Hpre]. by apply prefix_app_r.
Qed.

Lemma cluster_order_perm (clusters : list (Z * list entry)) :
  cluster_order clusters ≡ₚ clusters.*1.
Proof. unfold cluster_order. by rewrite sorted_by_rev_perm. Qed.

(** the loop as [clustered_batch] starts it: an empty batch, the cycle at
    the head of [cluster_order] *)
Lemma rr_from_start (clusters : list (Z * list entry)) (bs : Z) :
  NoDup clusters.*1 → 0 ≤ bs ≤ Z.of_nat (population clusters) →
  let order := cluster_order clusters in
  ∃ fuel0 heap,
    (∀ fuel, (fuel0 ≤ fuel)%nat →
       round_robin item_lt fuel clusters order order [] bs = Ok heap)
    ∧ Z.of_nat (length heap) = bs
    ∧ take (Z.to_nat bs) (first_yields clusters order) `prefix_of` heap.
Proof.
  intros Hnd Hbs order.
  pose proof (cluster_order_perm clusters) as Hop. fold order in Hop.
  destruct (rr_terminates order bs) with
    (n := Z.to_nat bs) (c := clusters) (h := @nil entry)
    as (N & heap & Hrun & Hlen & Hpre).
  - by rewrite Hop.
  - simpl. lia.
  - simpl. lia.
  - done.
  - intros cid. by rewrite Hop.
  - simpl. lia.
  - exists N, heap. split_and!; [|done|].
    + intros fuel Hfuel. rewrite <- rr_restart.
      replace fuel with (N + (fuel - N))%nat by lia. apply Hrun.
    + simpl in Hpre. by rewrite Z.sub_0_r in Hpre.
Qed.

(** C5. When the clusters hold at least [batch_size] items in total, the
    round-robin loop of [clustered_batch] terminates (any fuel from some
    bound on gives the same result) and returns exactly [batch_size]
    items, each of them an entry extracted from the clusters (with its
    utility negated back), none handed out more often than the clusters
    hold it.  The clusters are visited in the order of descending
    population, and the loop hands out one item from every non-empty
    cluster, in that order, before it visits any cluster a second time:
    the batch starts with the first [batch_size] of those items. *)
Theorem round_robin_terminates (clusters : list (Z * list entry))
    (batch_size : Z) :
  NoDup clusters.*1 →
  0 ≤ batch_size ≤ Z.of_nat (population clusters) →
  let sorted := sorted_by_rev (λ c : Z * list entry, Z.of_nat (length c.2))
                  clusters in
  let order := cluster_order clusters in
  order = sorted.*1
  ∧ sorted ≡ₚ clusters
  ∧ StronglySorted (λ a b, (length b.2 ≤ length a.2)%nat) sorted
  ∧ ∃ fuel0 heap,
      (∀ fuel, (fuel0 ≤ fuel)%nat →
         round_robin item_lt fuel clusters order order [] batch_size = Ok heap)
      ∧ Z.of_nat (length heap) = batch_size
      ∧ heap ⊆+ negated <$> concat clusters.*2
      ∧ take (Z.to_nat batch_size) (first_yields clusters order)
          `prefix_of` heap.
Proof.
  intros Hnd Hbs sorted order. split_and!.
  - done.
  - apply sorted_by_rev_perm.
  - eapply StronglySorted_mono; [|apply sorted_by_rev_sorted].
    intros a b Hab. simpl in Hab. lia.
  - destruct (rr_from_start clusters batch_size Hnd Hbs)
      as (fuel0 & heap & Hrun & Hlen & Hpre).
    exists fuel0, heap. split_and!; [done..| |done].
    by apply (rr_submseteq item_lt _ _ _ _ _ _ _ (Hrun fuel0 (le_n _))).
Qed.

End RoundRobinTermination.

(** ** Clustered and hybrid selection *)

Lemma foldl_diverge {A B} (f : A → B → result A) (l : list B) :
  foldl (λ acc b, a ← acc; f a b) Diverge l = Diverge.
Proof. induction l; [done|]. done. Qed.

Lemma foldl_result_cons {A B} (f : A → B → result A) (b : B) (l : list B)
    (a a' : A) :
  foldl (λ acc b, a ← acc; f a b) (Ok a) (b :: l) = Ok a' →
  ∃ a1, f a b = Ok a1 ∧ foldl (λ acc b, a ← acc; f a b) (Ok a1) l = Ok a'.
Proof.
  cbn [foldl]. change (Ok a ≫= λ a, f a b) with (f a b).
  destruct (f a b) as [a1| |]; [by eauto|by rewrite foldl_raise|
                                 by rewrite foldl_diverge].
Qed.

Lemma dict_set_Forall {V} (Q : Z * V → Prop) (d : list (Z * V)) (k : Z) (v : V) :
  Forall Q d → Q (k, v) → Forall Q (dict_set d k v).
Proof.
  intros Hd Hkv. induction Hd as [|[k' v'] d Hq Hd IH]; cbn [dict_set].
  { by constructor. }
  destruct (decide (k' = k)); by constructor.
Qed.

Section ClusteredFacts.
Context `{Countable T} (item_lt : T → T → bool).
Context {P F : Type}.
Context (feature_matrix : list T → F) (cluster_fps : @basis P F → Z → Z → list Z).

Abbreviation entry := (float64 * T)%type.
Abbreviation rr := (round_robin item_lt).

(** every entry of every cluster carries an item with property [Q] *)
Abbreviation items_in Q :=
  (Forall (λ kv : Z * list entry, Forall (λ e : entry, Q e.2) kv.2)).

Lemma rr_items (Q : T → Prop) o bs fuel : ∀ c r h h',
  rr fuel c o r h bs = Ok h' →
  Forall (λ e : entry, Q e.2) h → items_in Q c →
  Forall (λ e : entry, Q e.2) h'.
Proof.
  induction fuel as [|fuel IH]; intros c r h h'; cbn [round_robin];
    destruct (Z.ltb_spec (Z.of_nat (length h)) bs); try done;
    try (by intros [= ->]).
  destruct (cycle_next o r) as [[cid r']| |]; [|done..]. simpl.
  destruct (dict_get c cid) as [cl| |] eqn:Hget; [|done..]. simpl.
  intros Hrun Hh Hc.
  assert (Forall (λ e : entry, Q e.2) cl) as Hcl.
  { apply dict_get_elem in Hget. rewrite Forall_forall in Hc.
    by apply (Hc (cid, cl)). }
  destruct cl as [|top tl]; simpl in Hrun.
  { by eapply IH. }
  destruct (heappop_cons (entry_lt item_lt) top tl) as (tl' & Hpop & Hperm).
  rewrite Hpop in Hrun. simpl in Hrun.
  apply Forall_cons in Hcl as [Htop Htl].
  eapply IH; [exact Hrun| |].
  - apply Forall_app. split; [done|]. by repeat constructor.
  - apply dict_set_Forall; [done|]. simpl. by rewrite Hperm.
Qed.

Lemma rr_length o bs fuel : ∀ c r h h',
  rr fuel c o r h bs = Ok h' →
  Z.of_nat (length h) ≤ bs → Z.of_nat (length h') = bs.
Proof.
  induction fuel as [|fuel IH]; intros c r h h'; cbn [round_robin];
    destruct (Z.ltb_spec (Z.of_nat (length h)) bs); try done;
    try (intros [= ->]; lia).
  destruct (cycle_next o r) as [[cid r']| |]; [|done..]. simpl.
  destruct (dict_get c cid) as [cl| |] eqn:Hget; [|done..]. simpl.
  destruct (0 <? length cl)%nat.
  - destruct (heappop (entry_lt item_lt) cl) as [[top cl']| |]; [|done..].
    simpl. intros Hrun _. eapply IH; [exact Hrun|].
    rewrite length_app. simpl. lia.
  - intros Hrun _. eapply IH; [exact Hrun|lia].
Qed.

(** With fewer entries in the clusters than the batch still needs, the
    loop never returns a batch: it runs out of fuel or of clusters. *)
Lemma rr_starved o bs fuel : ∀ c r h h',
  Z.of_nat (length h + population c) < bs → rr fuel c o r h bs ≠ Ok h'.
Proof.
  induction fuel as [|fuel IH]; intros c r h h' Hlt; cbn [round_robin];
    destruct (Z.ltb_spec (Z.of_nat (length h)) bs); try done; try lia.
  destruct (cycle_next o r) as [[cid r']| |]; [|done..]. simpl.
  destruct (dict_get c cid) as [cl| |] eqn:Hget; [|done..]. simpl.
  destruct cl as [|top tl]; simpl.
  { by apply IH. }
  destruct (heappop_cons (entry_lt item_lt) top tl) as (tl' & Hpop & Hperm).
  rewrite Hpop. simpl. apply IH.
  pose proof (population_dict_set c cid tl' _ Hget) as Hps.
  pose proof (Permutation_length Hperm) as Hpl.
  rewrite length_app. simpl in *. lia.
Qed.

Lemma fill_clusters_items (Q : T → Prop) (cxu : list (Z * entry)) :
  ∀ c c', fill_clusters item_lt c cxu = Ok c' →
    items_in Q c → Forall (λ t : Z * entry, Q t.2.2) cxu → items_in Q c'.
Proof.
  unfold fill_clusters.
  induction cxu as [|[cid [u x]] cxu IH]; intros c c' Hfill Hc Hcxu.
  { simpl in Hfill. by simplify_eq. }
  apply foldl_result_cons in Hfill as (c1 & Hstep & Hfill).
  apply Forall_cons in Hcxu as [Hx Hcxu]. simpl in Hstep, Hx.
  destruct (dict_get c cid) as [cl| |] eqn:Hget; [|done..].
  simpl in Hstep. simplify_eq.
  eapply IH; [exact Hfill| |done].
  apply dict_set_Forall; [done|]. simpl. rewrite heappush_perm.
  constructor; [done|].
  apply dict_get_elem in Hget. rewrite Forall_forall in Hc.
  by apply (Hc (cid, cl)).
Qed.

(** What [clustered_batch] returns, when it returns: [batch_size] entries
    whose items are unexplored members of the pool. *)
Lemma clustered_batch_spec {V} fuel self xs U bs (explored : gmap T V)
    (preds : gmap T P) heap :
  0 ≤ bs →
  clustered_batch item_lt feature_matrix cluster_fps fuel self xs U bs
    explored preds = Ok heap →
  Z.of_nat (length heap) = bs
  ∧ ∀ x, x ∈ heap.*2 → x ∈ xs ∧ explored !! x = None.
Proof.
  intros Hbs. unfold clustered_batch, superset_of, cluster_and_extract.
  destruct (cluster_superset self) as [c|]; [|done]. simpl.
  destruct (cluster_basis feature_matrix self preds _) as [cb| |]; [|done..].
  simpl.
  match goal with
  | |- context [fill_clusters _ ?c0 ?cxu] =>
    destruct (fill_clusters item_lt c0 cxu) as [clusters| |] eqn:Hfill;
      [|done..]
  end.
  simpl. intros Hrun. split.
  { eapply rr_length; [exact Hrun|simpl; lia]. }
  assert (Forall (λ e : entry, e.2 ∈ xs ∧ explored !! e.2 = None) heap) as Hall.
  { eapply (rr_items (λ x, x ∈ xs ∧ explored !! x = None)); [exact Hrun|done|].
    eapply (fill_clusters_items (λ x, x ∈ xs ∧ explored !! x = None));
      [exact Hfill| |].
    - apply Forall_fmap, Forall_true. intros cid. simpl. constructor.
    - apply Forall_forall. intros [cid [u x]] Hin. simpl.
      apply elem_of_zip_r, elem_of_zip_r in Hin.
      by apply top_k_items in Hin. }
  intros x ([u x'] & -> & Hin)%list_elem_of_fmap.
  rewrite Forall_forall in Hall. by apply (Hall (u, x')).
Qed.

Lemma np_unique_elem (l : list Z) (x : Z) : x ∈ np_unique l ↔ x ∈ l.
Proof. unfold np_unique. by rewrite merge_sort_Permutation, elem_of_remove_dups. Qed.

Lemma np_unique_NoDup (l : list Z) : NoDup (np_unique l).
Proof. unfold np_unique. rewrite merge_sort_Permutation. apply NoDup_remove_dups. Qed.

(** Filing entries under cluster ids that all have a heap succeeds, keeps
    the keys and adds one to the population per entry. *)
Lemma fill_clusters_ok (cxu : list (Z * entry)) : ∀ c : list (Z * list entry),
  (∀ t, t ∈ cxu → t.1 ∈ c.*1) →
  ∃ c', fill_clusters item_lt c cxu = Ok c' ∧ c'.*1 = c.*1
        ∧ population c' = (population c + length cxu)%nat.
Proof.
  unfold fill_clusters.
  induction cxu as [|[cid [u x]] cxu IH]; intros c Hkeys.
  { exists c. split_and!; [done..|simpl; lia]. }
  destruct (dict_get_is_Ok c cid) as [cl Hget]; [apply (Hkeys (cid, (u, x))); by left|].
  destruct (IH (dict_set c cid (heappush (entry_lt item_lt) cl (Float64.neg u, x))))
    as (c' & Hfill & Hk & Hpop).
  { intros t Ht. rewrite (dict_set_keys _ _ _ _ Hget). apply Hkeys. by right. }
  exists c'. split_and!.
  - cbn [foldl].
    change (Ok c ≫= _) with
      (cl ← dict_get c cid;
       Ok (dict_set c cid (heappush (entry_lt item_lt) cl (Float64.neg u, x)))).
    rewrite Hget. exact Hfill.
  - by rewrite Hk, (dict_set_keys _ _ _ _ Hget).
  - pose proof (population_dict_set c cid
                  (heappush (entry_lt item_lt) cl (Float64.neg u, x)) _ Hget) as Hps.
    rewrite heappush_length in Hps. simpl. lia.
Qed.

(** Once the superset is clustered by a backend that returns one id per
    row, [clustered_batch] terminates with a full batch whenever the
    superset holds at least [batch_size] entries. *)
Lemma cluster_and_extract_terminates (self : Acquirer) (superset : list entry)
    (bs : Z) (preds : gmap T P) (cb : basis) :
  cluster_basis feature_matrix self preds superset.*2 = Ok cb →
  length (cluster_fps cb bs (3 * bs)) = length superset →
  0 ≤ bs ≤ Z.of_nat (length superset) →
  ∃ fuel0 heap,
    (∀ fuel, (fuel0 ≤ fuel)%nat →
       cluster_and_extract item_lt feature_matrix cluster_fps fuel self
         superset bs preds = Ok heap)
    ∧ Z.of_nat (length heap) = bs.
Proof.
  intros Hcb Hids Hbs. unfold cluster_and_extract. rewrite Hcb.
  cbn [mbind result_mbind result_bind].
  set (ids := cluster_fps cb bs (3 * bs)) in *.
  destruct (fill_clusters_ok (zip ids (zip superset.*1 superset.*2))
              ((λ cid, (cid, [])) <$> np_unique ids))
    as (clusters & Hfill & Hk & Hpop).
  { intros [cid ux] Hin. apply elem_of_zip_l in Hin. simpl.
    rewrite <- list_fmap_compose.
    rewrite (list_fmap_ext _ id (np_unique ids)) by done.
    rewrite list_fmap_id. by apply np_unique_elem. }
  rewrite Hfill. cbn [mbind result_mbind result_bind].
  rewrite population_empty, !length_zip, !length_fmap, Hids in Hpop.
  destruct (rr_from_start item_lt clusters bs)
    as (fuel0 & heap & Hrun & Hlen & _).
  - rewrite Hk, <- list_fmap_compose.
    rewrite (list_fmap_ext _ id (np_unique ids)) by done.
    rewrite list_fmap_id. apply np_unique_NoDup.
  - lia.
  - by exists fuel0, heap.
Qed.

Lemma fill_clusters_population (cxu : list (Z * entry)) :
  ∀ c c', fill_clusters item_lt c cxu = Ok c' →
    population c' = (population c + length cxu)%nat.
Proof.
  unfold fill_clusters.
  induction cxu as [|[cid [u x]] cxu IH]; intros c c' Hfill.
  { simpl in Hfill. simplify_eq. simpl. lia. }
  apply foldl_result_cons in Hfill as (c1 & Hstep & Hfill). simpl in Hstep.
  destruct (dict_get c cid) as [cl| |] eqn:Hget; [|done..].
  simpl in Hstep. simplify_eq.
  rewrite (IH _ _ Hfill).
  pose proof (population_dict_set c cid
                (heappush (entry_lt item_lt) cl (Float64.neg u, x)) _ Hget) as Hps.
  rewrite heappush_length in Hps. simpl. lia.
Qed.

(** A superset smaller than the batch starves the loop: [clustered_batch]
    never returns. *)
Lemma clustered_batch_starved {V} fuel self xs U bs (explored : gmap T V)
    (preds : gmap T P) c heap :
  cluster_superset self = Some c →
  Z.of_nat (length (top_k item_lt xs U c explored)) < bs →
  clustered_batch item_lt feature_matrix cluster_fps fuel self xs U bs
    explored preds ≠ Ok heap.
Proof.
  intros Hc Hlt. unfold clustered_batch, superset_of, cluster_and_extract.
  rewrite Hc. simpl.
  destruct (cluster_basis feature_matrix self preds _) as [cb| |]; [|done..].
  simpl.
  match goal with
  | |- context [fill_clusters _ ?c0 ?cxu] =>
    destruct (fill_clusters item_lt c0 cxu) as [clusters| |] eqn:Hfill;
      [|done..]
  end.
  simpl. apply rr_starved.
  apply fill_clusters_population in Hfill.
  rewrite population_empty, !length_zip, !length_fmap in Hfill. simpl. lia.
Qed.

Lemma dont_acquire_lookup {V} (explored : gmap T V) (heap_objs : list entry) x :
  dont_acquire explored heap_objs !! x = None ↔
  explored !! x = None ∧ x ∉ heap_objs.*2.
Proof.
  unfold dont_acquire.
  assert (∀ m : gmap T (V + float64),
            foldl (λ m ux, <[ux.2 := inr ux.1]> m) m heap_objs !! x = None
            ↔ m !! x = None ∧ x ∉ heap_objs.*2) as Hgen.
  { induction heap_objs as [|[u y] l IH]; intros m; simpl.
    { split; [|tauto]. intros ?. split; [done|]. apply not_elem_of_nil. }
    rewrite IH, lookup_insert_None, not_elem_of_cons. simpl.
    split; [intros [[? ?] ?]|intros [? [? ?]]]; split_and!; try done;
      by intros ->. }
  rewrite Hgen, lookup_fmap, fmap_None. done.
Qed.

Lemma batch_size_objs_exact (bs : Z) :
  0 ≤ bs < 2 ^ 53 → batch_size_objs bs = Ok ((bs + 1) `div` 2).
Proof.
  intros Hbs. unfold batch_size_objs, Float64.int_truediv.
  pose proof Float64Facts.unit_pos as Hu.
  change (2 =? 0) with false. change (Z.sgn 2) with 1. change (Z.abs 2) with 2.
  cbv iota. unfold Float64.round_ratio.
  destruct (Z.ltb_spec (bs * 1 * Float64.unit) 0); [nia|].
  assert (Float64.unit = 2 ^ 1073 * 2) as Hunit by (by vm_compute).
  replace (bs * 1 * Float64.unit) with (bs * 2 ^ 1073 * 2) by (rewrite Hunit; lia).
  assert (0 < 2 ^ 1073) as H2 by (by apply Z.pow_pos_nonneg).
  rewrite (Float64Facts.round_pos_exact (bs * 2 ^ 1073) 2 1073);
    [|lia|nia|lia| | |].
  - simpl. f_equal. rewrite Hunit.
    replace (- (bs * 2 ^ 1073)) with (- bs * 2 ^ 1073) by lia.
    rewrite (Z.mul_comm (2 ^ 1073) 2), Z.div_mul_cancel_r by lia.
    rewrite Z.quot_mul by lia.
    Z.div_mod_to_equations. lia.
  - by exists bs.
  - rewrite Z.pow_add_r by lia. nia.
  - assert (2 ^ 53 * 2 ^ 1073 < Float64.overflow_units) by (by vm_compute). nia.
Qed.

(** C6. In hybrid selection with a batch size below [2^53], whenever both
    sub-calls return, the objective-space sub-batch holds
    [ceil(batch_size/2)] entries and the feature-space sub-batch the
    remaining [batch_size - ceil(batch_size/2)]; no item of the
    feature-space sub-batch is in the objective-space sub-batch or among
    the keys of the explored mapping, and both sub-batches consist of pool
    items.  The batch returned is the two sub-batches chained. *)
Theorem cluster_both_disjoint {V} (fuel : nat) (self : Acquirer) (xs : list T)
    (U : list float64) (batch_size : Z) (explored : gmap T V)
    (preds : gmap T P) (heap_fps heap_objs : list entry) :
  0 ≤ batch_size < 2 ^ 53 →
  cluster_both_parts item_lt feature_matrix cluster_fps fuel self xs U
    batch_size explored preds = Ok (heap_fps, heap_objs) →
  batch_size_objs batch_size = Ok ((batch_size + 1) `div` 2)
  ∧ Z.of_nat (length heap_objs) = (batch_size + 1) `div` 2
  ∧ Z.of_nat (length heap_fps) = batch_size - (batch_size + 1) `div` 2
  ∧ (∀ x, x ∈ heap_fps.*2 →
       (x ∉ heap_objs.*2) ∧ (x ∉ dom explored) ∧ x ∈ xs)
  ∧ (∀ x, x ∈ heap_objs.*2 → (x ∉ dom explored) ∧ x ∈ xs)
  ∧ cluster_both item_lt feature_matrix cluster_fps fuel self xs U
      batch_size explored preds = Ok (heap_fps ++ heap_objs).
Proof.
  intros Hbs Hrun. unfold cluster_both. rewrite Hrun.
  unfold cluster_both_parts in Hrun.
  rewrite (batch_size_objs_exact batch_size Hbs) in Hrun |- *.
  cbn [mbind result_mbind result_bind] in Hrun.
  destruct (clustered_batch item_lt feature_matrix cluster_fps fuel
              (set_cluster_type self (Some "objs"%string)) xs U
              ((batch_size + 1) `div` 2) explored preds)
    as [objs| |] eqn:Hobjs; [|done..].
  cbn [mbind result_mbind result_bind] in Hrun.
  destruct (clustered_batch item_lt feature_matrix cluster_fps fuel
              (set_cluster_type self (Some "fps"%string)) xs U
              (batch_size - (batch_size + 1) `div` 2)
              (dont_acquire explored objs) preds)
    as [fps| |] eqn:Hfps; [|done..].
  cbn [mbind result_mbind result_bind] in Hrun. simplify_eq.
  assert (0 ≤ (batch_size + 1) `div` 2 ≤ batch_size) as Hhalf
    by (Z.div_mod_to_equations; lia).
  apply clustered_batch_spec in Hobjs as [Hlo Hio]; [|lia].
  apply clustered_batch_spec in Hfps as [Hlf Hif]; [|lia].
  split_and!; [done..| | |done].
  - intros x Hx. apply Hif in Hx as [Hin Hnone].
    apply dont_acquire_lookup in Hnone as [Hnone Hnobjs].
    split_and!; [done| |done]. by apply not_elem_of_dom.
  - intros x Hx. apply Hio in Hx as [Hin Hnone].
    split; [|done]. by apply not_elem_of_dom.
Qed.

End ClusteredFacts.

(** ** The superset of clustered selection *)

Section SupersetFacts.
Context `{Countable T} (item_lt : T → T → bool).
Context {P F : Type}.
Context (feature_matrix : list T → F) (cluster_fps : @basis P F → Z → Z → list Z).

Lemma init_cluster_superset_default (ct : string) (bss : list Z) (b : Z) :
  ct ≠ EmptyString → bss !! 0%nat = Some b →
  init_cluster_superset (Some ct) None bss = Ok (Some (10 * b)).
Proof.
  intros Hct Hb. unfold init_cluster_superset.
  destruct ct as [|a ct]; [done|].
  destruct bss as [|b' bss]; simplify_eq/=. done.
Qed.

(** C4 fails on the code.  [clustered_batch] takes the superset as a
    top-k of size [cluster_superset] alone, where the specification has
    [max(cluster_superset, batch_size)]: as soon as the batch size exceeds
    [cluster_superset] and more than [cluster_superset] pool items are
    unexplored, the superset holds [cluster_superset] entries, fewer than
    the top-k of size [max(cluster_superset, batch_size)], and the
    extraction loop, which runs until the batch size is met, can never
    meet it: [clustered_batch] returns no batch, whatever the clustering
    gives.  [cluster_superset] is ten times the first entry of the
    schedule when clustering is enabled and no superset size was
    configured, so a schedule that grows beyond that runs into it. *)
Theorem superset_ignores_batch_size {V} (self : Acquirer) (xs : list T)
    (U : list float64) (explored : gmap T V) (c batch_size : Z) :
  cluster_superset self = Some c →
  NoDup xs → length U = length xs →
  0 ≤ c < batch_size →
  c < Z.of_nat (base.size (list_to_set xs ∖ dom explored : gset T)) →
  let superset := top_k item_lt xs U c explored in
  let claimed := top_k item_lt xs U (Z.max c batch_size) explored in
  superset_of item_lt self xs U explored = Ok superset
  ∧ (∀ fuel (preds : gmap T P),
       clustered_batch item_lt feature_matrix cluster_fps fuel self xs U
         batch_size explored preds
       = cluster_and_extract item_lt feature_matrix cluster_fps fuel self
           superset batch_size preds)
  ∧ (∀ x, x ∈ superset.*2 → (x ∉ dom explored) ∧ x ∈ xs)
  ∧ Z.of_nat (length superset) = c
  ∧ Z.of_nat (length claimed)
    = Z.min batch_size
        (Z.of_nat (base.size (list_to_set xs ∖ dom explored : gset T)))
  ∧ (length superset < length claimed)%nat
  ∧ (∀ fuel (preds : gmap T P) heap,
       clustered_batch item_lt feature_matrix cluster_fps fuel self xs U
         batch_size explored preds ≠ Ok heap)
  ∧ (∀ (a : init_args) (ct : string),
       Acquirer_init a = Ok self →
       arg_cluster_type a = Some ct → ct ≠ EmptyString →
       arg_cluster_superset a = None →
       ∃ b, batch_sizes self !! 0%nat = Some b ∧ c = 10 * b).
Proof.
  intros Hc Hnd Hlen Hbs Hmore superset claimed.
  assert (Z.of_nat (length superset) = c) as Hsup.
  { unfold superset. rewrite top_k_count by (done || lia). lia. }
  assert (Z.of_nat (length claimed)
          = Z.min batch_size
              (Z.of_nat (base.size (list_to_set xs ∖ dom explored : gset T))))
    as Hcl.
  { unfold claimed. rewrite top_k_count by (done || lia). lia. }
  split_and!.
  - unfold superset_of. by rewrite Hc.
  - intros fuel preds. unfold clustered_batch, superset_of. by rewrite Hc.
  - intros x Hx. apply top_k_items in Hx as [Hin Hnone].
    split; [|done]. by apply not_elem_of_dom.
  - done.
  - done.
  - lia.
  - intros fuel preds heap.
    eapply clustered_batch_starved; [exact Hc|]. fold superset. lia.
  - intros a ct Hinit Hct Hne Hnone. unfold Acquirer_init in Hinit.
    destruct (resolve_init_size _ _) as [isz| |]; [|done..].
    cbn [mbind result_mbind result_bind] in Hinit.
    destruct (resolve_batch_sizes _ _) as [bss| |]; [|done..].
    cbn [mbind result_mbind result_bind] in Hinit.
    destruct (arg_dim a <? 1); [done|].
    cbn [mbind result_mbind result_bind] in Hinit.
    rewrite Hct, Hnone in Hinit.
    destruct bss as [|b bss].
    { destruct ct; done. }
    rewrite (init_cluster_superset_default ct (b :: bss) b) in Hinit by done.
    cbn [mbind result_mbind result_bind] in Hinit.
    destruct (_ && _); [|done].
    cbn [mbind result_mbind result_bind] in Hinit. simplify_eq.
    exists b. simpl in Hc. by simplify_eq.
Qed.

End SupersetFacts.

(** ** Temperature-based rescaling *)

Section ScaleHeapsFacts.
Context {T : Type} (item_lt : T → T → bool).
Context (math_exp : float64 → result float64).

Abbreviation entry := (float64 * T)%type.

Lemma calc_decay_tuple (g temp : float64) (yx : entry) :
  _calc_decay math_exp g (PyTuple yx) temp = Raise TypeError.
Proof. done. Qed.

Lemma scale_heap_nonempty (g temp : float64) d cid (yx : entry) heap cap :
  scale_heap item_lt math_exp g temp d (cid, (yx :: heap, cap)) = Raise TypeError.
Proof. done. Qed.

Lemma scale_fold_raises (g temp : float64) (l : list (Z * (list entry * Z))) :
  Exists (λ item, item.2.1 ≠ []) l →
  ∀ acc, foldl (λ acc item, d ← acc; scale_heap item_lt math_exp g temp d item)
           (Ok acc) l = Raise TypeError.
Proof.
  induction 1 as [[cid [heap cap]] l Hne|[cid [heap cap]] l Hex IH];
    intros acc; cbn [foldl];
    change (Ok acc ≫= λ d, scale_heap item_lt math_exp g temp d (cid, (heap, cap)))
      with (scale_heap item_lt math_exp g temp acc (cid, (heap, cap)));
    destruct heap as [|yx heap]; try done;
    try (rewrite scale_heap_nonempty; apply foldl_raise).
  apply IH.
Qed.

(** C9 fails on the code.  As soon as one cluster's heap is non-empty,
    [_scale_heaps] raises [TypeError] instead of shrinking the heap:
    [max(heap, key=...)] hands the whole [(score, item)] entry to
    [_calc_decay], which subtracts it from a float. *)
Theorem scale_heaps_raises (d_cid_heap : list (Z * (list entry * Z)))
    (pred_global_max : float64) (t : Z) (temp_i temp_f temp : float64) :
  _calc_temp math_exp t temp_i temp_f = Ok temp →
  Exists (λ item, item.2.1 ≠ []) d_cid_heap →
  _scale_heaps item_lt math_exp d_cid_heap pred_global_max t temp_i temp_f
  = Raise TypeError.
Proof.
  intros Htemp Hex. unfold _scale_heaps. rewrite Htemp.
  cbn [mbind result_mbind result_bind]. by apply scale_fold_raises.
Qed.

End ScaleHeapsFacts.

(** ** Seeded initial acquisition *)

Section SeededFacts.
Context `{Metrics} `{Countable T} (item_lt : T → T → bool).

(** C8. With a configured seed, a run (construct the acquirer, then
    acquire the initial batch) gives the same selection whatever state the
    process-wide generator was in before: two runs over the same pool with
    the same seed select the same items. *)
Theorem initial_run_deterministic (a : init_args) (seed : Z) (xs : list T)
    (cluster_ids : option (list Z)) (cluster_sizes : option (list (Z * Z)))
    (p1 p2 : process) :
  arg_seed a = Some seed →
  initial_run item_lt a xs cluster_ids cluster_sizes p1
  = initial_run item_lt a xs cluster_ids cluster_sizes p2.
Proof.
  intros Hseed. unfold initial_run, Acquirer_new.
  destruct (Acquirer_init a) as [self| |]; [|done..].
  cbn [mbind result_mbind result_bind fst snd]. rewrite Hseed.
  unfold acquire_initial_run, metrics_random, set_seed. simpl.
  destruct (size self <? 0); [done|].
  cbn [mbind result_mbind result_bind fst snd].
  by destruct (acquire_initial item_lt self xs _ cluster_ids cluster_sizes).
Qed.

End SeededFacts.

(** A second call on the same instance reads on from where the first draw
    left the generator: with the counter generator it selects another
    item. *)
Example second_draw_differs :
  let xs := [1; 2; 3; 4; 5; 6] in
  let p := {| RG := 42; os_entropy := 0 |} in
  ∃ first p' second p'',
    acquire_initial_run Z.ltb demo_acquirer xs None None p = Ok (first, p')
    ∧ acquire_initial_run Z.ltb demo_acquirer xs None None p' = Ok (second, p'')
    ∧ first ≠ second.
Proof.
  intros xs p. do 4 eexists.
  split_and!; [vm_compute; reflexivity..|]. vm_compute. discriminate.
Qed.

(** * Further properties of the code *)

(** ** The heap order of [heapq] *)

(** linear arithmetic that knows [n / 2] on naturals *)
Ltac parent_lia :=
  repeat match goal with
         | H : context [(?a / 2)%nat] |- _ =>
           lazymatch goal with
           | _ : a = (2 * (a / 2) + a mod 2)%nat |- _ => fail
           | _ => pose proof (Nat.div_mod_eq a 2);
                  pose proof (Nat.mod_upper_bound a 2 ltac:(lia))
           end
         | |- context [(?a / 2)%nat] =>
           lazymatch goal with
           | _ : a = (2 * (a / 2) + a mod 2)%nat |- _ => fail
           | _ => pose proof (Nat.div_mod_eq a 2);
                  pose proof (Nat.mod_upper_bound a 2 ltac:(lia))
           end
         end; lia.

Section HeapOrder.
Context {E : Type} (lt : E → E → bool) (ok : E → Prop) `{!WeakOrderOn lt ok}.
Implicit Types (heap : list E) (item : E).

Lemma wo_asym a b : ok a → ok b → lt a b = true → lt b a = false.
Proof.
  intros Ha Hb Hab. destruct (lt b a) eqn:Hba; [|done].
  by rewrite <- (wo_irrefl a Ha), (wo_trans a b a Ha Hb Ha Hab Hba).
Qed.

Lemma hole_filled heap pos newitem :
  (pos < length heap)%nat →
  ordered_around lt heap pos → above_item lt heap pos newitem →
  (∀ p, (0 < pos)%nat → heap !! ((pos - 1) / 2)%nat = Some p →
        lt newitem p = false) →
  heap_ordered lt (<[pos := newitem]> heap).
Proof.
  intros Hpos Ha Hc Hd j x p Hj Hx Hp.
  destruct (decide (j = pos)) as [->|Hne].
  - rewrite list_lookup_insert_eq in Hx by done. simplify_eq.
    rewrite list_lookup_insert_ne in Hp by parent_lia. by apply Hd.
  - rewrite list_lookup_insert_ne in Hx by done.
    destruct (decide (((j - 1) / 2)%nat = pos)) as [Heq|Hnp].
    + rewrite Heq, list_lookup_insert_eq in Hp by done. simplify_eq.
      by eapply Hc.
    + rewrite list_lookup_insert_ne in Hp by done. by eapply Ha.
Qed.

Lemma siftdown_loop_ordered fuel : ∀ heap newitem pos,
  (pos ≤ fuel)%nat → (pos < length heap)%nat → Forall ok heap → ok newitem →
  ordered_around lt heap pos → grand_ordered lt heap pos →
  above_item lt heap pos newitem →
  let r := siftdown_loop lt fuel heap newitem 0 pos in
  heap_ordered lt (<[r.2 := newitem]> r.1).
Proof.
  induction fuel as [|fuel IH]; intros heap newitem pos Hf Hpos Hok Hnew Ha Hb Hc;
    cbn [siftdown_loop]; cbn zeta.
  { simpl. apply hole_filled; [done..|]. intros; lia. }
  case_decide as Hsp.
  2: { simpl. apply hole_filled; [done..|]. intros; lia. }
  destruct (heap !! ((pos - 1) / 2)%nat) as [parent|] eqn:Hparent.
  2: { simpl. apply hole_filled; [done..|]. intros; simplify_eq. }
  destruct (lt newitem parent) eqn:Hlt.
  2: { simpl. apply hole_filled; [done..|]. intros p ? Hp. rewrite Hparent in Hp. by simplify_eq. }
  assert (ok parent) as Hokp by (by eapply Forall_lookup_1).
  assert (((pos - 1) / 2 < pos)%nat) as Hpp by parent_lia.
  apply IH.
  - lia.
  - rewrite length_insert. lia.
  - apply Forall_insert; done.
  - done.
  - intros j x p Hj Hne Hnp Hx Hp.
    destruct (decide (j = pos)) as [->|Hjp]; [done|].
    rewrite list_lookup_insert_ne in Hx by done.
    destruct (decide (((j - 1) / 2)%nat = pos)) as [Heq|Hnp'].
    + rewrite Heq, list_lookup_insert_eq in Hp by done. simplify_eq.
      by eapply Hb.
    + rewrite list_lookup_insert_ne in Hp by done. by eapply Ha.
  - intros j x g Hj Hjp H0 Hx Hg.
    rewrite list_lookup_insert_ne in Hg by parent_lia.
    assert (lt parent g = false) as Hpg.
    { eapply (Ha ((pos - 1) / 2)%nat); [done|lia|parent_lia|done..]. }
    destruct (decide (j = pos)) as [->|Hne].
    + rewrite list_lookup_insert_eq in Hx by done. by simplify_eq.
    + rewrite list_lookup_insert_ne in Hx by done.
      assert (lt x parent = false) as Hxp.
      { eapply (Ha j); [done|done|lia| |]; [done|by rewrite Hjp]. }
      eapply (wo_le_trans g parent x); try done; by eapply Forall_lookup_1.
  - intros j x Hj Hjp Hx.
    destruct (decide (j = pos)) as [->|Hne].
    + rewrite list_lookup_insert_eq in Hx by done. simplify_eq.
      by apply wo_asym.
    + rewrite list_lookup_insert_ne in Hx by done.
      assert (lt x parent = false) as Hxp.
      { eapply (Ha j); [done|done|lia| |]; [done|by rewrite Hjp]. }
      destruct (lt x newitem) eqn:Hxn; [|done].
      rewrite <- Hxp. symmetry.
      eapply (wo_trans x newitem parent); try done. by eapply Forall_lookup_1.
Qed.

Lemma siftdown_ordered heap pos :
  Forall ok heap → ordered_around lt heap pos →
  (∀ j, ((j - 1) / 2)%nat = pos → (0 < j)%nat → (length heap ≤ j)%nat) →
  heap_ordered lt (_siftdown lt heap 0 pos).
Proof.
  intros Hok Ha Hleaf. unfold _siftdown.
  destruct (heap !! pos) as [newitem|] eqn:Hnew.
  2: { intros j x p Hj Hx Hp.
       assert (j < length heap)%nat by (by eapply lookup_lt_Some).
       apply lookup_ge_None in Hnew.
       eapply Ha; try done; [lia|parent_lia]. }
  pose proof (siftdown_loop_ordered pos heap newitem pos) as Hloop.
  destruct (siftdown_loop lt pos heap newitem 0 pos) as [heap' pos'].
  apply Hloop; try done.
  - by eapply lookup_lt_Some.
  - by eapply Forall_lookup_1.
  - intros j x g Hj Hjp _ Hx _. apply lookup_lt_Some in Hx.
    specialize (Hleaf j Hjp Hj). lia.
  - intros j x Hj Hjp Hx. apply lookup_lt_Some in Hx.
    specialize (Hleaf j Hjp Hj). lia.
Qed.

Lemma siftup_loop_ordered fuel : ∀ heap pos,
  (length heap - pos ≤ fuel)%nat → (pos < length heap)%nat → Forall ok heap →
  ordered_around lt heap pos → grand_ordered lt heap pos →
  let r := siftup_loop lt fuel heap pos in
  length r.1 = length heap ∧ (r.2 < length heap)%nat ∧ Forall ok r.1
  ∧ ordered_around lt r.1 r.2 ∧ (length heap ≤ 2 * r.2 + 1)%nat.
Proof.
  induction fuel as [|fuel IH]; intros heap pos Hf Hpos Hok Ha Hb;
    cbn [siftup_loop]; cbn zeta.
  { lia. }
  case_decide as Hchild.
  2: { simpl. split_and!; [done..|lia]. }
  destruct (lookup_lt_is_Some_2 heap (2 * pos + 1)%nat Hchild) as [c0 Hc0].
  set (child := match heap !! (2 * pos + 1)%nat, heap !! (2 * pos + 1 + 1)%nat with
                | Some c, Some r => if negb (lt c r) then (2 * pos + 1 + 1)%nat
                                    else (2 * pos + 1)%nat
                | _, _ => (2 * pos + 1)%nat
                end).
  assert (∃ c, heap !! child = Some c
            ∧ (child = 2 * pos + 1 ∨ child = 2 * pos + 2)%nat
            ∧ ∀ j x, (0 < j)%nat → ((j - 1) / 2)%nat = pos → j ≠ child →
                     heap !! j = Some x → lt x c = false)
    as (c & Hc & Hcp & Hsib).
  { unfold child. rewrite Hc0.
    destruct (heap !! (2 * pos + 1 + 1)%nat) as [r|] eqn:Hr.
    - destruct (lt c0 r) eqn:Hcr; cbn [negb].
      + exists c0. split_and!; [done|lia|].
        intros j x Hj Hjp Hne Hx.
        assert (j = 2 * pos + 1 + 1)%nat as -> by parent_lia.
        simplify_eq. apply wo_asym; [by eapply Forall_lookup_1..|done].
      + exists r. split_and!; [done|lia|].
        intros j x Hj Hjp Hne Hx.
        assert (j = 2 * pos + 1)%nat as -> by parent_lia.
        by simplify_eq.
    - exists c0. split_and!; [done|lia|].
      intros j x Hj Hjp Hne Hx.
      assert (j = 2 * pos + 1 + 1)%nat as -> by parent_lia.
      by simplify_eq. }
  rewrite Hc.
  assert (ok c) as Hokc by (by eapply Forall_lookup_1).
  assert (((child - 1) / 2)%nat = pos) as Hcpar by parent_lia.
  destruct (IH (<[pos := c]> heap) child) as (Hlen & Hlt & Hok' & Ha' & Hleaf).
  - apply lookup_lt_Some in Hc. rewrite length_insert. lia.
  - rewrite length_insert. by eapply lookup_lt_Some.
  - by apply Forall_insert.
  - intros j x p Hj Hne Hnp Hx Hp.
    destruct (decide (j = pos)) as [->|Hjp].
    + rewrite list_lookup_insert_eq in Hx by done. simplify_eq.
      rewrite list_lookup_insert_ne in Hp by parent_lia.
      eapply (Hb child); [lia|done|done|done|done].
    + rewrite list_lookup_insert_ne in Hx by done.
      destruct (decide (((j - 1) / 2)%nat = pos)) as [Heq|Hnp'].
      * rewrite Heq, list_lookup_insert_eq in Hp by done. simplify_eq.
        by eapply Hsib.
      * rewrite list_lookup_insert_ne in Hp by done. by eapply Ha.
  - intros j x g Hj Hjp H0 Hx Hg.
    rewrite Hcpar, list_lookup_insert_eq in Hg by done. simplify_eq.
    rewrite list_lookup_insert_ne in Hx by parent_lia.
    eapply (Ha j); [done|parent_lia|parent_lia|done|by rewrite Hjp].
  - rewrite length_insert in Hlen, Hlt, Hleaf. done.
Qed.

(** [_siftup] at the root restores the heap order of an array whose only
    misplaced entry is the root *)
Lemma siftup_ordered heap :
  Forall ok heap → ordered_around lt heap 0 → heap_ordered lt (_siftup lt heap 0).
Proof.
  intros Hok Ha. unfold _siftup.
  destruct (heap !! 0%nat) as [newitem|] eqn:Hnew.
  2: { destruct heap; [|done]. by intros j x p _ ?. }
  assert (0 < length heap)%nat as Hpos by (by eapply lookup_lt_Some).
  pose proof (siftup_loop_ordered (length heap) heap 0) as Hloop.
  destruct (siftup_loop lt (length heap) heap 0) as [heap' pos'].
  destruct Hloop as (Hlen & Hlt & Hok' & Ha' & Hleaf); [lia|done|done|done| |].
  { intros j x g _ _ ?. lia. }
  cbn [fst snd] in *. apply siftdown_ordered.
  - apply Forall_insert; [done|]. exact (Forall_lookup_1 _ _ _ _ Hok Hnew).
  - intros j x p Hj Hne Hnp Hx Hp.
    rewrite list_lookup_insert_ne in Hx, Hp by done. by eapply Ha'.
  - intros j Hjp Hj. rewrite length_insert. parent_lia.
Qed.

Lemma heap_ordered_nil : heap_ordered lt [].
Proof. by intros j x p _ ?. Qed.

Lemma heappush_ordered heap item :
  Forall ok heap → ok item → heap_ordered lt heap →
  heap_ordered lt (heappush lt heap item).
Proof.
  intros Hok Hitem Hord. unfold heappush. apply siftdown_ordered.
  - apply Forall_app. split; [done|]. by constructor.
  - intros j x p Hj Hne Hnp Hx Hp.
    assert (j < length heap)%nat.
    { apply lookup_lt_Some in Hx. rewrite length_app in Hx. simpl in Hx. lia. }
    rewrite lookup_app_l in Hx, Hp by parent_lia. by eapply Hord.
  - intros j Hjp Hj. rewrite length_app. simpl. parent_lia.
Qed.

Lemma replace_root_ordered heap item :
  heap_ordered lt heap → ordered_around lt (<[0%nat := item]> heap) 0.
Proof.
  intros Hord j x p Hj Hne Hnp Hx Hp.
  rewrite list_lookup_insert_ne in Hx, Hp by done. by eapply Hord.
Qed.

Lemma heappushpop_ordered heap item :
  Forall ok heap → ok item → heap_ordered lt heap →
  heap_ordered lt (heappushpop lt heap item).2.
Proof.
  intros Hok Hitem Hord. unfold heappushpop.
  destruct heap as [|top heap]; [done|].
  destruct (lt top item); [|done]. cbn [snd].
  apply siftup_ordered.
  - apply Forall_insert; done.
  - by apply replace_root_ordered.
Qed.

(** the root of an ordered heap is a least entry *)
Lemma heap_ordered_root top heap x :
  Forall ok (top :: heap) → heap_ordered lt (top :: heap) → x ∈ top :: heap →
  lt x top = false.
Proof.
  intros Hok Hord [j Hj]%list_elem_of_lookup_1. revert x Hj.
  induction (lt_wf j) as [j _ IH]. intros x Hj.
  destruct (decide (j = 0)%nat) as [->|Hne].
  { simplify_eq/=. apply wo_irrefl. by inversion Hok. }
  assert (((j - 1) / 2 < j)%nat) as Hlt by parent_lia.
  destruct (lookup_lt_is_Some_2 (top :: heap) ((j - 1) / 2)%nat) as [p Hp].
  { apply lookup_lt_Some in Hj. lia. }
  eapply (wo_le_trans top p x).
  - by inversion Hok.
  - by eapply Forall_lookup_1.
  - by eapply Forall_lookup_1.
  - by eapply IH.
  - eapply Hord; [|done..]. lia.
Qed.

Lemma heappop_ordered heap x heap' :
  Forall ok heap → heap_ordered lt heap → heappop lt heap = Ok (x, heap') →
  heap_ordered lt heap' ∧ ∀ y, y ∈ heap' → lt y x = false.
Proof.
  intros Hok Hord Hpop.
  destruct heap as [|top heap]; [done|].
  destruct (heappop_cons lt top heap) as (h'' & Hpop' & Hperm).
  rewrite Hpop in Hpop'. simplify_eq.
  split.
  2: { intros y Hy. eapply heap_ordered_root; [done..|].
       rewrite Hperm in Hy. by right. }
  unfold heappop in Hpop.
  destruct (last (top :: heap)) as [lastelt|] eqn:Hlast; [|done].
  apply last_Some in Hlast as [front Hfront].
  rewrite Hfront, removelast_last in Hpop.
  assert (heap_ordered lt front) as Hfo.
  { intros j y p Hj Hy Hp. eapply (Hord j); [done|..]; rewrite Hfront.
    - by apply lookup_app_l_Some.
    - by apply lookup_app_l_Some. }
  assert (Forall ok front ∧ ok lastelt) as [Hokf Hokl].
  { rewrite Hfront in Hok. apply Forall_app in Hok as [? Hl].
    by inversion Hl. }
  destruct front as [|a front]; simplify_eq/=.
  { apply heap_ordered_nil. }
  apply siftup_ordered.
  - apply (Forall_insert _ (a :: front) 0%nat); done.
  - by apply (replace_root_ordered (a :: front)).
Qed.

End HeapOrder.

(** ** The order on heap entries *)

#[global] Instance Z_ltb_weak_order : WeakOrderOn Z.ltb (λ _, True).
Proof. split; intros; lia. Qed.

Section EntryOrder.
Context {T : Type} (item_lt : T → T → bool) `{!WeakOrderOn item_lt (λ _, True)}.

Lemma float_lt_irrefl (x : float64) : Float64.ltb x x = false.
Proof. destruct x; simpl; try done. apply Z.ltb_irrefl. Qed.

Lemma float_eqb_eq (x y : float64) : Float64.eqb x y = true → x = y.
Proof.
  destruct x, y; simpl; try done. intros ?%Z.eqb_eq. by subst.
Qed.

Lemma float_eqb_refl (x : float64) :
  Float64.is_nan x = false → Float64.eqb x x = true.
Proof. destruct x; simpl; try done. intros _. apply Z.eqb_refl. Qed.

Lemma float_lt_trans (x y z : float64) :
  Float64.ltb x y = true → Float64.ltb y z = true → Float64.ltb x z = true.
Proof. destruct x, y, z; simpl; try done. lia. Qed.

Lemma float_le_trans (x y z : float64) :
  Float64.is_nan x = false → Float64.is_nan y = false →
  Float64.is_nan z = false →
  Float64.ltb y x = false → Float64.ltb z y = false → Float64.ltb z x = false.
Proof. destruct x, y, z; simpl; try done. lia. Qed.

Lemma float_lt_total (x y : float64) :
  Float64.is_nan x = false → Float64.is_nan y = false →
  Float64.ltb x y = false → Float64.ltb y x = false → x = y.
Proof.
  destruct x, y; simpl; try done. intros _ _ ? ?. f_equal. lia.
Qed.

Lemma entry_lt_cases (a b : float64 * T) :
  not_nan a → not_nan b →
  entry_lt item_lt a b =
    Float64.ltb a.1 b.1 || (bool_decide (a.1 = b.1) && item_lt a.2 b.2).
Proof.
  unfold not_nan, entry_lt. intros Ha Hb.
  destruct (Float64.eqb a.1 b.1) eqn:Heq.
  - apply float_eqb_eq in Heq. rewrite Heq, float_lt_irrefl.
    by rewrite bool_decide_eq_true_2.
  - rewrite bool_decide_eq_false_2; [by rewrite orb_false_r|].
    intros Hab. rewrite Hab, float_eqb_refl in Heq; done.
Qed.

#[global] Instance entry_lt_weak_order : WeakOrderOn (entry_lt item_lt) not_nan.
Proof.
  split.
  - intros a Ha. rewrite entry_lt_cases, float_lt_irrefl by done.
    rewrite bool_decide_eq_true_2 by done. simpl.
    by apply (wo_irrefl (lt := item_lt)).
  - intros a b c Ha Hb Hc. rewrite !entry_lt_cases by done.
    intros [Hab|[Hab Hab']%andb_prop]%orb_prop
           [Hbc|[Hbc Hbc']%andb_prop]%orb_prop.
    + by rewrite (float_lt_trans _ _ _ Hab Hbc).
    + apply bool_decide_eq_true in Hbc. by rewrite <- Hbc, Hab.
    + apply bool_decide_eq_true in Hab. by rewrite Hab, Hbc.
    + apply bool_decide_eq_true in Hab, Hbc.
      rewrite (bool_decide_eq_true_2 (a.1 = c.1)) by congruence.
      rewrite (wo_trans (lt := item_lt) a.2 b.2 c.2) by done.
      apply orb_true_r.
  - intros a b c Ha Hb Hc. rewrite !entry_lt_cases by done.
    intros [Hba Hba']%orb_false_elim [Hcb Hcb']%orb_false_elim.
    apply orb_false_intro.
    + by apply (float_le_trans a.1 b.1 c.1).
    + apply andb_false_iff. 
      destruct (decide (c.1 = a.1)) as [Hca|Hca]; [|left; by apply bool_decide_eq_false].
      right.
      assert (b.1 = a.1) as Hbeq.
      { apply float_lt_total; try done. by rewrite <- Hca. }
      rewrite bool_decide_eq_true_2 in Hba' by done.
      rewrite bool_decide_eq_true_2 in Hcb' by congruence.
      simpl in *. by apply (wo_le_trans (lt := item_lt) a.2 b.2 c.2).
Qed.

End EntryOrder.

Section BestSelection.
Context `{Countable T} (item_lt : T → T → bool)
  `{!WeakOrderOn item_lt (λ _, True)}.

Abbreviation entry := (float64 * T)%type.
Abbreviation lt := (entry_lt item_lt).
Implicit Types (heap rej : list entry) (e : entry) (cap : Z).

Lemma bounded_push_best heap rej cap e :
  not_nan e → keeps_best item_lt heap rej cap →
  ∃ rej', bounded_push item_lt heap cap e ++ rej' ≡ₚ e :: heap ++ rej
        ∧ keeps_best item_lt (bounded_push item_lt heap cap e) rej' cap.
Proof.
  intros He (Hok & Hokr & Hord & Hbest & Hfull). unfold bounded_push.
  destruct (Z.ltb_spec (Z.of_nat (length heap)) cap) as [Hlt|Hge].
  - rewrite (Hfull Hlt). exists []. rewrite !app_nil_r.
    split; [apply heappush_perm|].
    split_and!; try done.
    + by rewrite heappush_perm; constructor.
    + by apply (heappush_ordered lt not_nan).
    + intros r b Hr. by apply elem_of_nil in Hr.
  - exists ((heappushpop lt heap e).1 :: rej).
    split.
    { rewrite <- Permutation_middle, app_comm_cons.
      by rewrite heappushpop_perm. }
    pose proof (heappushpop_ordered lt not_nan heap e Hok He Hord) as Hord'.
    unfold heappushpop in *.
    destruct heap as [|top heap]; cbn [fst snd].
    { split_and!; [done|by constructor|done| |intros; simpl in *; lia].
      intros r b _ Hb. by apply elem_of_nil in Hb. }
    assert (not_nan top) as Htop by (by inversion Hok).
    destruct (lt top e) eqn:Hte; cbn [fst snd] in *.
    + assert (_siftup lt (<[0%nat:=e]> (top :: heap)) 0 ≡ₚ e :: heap) as Hperm.
      { by rewrite siftup_perm. }
      split_and!; try done.
      * rewrite Hperm. constructor; [done|]. by inversion Hok.
      * by constructor.
      * intros r b Hr Hb. rewrite Hperm in Hb.
        assert (not_nan b) as Hokb.
        { apply elem_of_cons in Hb as [->|Hb]; [done|].
          inversion Hok as [|?? _ Hall]. by eapply Forall_forall in Hall. }
        apply elem_of_cons in Hr as [->|Hr].
        -- apply elem_of_cons in Hb as [->|Hb].
           ++ by apply (wo_asym lt not_nan).
           ++ eapply (heap_ordered_root lt not_nan); [done..|by right].
        -- assert (not_nan r) as Hokr' by (by eapply Forall_forall in Hokr).
           apply elem_of_cons in Hb as [->|Hb].
           ++ destruct (lt e r) eqn:Her; [|done].
              rewrite <- (Hbest r top Hr); [|by left]. symmetry.
              by apply (wo_trans top e r).
           ++ apply Hbest; [done|by right].
      * intros Hlt. apply Permutation_length in Hperm. simpl in *. lia.
    + split_and!; try done.
      * by constructor.
      * intros r b Hr Hb.
        apply elem_of_cons in Hr as [->|Hr]; [|by apply Hbest].
        assert (not_nan b) as Hokb by (by eapply Forall_forall in Hok).
        apply (wo_le_trans e top b); try done.
        by eapply (heap_ordered_root lt not_nan).
      * intros Hlt. simpl in *. lia.
Qed.

Lemma bounded_fold_best cap (es : list entry) : ∀ heap rej,
  Forall not_nan es → keeps_best item_lt heap rej cap →
  let h := foldl (λ heap e, bounded_push item_lt heap cap e) heap es in
  ∃ rej', h ++ rej' ≡ₚ es ++ heap ++ rej ∧ keeps_best item_lt h rej' cap.
Proof.
  induction es as [|e es IH]; intros heap rej Hes Hk; simpl.
  { by exists rej. }
  inversion Hes as [|?? He Hes']; subst.
  destruct (bounded_push_best heap rej cap e He Hk) as (rej1 & Hperm1 & Hk1).
  destruct (IH _ _ Hes' Hk1) as (rej2 & Hperm2 & Hk2).
  exists rej2. split; [|done].
  rewrite Hperm2, Hperm1. simpl. symmetry. apply Permutation_middle.
Qed.

End BestSelection.


(** ** Selection keeps the best *)

Lemma float_not_lt_le (x y : float64) :
  Float64.is_nan x = false → Float64.is_nan y = false →
  Float64.ltb y x = false → Float64.leb x y = true.
Proof.
  unfold Float64.leb. destruct x, y; simpl; try done. intros _ _ ?.
  apply orb_true_iff. rewrite Z.ltb_lt, Z.eqb_eq. lia.
Qed.

Section BestFacts.
Context `{Countable T} (item_lt : T → T → bool).

Abbreviation entry := (float64 * T)%type.
Abbreviation lt := (entry_lt item_lt).

Lemma entry_not_lt_le (b r : entry) :
  not_nan b → not_nan r → lt b r = false → Float64.leb r.1 b.1 = true.
Proof.
  intros Hb Hr Hlt. apply float_not_lt_le; [done..|].
  unfold entry_lt in Hlt. destruct (Float64.eqb b.1 r.1) eqn:Heq; [|done].
  apply float_eqb_eq in Heq. rewrite Heq. apply float_lt_irrefl.
Qed.

Lemma keeps_best_nil cap : keeps_best item_lt [] [] cap.
Proof.
  split_and!; try done.
  intros r b Hr. by apply elem_of_nil in Hr.
Qed.

Lemma bounded_selection_best `{!WeakOrderOn item_lt (λ _, True)} cap
    (es : list entry) :
  Forall not_nan es →
  let heap := foldl (λ heap e, bounded_push item_lt heap cap e) [] es in
  (∃ rest, es ≡ₚ heap ++ rest
     ∧ ∀ r b, r ∈ rest → b ∈ heap →
         lt b r = false ∧ Float64.leb r.1 b.1 = true)
  ∧ (∀ top tl b, heap = top :: tl → b ∈ tl →
       lt b top = false ∧ Float64.leb top.1 b.1 = true).
Proof.
  intros Hes heap.
  destruct (bounded_fold_best item_lt cap es [] [] Hes (keeps_best_nil cap))
    as (rest & Hperm & Hok & Hokr & Hord & Hbest & _).
  fold heap in Hperm, Hok, Hord, Hbest.
  rewrite !app_nil_r in Hperm. split.
  - exists rest. split; [done|]. intros r b Hr Hb.
    split; [by apply Hbest|].
    apply entry_not_lt_le; [| |by apply Hbest].
    + by eapply Forall_forall in Hok.
    + by eapply Forall_forall in Hokr.
  - intros top tl b Hheap Hb. rewrite Hheap in Hok, Hord.
    assert (lt b top = false) as Hlt.
    { eapply (heap_ordered_root lt not_nan); [done..|by right]. }
    split; [done|].
    apply Forall_cons in Hok as [Htop Htl].
    apply entry_not_lt_le; [|done..]. by eapply Forall_forall in Htl.
Qed.

Lemma zip_not_nan (xs : list T) (U : list float64) (Q : T * float64 → Prop)
    `{∀ xu, Decision (Q xu)} :
  Forall (λ u, Float64.is_nan u = false) U →
  Forall not_nan ((λ xu : T * float64, (xu.2, xu.1)) <$> filter Q (zip xs U)).
Proof.
  intros HU. apply Forall_fmap, Forall_forall. intros [x u] Hin.
  apply list_elem_of_filter in Hin as [_ Hin]. apply elem_of_zip_r in Hin.
  by eapply Forall_forall in HU.
Qed.

(** X1. When no utility is NaN and the items are compared by a strict weak
    order, [top_k] keeps the best: the unexplored candidates split into the
    heap that is returned and the rest, and no candidate left out compares
    above a returned entry (its utility is at most that of every returned
    entry).  The first entry of the returned heap is a least one. *)
Theorem top_k_keeps_highest `{!WeakOrderOn item_lt (λ _, True)} {V}
    (xs : list T) (U : list float64) (batch_size : Z) (explored : gmap T V) :
  Forall (λ u, Float64.is_nan u = false) U →
  let heap := top_k item_lt xs U batch_size explored in
  let candidates := (λ xu : T * float64, (xu.2, xu.1)) <$>
        filter (λ xu : T * float64, explored !! xu.1 = None) (zip xs U) in
  (∃ rest, candidates ≡ₚ heap ++ rest
     ∧ ∀ r b, r ∈ rest → b ∈ heap →
         lt b r = false ∧ Float64.leb r.1 b.1 = true)
  ∧ (∀ top tl b, heap = top :: tl → b ∈ tl →
       lt b top = false ∧ Float64.leb top.1 b.1 = true).
Proof.
  intros HU heap candidates. unfold heap. rewrite top_k_as_fold.
  apply bounded_selection_best. by apply zip_not_nan.
Qed.

End BestFacts.


(** ** Initial acquisition *)

Section InitialUnclustered.
Context `{Countable T} (item_lt : T → T → bool).

Lemma zip_fst_submseteq (xs : list T) (U : list float64) :
  ((λ xu : T * float64, (xu.2, xu.1)) <$> zip xs U).*2 ⊆+ xs.
Proof.
  rewrite <- list_fmap_compose.
  rewrite (list_fmap_ext _ fst (zip xs U)) by done.
  apply sublist_submseteq. revert U.
  induction xs as [|x xs IH]; intros [|u U]; simpl;
    try constructor; auto using sublist_nil_l.
Qed.

(** X2. Without clusters [acquire_initial] never raises: it returns
    [min(init_size, len(xs), len(U))] items (none for a negative
    [init_size]), all taken from the pool, each pool position at most once;
    a duplicate-free pool gives a duplicate-free selection. *)
Theorem acquire_initial_unclustered (self : Acquirer) (xs : list T)
    (U : list float64) :
  ∃ sel, acquire_initial item_lt self xs U None None = Ok sel
    ∧ Z.of_nat (length sel)
      = Z.max 0 (Z.min (init_size self)
                       (Z.of_nat (Nat.min (length xs) (length U))))
    ∧ sel ⊆+ xs
    ∧ (NoDup xs → NoDup sel).
Proof.
  unfold acquire_initial. eexists. split; [done|].
  assert (∀ heap0,
    foldl (λ heap (xu : T * float64),
             bounded_push item_lt heap (init_size self) (xu.2, xu.1)) heap0 (zip xs U)
    = foldl (λ heap e, bounded_push item_lt heap (init_size self) e) heap0
        ((λ xu : T * float64, (xu.2, xu.1)) <$> zip xs U)) as Hfold.
  { induction (zip xs U) as [|xu l IH]; intros heap0; [done|]. simpl. apply IH. }
  rewrite Hfold.
  destruct (bounded_fold_spec item_lt (init_size self)
              ((λ xu : T * float64, (xu.2, xu.1)) <$> zip xs U) [])
    as [Hsub Hlen].
  rewrite app_nil_r in Hsub.
  assert (∀ l : list (float64 * T), l.*2 ⊆+ xs → NoDup xs → NoDup l.*2) as Hnd.
  { intros l Hl Hx. by eapply submseteq_NoDup. }
  split_and!.
  - rewrite length_fmap, Hlen. simpl. rewrite length_fmap, length_zip.
    case_ltb; lia.
  - etrans; [apply fmap_submseteq, Hsub|]. apply zip_fst_submseteq.
  - apply Hnd. etrans; [apply fmap_submseteq, Hsub|]. apply zip_fst_submseteq.
Qed.

(** X3. Without clusters, and with random scores that are not NaN, the
    initial batch consists of the items with the highest scores: no scored
    item left out has a score above that of a selected one. *)
Theorem acquire_initial_highest `{!WeakOrderOn item_lt (λ _, True)}
    (self : Acquirer) (xs : list T) (U : list float64) :
  Forall (λ u, Float64.is_nan u = false) U →
  ∃ heap rest,
    acquire_initial item_lt self xs U None None = Ok heap.*2
    ∧ (λ xu : T * float64, (xu.2, xu.1)) <$> zip xs U ≡ₚ heap ++ rest
    ∧ ∀ r b, r ∈ rest → b ∈ heap →
        entry_lt item_lt b r = false ∧ Float64.leb r.1 b.1 = true.
Proof.
  intros HU. unfold acquire_initial.
  assert (∀ heap0,
    foldl (λ heap (xu : T * float64),
             bounded_push item_lt heap (init_size self) (xu.2, xu.1)) heap0 (zip xs U)
    = foldl (λ heap e, bounded_push item_lt heap (init_size self) e) heap0
        ((λ xu : T * float64, (xu.2, xu.1)) <$> zip xs U)) as Hfold.
  { induction (zip xs U) as [|xu l IH]; intros heap0; [done|]. simpl. apply IH. }
  rewrite Hfold.
  destruct (bounded_selection_best item_lt (init_size self)
              ((λ xu : T * float64, (xu.2, xu.1)) <$> zip xs U))
    as ((rest & Hperm & Hbest) & _).
  { apply Forall_fmap, Forall_forall. intros [x u] Hin.
    apply elem_of_zip_r in Hin. by eapply Forall_forall in HU. }
  eexists _, rest. split; [done|]. split; done.
Qed.

End InitialUnclustered.


(** ** Errors of clustered initial acquisition *)
Section InitialErrors.
Context `{Countable T} (item_lt : T → T → bool).

Abbreviation entry := (float64 * T)%type.

Lemma initial_fold_keys (triples : list (T * (float64 * Z))) :
  ∀ d : list (Z * (list entry * Z)),
    (Forall (λ t, t.2.2 ∈ d.*1) triples →
     ∃ d', foldl (λ acc t, d ← acc; initial_step item_lt d t) (Ok d) triples
           = Ok d')
    ∧ (¬ Forall (λ t, t.2.2 ∈ d.*1) triples →
       foldl (λ acc t, d ← acc; initial_step item_lt d t) (Ok d) triples
       = Raise KeyError).
Proof.
  induction triples as [|[x [u cid]] triples IH]; intros d.
  { split; [by eexists|]. intros []. constructor. }
  cbn [foldl].
  change (Ok d ≫= λ d, initial_step item_lt d (x, (u, cid)))
    with (initial_step item_lt d (x, (u, cid))).
  unfold initial_step.
  destruct (decide (cid ∈ d.*1)) as [Hin|Hnin].
  - destruct (dict_get_is_Ok d cid Hin) as [[h cap] Hget]. rewrite Hget.
    cbn [mbind result_mbind result_bind].
    destruct (IH (dict_set d cid (bounded_push item_lt h cap (u, x), cap)))
      as [IHok IHerr].
    rewrite (dict_set_keys _ _ _ _ Hget) in IHok, IHerr.
    split.
    + intros Hall. apply IHok. by inversion Hall.
    + intros Hnall. apply IHerr. intros Hall. apply Hnall. by constructor.
  - assert (dict_get d cid = Raise KeyError) as ->.
    { clear -Hnin. induction d as [|[k v] d IH]; [done|].
      cbn [dict_get]. csimpl in Hnin. apply not_elem_of_cons in Hnin as [? ?].
      rewrite decide_False by done. by apply IH. }
    cbn [mbind result_mbind result_bind]. split.
    + intros Hall. by inversion Hall.
    + intros _. apply foldl_raise.
Qed.

Lemma initial_heaps_keys (self : Acquirer) (sizes : list (Z * Z)) (n : Z)
    (d : list (Z * (list entry * Z))) :
  initial_heaps self sizes n = Ok d → d.*1 = sizes.*1.
Proof.
  revert d. induction sizes as [|[cid cs] sizes IH]; intros d;
    cbn [initial_heaps].
  { by intros [= <-]. }
  destruct (initial_capacity self cs n) as [cap| |]; [|done..].
  cbn [mbind result_mbind result_bind].
  destruct (initial_heaps self sizes n) as [d0| |]; [|done..].
  cbn [mbind result_mbind result_bind]. intros [= <-]. csimpl.
  f_equal. by apply IH.
Qed.

(** X4. How clustered initial acquisition fails: cluster ids without
    cluster sizes raise [AttributeError]; an empty score array with at
    least one cluster raises [ZeroDivisionError]; once the per-cluster
    capacities are computed, missing cluster ids raise [TypeError], and the
    call raises [KeyError] exactly when one of the zipped items carries an
    id that is not a key of [cluster_sizes]; otherwise it returns. *)
Theorem acquire_initial_clustered_errors (self : Acquirer) (xs : list T)
    (U : list float64) (ids : list Z) (sizes : list (Z * Z)) :
  acquire_initial item_lt self xs U (Some ids) None = Raise AttributeError
  ∧ (sizes ≠ [] → U = [] →
     acquire_initial item_lt self xs U (Some ids) (Some sizes)
     = Raise ZeroDivisionError)
  ∧ (∀ d, initial_heaps (T := T) self sizes (Z.of_nat (length U)) = Ok d →
     acquire_initial item_lt self xs U None (Some sizes) = Raise TypeError
     ∧ (Forall (λ t, t.2.2 ∈ sizes.*1) (zip xs (zip U ids)) →
        ∃ sel, acquire_initial item_lt self xs U (Some ids) (Some sizes) = Ok sel)
     ∧ (¬ Forall (λ t, t.2.2 ∈ sizes.*1) (zip xs (zip U ids)) →
        acquire_initial item_lt self xs U (Some ids) (Some sizes)
        = Raise KeyError)).
Proof.
  split_and!.
  - done.
  - intros Hne ->. destruct sizes as [|[cid cs] sizes]; [done|].
    unfold acquire_initial. cbn [length Z.of_nat initial_heaps].
    unfold initial_capacity, Float64.int_truediv. done.
  - intros d Hd. unfold acquire_initial. rewrite Hd.
    cbn [mbind result_mbind result_bind].
    apply initial_heaps_keys in Hd as Hkeys.
    destruct (initial_fold_keys (zip xs (zip U ids)) d) as [Hok Herr].
    rewrite Hkeys in Hok, Herr.
    split_and!; [done| |].
    + intros Hall. destruct (Hok Hall) as [d' ->]. by eexists.
    + intros Hnall. by rewrite (Herr Hnall).
Qed.

End InitialErrors.


(** ** How many items clustered initial acquisition returns *)

Lemma Z_sum_app (l k : list Z) : Z_sum (l ++ k) = Z_sum l + Z_sum k.
Proof. induction l as [|a l IH]; simpl; lia. Qed.

Lemma Z_sum_cons (a : Z) (l : list Z) : Z_sum (a :: l) = a + Z_sum l.
Proof. done. Qed.

(** each id is counted under exactly one key *)
Lemma count_by_key (keys ids : list Z) :
  NoDup keys → Forall (λ c, c ∈ keys) ids →
  Z_sum ((λ c, Z.of_nat (length (filter (λ i, i = c) ids))) <$> keys)
  = Z.of_nat (length ids).
Proof.
  intros Hnd. induction 1 as [|id ids Hid _ IH].
  { clear. induction keys as [|c keys IH]; [done|].
    rewrite fmap_cons, Z_sum_cons, IH. simpl. lia. }
  assert (∀ l : list Z, NoDup l →
    Z_sum ((λ c, Z.of_nat (length (filter (λ i, i = c) (id :: ids)))) <$> l)
    = Z_sum ((λ c, Z.of_nat (length (filter (λ i, i = c) ids))) <$> l)
      + (if decide (id ∈ l) then 1 else 0)) as Hstep.
  { clear. induction l as [|c l IHl]; intros Hnd; [done|].
    apply NoDup_cons in Hnd as [Hc Hnd].
    rewrite !fmap_cons, !Z_sum_cons, (IHl Hnd), filter_cons.
    destruct (decide (id = c)) as [->|Hne].
    - rewrite (decide_True (P := c ∈ c :: l)) by left.
      rewrite (decide_False (P := c ∈ l)) by done.
      simpl length. lia.
    - destruct (decide (id ∈ l)) as [Hin|Hnin].
      + rewrite (decide_True (P := id ∈ c :: l)) by (by right). lia.
      + rewrite (decide_False (P := id ∈ c :: l)); [lia|].
        intros [?|?]%elem_of_cons; done. }
  rewrite (Hstep keys Hnd), IH, decide_True by done. simpl length. lia.
Qed.

Section InitialTotal.
Context `{Countable T} (item_lt : T → T → bool).

(** X5. When [cluster_sizes] gives every cluster its true size, every id is
    a key, and [init_size] does not exceed the pool size (operands below
    [2^53]), clustered initial acquisition returns at least [init_size]
    items and fewer than [init_size] plus the number of clusters. *)
Theorem acquire_initial_clustered_total (self : Acquirer) (xs : list T)
    (U : list float64) (ids : list Z) (sizes : list (Z * Z)) :
  NoDup sizes.*1 → length U = length ids → length xs = length ids →
  Forall (λ c, c ∈ sizes.*1) ids →
  Forall (λ cs, cs.2 = Z.of_nat (length (filter (λ i, i = cs.1) ids))) sizes →
  0 ≤ init_size self ≤ Z.of_nat (length U) →
  0 < Z.of_nat (length U) < 2 ^ 53 →
  init_size self * Z.of_nat (length U) < 2 ^ 53 →
  ∃ items,
    acquire_initial item_lt self xs U (Some ids) (Some sizes) = Ok items
    ∧ init_size self ≤ Z.of_nat (length items)
      < init_size self + Z.of_nat (length sizes).
Proof.
  intros Hnd HU Hxs Hids Hsizes Hinit HN Hsmall.
  set (N := Z.of_nat (length U)) in *.
  set (cnt := λ c : Z, Z.of_nat (length (filter (λ i, i = c) ids))).
  assert (∀ c, 0 ≤ cnt c ≤ N) as Hcnt.
  { intros c. unfold cnt, N. pose proof (length_filter (λ i, i = c) ids). lia. }
  (* the capacities *)
  assert (∃ d, initial_heaps (T := T) self sizes N = Ok d
             ∧ d = (λ cs, (cs.1, ([], ceil_div (init_size self * cs.2) N)))
                     <$> sizes) as (d & Hd & Hdeq).
  { clear Hnd Hids. induction sizes as [|[c s] sizes IH].
    { by exists []. }
    apply Forall_cons in Hsizes as [Hs Hsizes]. simpl in Hs.
    destruct (IH Hsizes) as (d & Hd & ->).
    eexists. cbn [initial_heaps]. unfold initial_capacity.
    destruct (Float64Facts.ceil_truediv_exact (init_size self * s) N)
      as (q & -> & Hq).
    { specialize (Hcnt c). fold (cnt c) in Hs. nia. }
    { lia. }
    cbn [mbind result_mbind result_bind]. rewrite Hq.
    cbn [mbind result_mbind result_bind]. rewrite Hd. split; done. }
  assert (d.*1 = sizes.*1) as Hkeys.
  { rewrite Hdeq, <- list_fmap_compose. by apply list_fmap_ext. }
  destruct (initial_fold_keys item_lt (zip xs (zip U ids)) d) as [Hok _].
  destruct Hok as [d' Hfold].
  { rewrite Hkeys. apply Forall_forall. intros [x [u c]] Hin. simpl.
    apply elem_of_zip_r, elem_of_zip_r in Hin.
    by eapply Forall_forall in Hids. }
  unfold acquire_initial. fold N. rewrite Hd.
  cbn [mbind result_mbind result_bind]. rewrite Hfold.
  cbn [mbind result_mbind result_bind]. eexists. split; [done|].
  apply initial_fold_spec in Hfold; [|by rewrite Hkeys].
  rewrite Hfold, length_fmap.
  set (caps := (λ cs : Z * Z, ceil_div (init_size self * cs.2) N) <$> sizes).
  assert (d = zip_with (λ cs cap, (cs.1, ([], cap))) sizes caps) as ->.
  { rewrite Hdeq. unfold caps. clear.
    induction sizes as [|cs sizes IH]; [done|]. csimpl. by f_equal. }
  assert (∀ cs, cs ∈ sizes →
            init_size self * cs.2 ≤ N * ceil_div (init_size self * cs.2) N
            ∧ N * ceil_div (init_size self * cs.2) N < init_size self * cs.2 + N
            ∧ 0 ≤ ceil_div (init_size self * cs.2) N ≤ cs.2
            ∧ cs.2 = cnt cs.1) as Hcap.
  { intros cs Hcs. rewrite Forall_forall in Hsizes.
    pose proof (Hsizes cs Hcs) as Hs. fold (cnt cs.1) in Hs.
    specialize (Hcnt cs.1). unfold ceil_div.
    set (a := init_size self * cs.2).
    pose proof (Z.div_mod (- a) N ltac:(lia)) as Hdm.
    pose proof (Z.mod_pos_bound (- a) N ltac:(lia)) as Hmb.
    assert (0 ≤ a ≤ N * cs.2) as Ha by (unfold a; nia).
    split_and!; try nia. }
  rewrite settled_length.
  2: { unfold caps. apply Forall_fmap, Forall_forall. intros cs Hcs.
       simpl. destruct (Hcap cs Hcs) as (_ & _ & ? & _). lia. }
  assert (Z_sum (zip_with
            (λ cs cap, Z.min (Z.of_nat (length
               (cluster_entries cs.1 (zip xs (zip U ids))))) cap) sizes caps)
          = Z_sum caps) as ->.
  { unfold caps. clear -Hcap HU Hxs.
    induction sizes as [|cs sizes IH]; [done|]. csimpl.
    rewrite IH by (intros cs' Hcs'; apply Hcap; by right). f_equal.
    destruct (Hcap cs) as (_ & _ & Hle & Hs); [by left|].
    rewrite filed_count by done. fold (cnt cs.1). lia. }
  assert (Z_sum sizes.*2 = N) as Hsum.
  { unfold N. rewrite HU, <- (count_by_key sizes.*1 ids Hnd Hids).
    rewrite <- list_fmap_compose. f_equal.
    apply list_fmap_ext. intros i cs Hi. simpl.
    rewrite Forall_forall in Hsizes. apply Hsizes.
    by eapply list_elem_of_lookup_2. }
  assert (init_size self * Z_sum sizes.*2 ≤ N * Z_sum caps
          ∧ (sizes ≠ [] → N * Z_sum caps
             < init_size self * Z_sum sizes.*2 + N * Z.of_nat (length sizes)))
    as [Hlo Hhi].
  { unfold caps. clear -Hcap HN.
    induction sizes as [|cs sizes IH]; [split; [simpl; lia|done]|].
    destruct IH as [IHlo IHhi]; [intros cs' Hcs'; apply Hcap; by right|].
    destruct (Hcap cs) as (Hl & Hu & _); [by left|]. csimpl.
    split; [nia|]. intros _.
    destruct sizes as [|cs2 sizes]; [simpl in *; nia|].
    specialize (IHhi ltac:(done)). nia. }
  assert (sizes ≠ []) as Hne.
  { intros ->. simpl in Hsum. lia. }
  specialize (Hhi Hne). rewrite Hsum in Hlo, Hhi. nia.
Qed.

End InitialTotal.


Section InitialClusteredBest.
Context `{Countable T} (item_lt : T → T → bool)
  `{!WeakOrderOn item_lt (λ _, True)}.

Abbreviation entry := (float64 * T)%type.

Lemma cluster_entries_not_nan (cid : Z) (xs : list T) (U : list float64)
    (ids : list Z) :
  Forall (λ u, Float64.is_nan u = false) U →
  Forall not_nan (cluster_entries cid (zip xs (zip U ids))).
Proof.
  intros HU. unfold cluster_entries.
  apply Forall_fmap, Forall_forall. intros [x [u c]] Hin.
  apply list_elem_of_filter in Hin as [_ Hin].
  apply elem_of_zip_r, elem_of_zip_l in Hin.
  by eapply Forall_forall in HU.
Qed.

(** X22. In clustered initial acquisition with random scores that are
    not NaN, the items returned are, cluster by cluster in the order of
    [cluster_sizes], the highest-scored items filed under that cluster: no
    item of the cluster that is left out has a score above that of a
    selected one. *)
Theorem acquire_initial_clustered_highest (self : Acquirer) (xs : list T)
    (U : list float64) (ids : list Z) (sizes : list (Z * Z)) (items : list T) :
  NoDup sizes.*1 →
  Forall (λ u, Float64.is_nan u = false) U →
  acquire_initial item_lt self xs U (Some ids) (Some sizes) = Ok items →
  ∃ heaps : list (list entry),
    items = (concat heaps).*2
    ∧ Forall2 (λ cs heap,
                 ∃ rest,
                   cluster_entries cs.1 (zip xs (zip U ids)) ≡ₚ heap ++ rest
                   ∧ ∀ r b, r ∈ rest → b ∈ heap →
                       entry_lt item_lt b r = false
                       ∧ Float64.leb r.1 b.1 = true)
        sizes heaps.
Proof.
  intros Hnd HU Hrun. unfold acquire_initial in Hrun.
  destruct (initial_heaps self sizes (Z.of_nat (length U))) as [d0| |] eqn:Hd0;
    [|done..].
  pose proof (initial_heaps_keys self sizes _ d0 Hd0) as Hkeys.
  apply initial_heaps_spec in Hd0 as (caps & Hcaps & ->).
  cbn [mbind result_mbind result_bind] in Hrun.
  match type of Hrun with
  | context [foldl ?f (Ok ?d) ?l] =>
    destruct (foldl f (Ok d) l) as [d'| |] eqn:Hfold; [|done..]
  end.
  cbn [mbind result_mbind result_bind] in Hrun. simplify_eq.
  apply initial_fold_spec in Hfold; [|by rewrite Hkeys].
  eexists. split; [done|]. rewrite Hfold.
  apply Forall2_length in Hcaps. clear Hfold Hkeys Hnd.
  revert caps Hcaps. induction sizes as [|[cid cs] sizes IH];
    intros [|cap caps] Hlen; simplify_eq/=; constructor.
  - destruct (bounded_selection_best item_lt cap
                (cluster_entries cid (zip xs (zip U ids))))
      as ((rest & Hperm & Hbest) & _).
    { by apply cluster_entries_not_nan. }
    by exists rest.
  - by apply IH.
Qed.

End InitialClusteredBest.

(** ** The constructor *)

Lemma of_int_sign (z : Z) (f : float64) :
  0 ≤ z → Float64.of_int z = Ok f → ∃ s, f = Float64.Fin s ∧ 0 ≤ s.
Proof.
  intros Hz. unfold Float64.of_int, Float64.of_ratio, Float64.round_ratio.
  pose proof Float64Facts.unit_pos.
  destruct (Z.ltb_spec (z * Float64.unit) 0); [nia|].
  destruct (Float64.round_pos (z * Float64.unit) 1) as [| |s|] eqn:Hr; try done.
  intros [= <-]. exists s. split; [done|].
  eapply Float64Facts.round_pos_sign; [| |exact Hr]; lia.
Qed.

Lemma resolve_batch_size_nonneg (size : Z) (v : num) (b : Z) :
  0 ≤ size → resolve_batch_size size v = Ok b → 0 ≤ b.
Proof.
  intros Hsz. unfold resolve_batch_size. destruct v as [z|f].
  { destruct (Z.ltb_spec z 0); [done|]. by intros [= <-]. }
  destruct (Float64.ltb f Float64.zero || Float64.ltb Float64.one f) eqn:Hchk;
    [done|].
  unfold Float64.int_mul.
  destruct (Float64.of_int size) as [fz| |] eqn:Hfz; [|done..].
  apply of_int_sign in Hfz as (s & -> & Hs); [|done].
  cbn [mbind result_mbind result_bind].
  destruct f as [| |m|]; try done.
  assert (0 ≤ m) as Hm.
  { apply orb_false_iff in Hchk as [Hlt _].
    change ((m <? 0) = false) in Hlt. by apply Z.ltb_ge in Hlt. }
  unfold Float64.mul, Float64.round_ratio.
  destruct (Z.ltb_spec (s * m) 0); [nia|].
  destruct (Float64.round_pos (s * m) Float64.unit) as [| |r|] eqn:Hr; try done.
  apply Float64Facts.round_pos_sign in Hr; [|nia|apply Float64Facts.unit_pos].
  simpl. intros [= <-]. pose proof Float64Facts.unit_pos.
  assert ((- r) `div` Float64.unit ≤ 0); [|lia].
  apply Z.div_le_upper_bound; lia.
Qed.

Lemma resolve_batch_sizes_spec (size : Z) (vs : list num) (bs : list Z) :
  resolve_batch_sizes size vs = Ok bs →
  Forall2 (λ v b, resolve_batch_size size v = Ok b) vs bs.
Proof.
  revert bs. induction vs as [|v vs IH]; intros bs; cbn [resolve_batch_sizes].
  { intros [= <-]. constructor. }
  destruct (resolve_batch_size size v) as [b| |] eqn:Hb; [|done..].
  cbn [mbind result_mbind result_bind].
  destruct (resolve_batch_sizes size vs) as [bs'| |]; [|done..].
  cbn [mbind result_mbind result_bind]. intros [= <-].
  constructor; [done|]. by apply IH.
Qed.

(** X6. What a successful [Acquirer.__init__] guarantees: [init_size] is
    not negative, [dim >= 1], [epsilon] lies in [[0, 1]] (so it is not NaN),
    the schedule has one resolved entry per argument, none negative for a
    non-negative pool size; [cluster_superset] is [None] exactly when
    [cluster_type] is [None] or empty, and otherwise it is the configured
    non-zero value or ten times the first schedule entry (a configured
    [0] counts as not configured). *)
Theorem Acquirer_init_validated (a : init_args) (self : Acquirer) :
  Acquirer_init a = Ok self →
  size self = arg_size a
  ∧ 0 ≤ init_size self
  ∧ 1 ≤ dim self
  ∧ Float64.leb Float64.zero (epsilon self) = true
  ∧ Float64.leb (epsilon self) Float64.one = true
  ∧ Forall2 (λ v b, resolve_batch_size (arg_size a) v = Ok b)
      (arg_batch_sizes a) (batch_sizes self)
  ∧ (0 ≤ arg_size a → Forall (λ b, 0 ≤ b) (batch_sizes self))
  ∧ (cluster_superset self = None ↔
     arg_cluster_type a = None ∨ arg_cluster_type a = Some EmptyString)
  ∧ (∀ c, cluster_superset self = Some c →
     (arg_cluster_superset a = Some c ∧ c ≠ 0)
     ∨ ∃ b, batch_sizes self !! 0%nat = Some b ∧ c = 10 * b).
Proof.
  unfold Acquirer_init. intros Hinit.
  destruct (resolve_init_size _ _) as [isz| |] eqn:Hisz; [|done..].
  cbn [mbind result_mbind result_bind] in Hinit.
  destruct (resolve_batch_sizes _ _) as [bss| |] eqn:Hbss; [|done..].
  cbn [mbind result_mbind result_bind] in Hinit.
  destruct (Z.ltb_spec (arg_dim a) 1); [done|].
  cbn [mbind result_mbind result_bind] in Hinit.
  destruct (init_cluster_superset _ _ _) as [cs| |] eqn:Hcs; [|done..].
  cbn [mbind result_mbind result_bind] in Hinit.
  destruct (Float64.leb Float64.zero (arg_epsilon a)) eqn:He0; [|done].
  destruct (Float64.leb (arg_epsilon a) Float64.one) eqn:He1; [|done].
  cbn [andb mbind result_mbind result_bind] in Hinit.
  injection Hinit as <-. cbn.
  apply resolve_batch_sizes_spec in Hbss.
  split_and!; try done.
  - unfold resolve_init_size in Hisz.
    destruct (match arg_init_size a with Float f => _ | Int z => _ end)
      as [n| |]; [|done..].
    cbn [mbind result_mbind result_bind] in Hisz.
    destruct (Z.ltb_spec n 0); [done|]. by simplify_eq.
  - intros Hsz. clear -Hbss Hsz.
    induction Hbss as [|v b vs bs Hb _ IH]; constructor; [|done].
    by eapply resolve_batch_size_nonneg.
  - unfold init_cluster_superset in Hcs.
    destruct (arg_cluster_type a) as [[|c0 ct]|]; simplify_eq.
    + split; [by right|done].
    + split; [|by intros [|]].
      intros ->. exfalso.
      destruct (arg_cluster_superset a) as [c|].
      * destruct (c =? 0); [|done].
        destruct (py_index bss 0); done.
      * destruct (py_index bss 0); done.
    + split; [by left|done].
  - intros c ->. unfold init_cluster_superset in Hcs.
    assert (∀ r, (b ← py_index bss 0; Ok (Some (10 * b))) = Ok (Some r) →
                 ∃ b, bss !! 0%nat = Some b ∧ r = 10 * b) as Hdef.
    { intros r. destruct bss as [|b0 bss']; [done|].
      intros [= <-]. by exists b0. }
    destruct (arg_cluster_type a) as [[|c0 ct]|]; simplify_eq.
    destruct (arg_cluster_superset a) as [c'|].
    + destruct (Z.eqb_spec c' 0).
      * right. by apply Hdef.
      * left. by simplify_eq.
    + right. by apply Hdef.
Qed.


(** ** Fractions of the pool *)

Module Float64Bounds.
Import Float64 Float64Facts.

(** Rounding never carries a quotient past an integer of at most 53 bits
    that bounds it: such an integer is itself a double. *)
Lemma round_pos_le (n d z : Z) :
  0 ≤ n → 0 < d → 0 ≤ z < 2 ^ 53 → n ≤ z * unit * d →
  ∃ r, round_pos n d = Fin r ∧ 0 ≤ r ≤ z * unit.
Proof.
  intros Hn Hd Hz Hle. pose proof unit_pos as Hu. unfold round_pos.
  set (q := n `div` d).
  assert (0 ≤ q) as Hq0 by (by apply Z.div_pos).
  assert (q ≤ z * unit) as Hqz.
  { apply Z.div_le_upper_bound; [done|]. lia. }
  assert (d * q ≤ n) as Hdq by (apply Z.mul_div_le; lia).
  set (e := Z.max 0 (Z.log2 q - 52)).
  assert (unit = 2 ^ 1074) as Hunit by reflexivity.
  assert (0 ≤ e ≤ 1074) as He.
  { split; [lia|]. unfold e. apply Z.max_lub; [lia|].
    destruct (Z.le_gt_cases q 0) as [Hq0'|Hq0'].
    - rewrite (Z.log2_nonpos q Hq0'). lia.
    - assert (Z.log2 q < 1127); [|lia].
      apply Z.log2_lt_pow2; [done|].
      assert (2 ^ 1127 = 2 ^ 53 * unit) as ->
        by (rewrite Hunit, <- Z.pow_add_r by lia; reflexivity).
      nia. }
  set (K := 2 ^ (1074 - e)).
  assert (0 < 2 ^ e) as H2e by (apply Z.pow_pos_nonneg; lia).
  assert (0 < K) as HK by (apply Z.pow_pos_nonneg; lia).
  assert (unit = K * 2 ^ e) as HKe.
  { unfold K. rewrite <- Z.pow_add_r, Hunit by lia. f_equal. lia. }
  rewrite Z.shiftr_div_pow2, !Z.shiftl_mul_pow2 by lia.
  set (m := q `div` 2 ^ e).
  assert (m * 2 ^ e ≤ q < (m + 1) * 2 ^ e) as Hm.
  { unfold m. pose proof (Z.div_mod q (2 ^ e)).
    pose proof (Z.mod_pos_bound q (2 ^ e)). lia. }
  assert (0 ≤ m ≤ z * K) as HmK by nia.
  set (rest := n - m * 2 ^ e * d).
  set (m' := match 2 * rest ?= d * 2 ^ e with
             | Lt => m | Gt => m + 1
             | Eq => if Z.even m then m else m + 1 end).
  assert (m ≤ m' ≤ z * K) as Hm'.
  { assert (m ≤ m' ≤ m + 1) by (unfold m'; repeat case_match; lia).
    destruct (decide (m = z * K)) as [HmE|HmN]; [|lia].
    assert (rest = 0) as Hrest by (unfold rest; nia).
    assert (m' = m) as ->; [|lia].
    unfold m'. rewrite Hrest, Z.mul_0_r.
    replace (0 ?= d * 2 ^ e) with Lt; [done|].
    symmetry. apply Z.compare_lt_iff. nia. }
  assert (m' * 2 ^ e ≤ z * unit) as Hr by nia.
  assert (2 ^ 53 * unit < overflow_units) as Hov by (by vm_compute).
  destruct (Z.leb_spec overflow_units (m' * 2 ^ e)); [nia|].
  eexists. split; [done|]. nia.
Qed.

(** [z * f] for a validated fraction [f] and [0 <= z < 2^53]: a double
    between [0.0] and [float(z)] *)
Lemma int_mul_fraction_le (z : Z) (f : t) :
  0 ≤ z < 2 ^ 53 → leb zero f = true → leb f one = true →
  ∃ p, int_mul z f = Ok (Fin p) ∧ 0 ≤ p ≤ z * unit.
Proof.
  intros Hz H0 H1. pose proof unit_pos as Hu.
  destruct (int_mul_fraction z f Hz H0 H1)
    as (e & p & -> & He & Hmul & Hp & Hround).
  destruct (round_pos_le (z * e * unit) unit z) as (r & Hr & Hrz);
    [nia|done|done|nia|].
  rewrite Hr in Hround. simplify_eq. by exists p.
Qed.

Lemma fraction_checked (f : t) :
  f ≠ NaN →
  ltb f zero || ltb one f = false ↔ leb zero f = true ∧ leb f one = true.
Proof.
  intros Hnan. destruct f as [| |m|]; [done| |
    |split; [done|by intros [? ?]]].
  { split; [done|by intros [? ?]]. }
  change ((m <? 0) || (unit <? m) = false
          ↔ (0 <? m) || (0 =? m) = true ∧ (m <? unit) || (m =? unit) = true).
  rewrite orb_false_iff, !orb_true_iff, !Z.ltb_ge, !Z.ltb_lt, !Z.eqb_eq. lia.
Qed.

Lemma math_ceil_bounds (p z : Z) :
  0 ≤ p ≤ z * unit → ∃ c, math_ceil (Fin p) = Ok c ∧ 0 ≤ c ≤ z.
Proof.
  intros Hp. pose proof unit_pos as Hu. eexists. split; [done|].
  assert (- z ≤ (- p) `div` unit ≤ 0); [|lia]. split.
  - apply Z.div_le_lower_bound; lia.
  - apply Z.div_le_upper_bound; lia.
Qed.

Lemma to_int_bounds (p z : Z) :
  0 ≤ p ≤ z * unit → ∃ c, to_int (Fin p) = Ok c ∧ c = p `div` unit ∧ 0 ≤ c ≤ z.
Proof.
  intros Hp. pose proof unit_pos as Hu. eexists. split; [done|].
  rewrite Z.quot_div_nonneg by lia. split; [done|]. split.
  - apply Z.div_pos; lia.
  - apply Z.div_le_upper_bound; lia.
Qed.

End Float64Bounds.


(** X7. For a pool size [0 <= size < 2^53] a fraction [f] in [[0, 1]]
    resolves, as [init_size] and as a batch size alike, to an integer
    between 0 and [size]; every other float, NaN included, raises
    [ValueError]; [0.0] resolves to 0 and [1.0] to [size]. *)
Theorem fraction_sizes_bounded (size : Z) (f : float64) :
  0 ≤ size < 2 ^ 53 →
  (Float64.leb Float64.zero f = true ∧ Float64.leb f Float64.one = true →
   ∃ n, resolve_init_size size (Float f) = Ok n
        ∧ resolve_batch_size size (Float f) = Ok n
        ∧ 0 ≤ n ≤ size)
  ∧ (¬ (Float64.leb Float64.zero f = true ∧ Float64.leb f Float64.one = true) →
     resolve_init_size size (Float f) = Raise ValueError
     ∧ resolve_batch_size size (Float f) = Raise ValueError)
  ∧ resolve_init_size size (Float Float64.zero) = Ok 0
  ∧ resolve_init_size size (Float Float64.one) = Ok size.
Proof.
  intros Hsz. split_and!.
  - intros [H0 H1]. unfold resolve_init_size, resolve_batch_size.
    rewrite (proj2 (Float64Bounds.fraction_checked f ltac:(by intros ->)))
      by done.
    destruct (Float64Bounds.int_mul_fraction_le size f)
      as (p & -> & Hp); [done..|].
    destruct (Float64Bounds.math_ceil_bounds p size Hp) as (c & Hc & Hcb).
    exists c. cbn [mbind result_mbind result_bind]. rewrite Hc.
    cbn [mbind result_mbind result_bind].
    destruct (Z.ltb_spec c 0); [lia|done].
  - intros Hbad. unfold resolve_init_size, resolve_batch_size, Float64.int_mul.
    destruct (decide (f = Float64.NaN)) as [->|Hnan].
    { rewrite Float64Facts.of_int_exact_ok by done. done. }
    destruct (Float64.ltb f Float64.zero || Float64.ltb Float64.one f) eqn:Hchk;
      [done|].
    by apply Float64Bounds.fraction_checked in Hchk.
  - unfold resolve_init_size. rewrite Float64Facts.int_mul_zero by done.
    done.
  - unfold resolve_init_size. rewrite Float64Facts.int_mul_one by done.
    change (Float64.ltb Float64.one Float64.zero || Float64.ltb Float64.one Float64.one)
      with false.
    cbn [mbind result_mbind result_bind]. unfold Float64.of_int_exact, Float64.math_ceil.
    pose proof Float64Facts.unit_pos.
    replace (- (size * Float64.unit)) with (- size * Float64.unit) by lia.
    rewrite Z.div_mul by lia. cbn [mbind result_mbind result_bind].
    destruct (Z.ltb_spec (- - size) 0); [lia|]. f_equal. lia.
Qed.


(** ** The schedule at the edges *)

(** X8. [batch_size] at the edges: on an empty schedule it raises
    [IndexError] for every [t]; on a non-empty one a negative [t] counts
    from the end, and a [t] below [-len] falls back to the last entry. *)
Theorem batch_size_edges (self : Acquirer) (t : Z) :
  let sched := batch_sizes self in
  let n := Z.of_nat (length sched) in
  (sched = [] → batch_size self t = Raise IndexError)
  ∧ (sched ≠ [] → t < 0 →
     ∃ bs, batch_size self t = Ok bs
       ∧ (- n ≤ t → sched !! Z.to_nat (n + t) = Some bs)
       ∧ (t < - n → last sched = Some bs)).
Proof.
  intros sched n. split.
  - intros HS. unfold batch_size. fold sched. rewrite HS. unfold py_index.
    cbn [length Z.of_nat]. case_ltb; simpl; (done || lia).
  - intros HS Ht. unfold batch_size. fold sched.
    destruct (last sched) as [l|] eqn:Hlast.
    2: { by apply last_None in Hlast. }
    destruct (Z.le_gt_cases (- n) t) as [Hin|Hout].
    + unfold py_index at 1. fold n.
      destruct (Z.ltb_spec t 0); [|lia].
      destruct (Z.leb_spec 0 (t + n)); [|lia].
      destruct (Z.ltb_spec (t + n) n); [|lia]. simpl.
      destruct (lookup_lt_is_Some_2 sched (Z.to_nat (t + n))) as [a Ha]; [lia|].
      rewrite Ha. exists a. split; [done|]. split; [|lia].
      intros _. by rewrite Z.add_comm.
    + unfold py_index at 1. fold n.
      destruct (Z.ltb_spec t 0); [|lia].
      destruct (Z.leb_spec 0 (t + n)); [lia|]. simpl.
      rewrite (py_index_last _ _ Hlast). exists l. split; [done|].
      split; [lia|done].
Qed.


(** ** The reference maximum out of range *)
Section ReferenceEdges.
Context `{Countable T}.

(** X9. The reference maximum at the edges: it is negative infinity when
    nothing is explored, whatever [k] and [dim] are; with [n > 0] explored
    outcomes and [dim == 1], [k > n] or [k <= -n] raises [ValueError], and
    [-n < k <= 0] silently yields the [(n + k)]-th largest outcome, the
    smallest one for [k = 0]. *)
Theorem reference_max_edges (self : Acquirer) (explored : gmap T float64)
    (k : Z) :
  let n := Z.of_nat (base.size explored) in
  let Y := Float64.nan_to_num Float64.NegInf <$> (map_to_list explored).*2 in
  (explored = ∅ → reference_max self explored k = Ok Float64.NegInf)
  ∧ (explored ≠ ∅ → dim self = 1 →
     (n < k ∨ k ≤ - n → reference_max self explored k = Raise ValueError)
     ∧ (- n < k ≤ 0 →
        ∃ v, reference_max self explored k = Ok v ∧ is_kth_largest Y (n + k) v)).
Proof.
  intros n Y. unfold reference_max. split.
  - by intros ->.
  - intros Hne Hdim. rewrite decide_False by done. rewrite Hdim. simpl. fold Y.
    assert (Z.of_nat (length Y) = n) as Hlen.
    { unfold Y, n. by rewrite !length_fmap, length_map_to_list. }
    split.
    + intros Hout. unfold np_partition_at. rewrite Hlen.
      case_ltb; simpl; (done || lia).
    + intros Hin. unfold np_partition_at. rewrite Hlen.
      set (srt := merge_sort np_le Y).
      assert (srt ≡ₚ Y) as Hperm by apply merge_sort_Permutation.
      assert (Z.of_nat (length srt) = n) as Hlen' by (by rewrite Hperm).
      assert (0 < n) as Hn.
      { unfold n. destruct (decide (base.size explored = 0%nat)) as [Hz|]; [|lia].
        by apply map_size_empty_iff in Hz. }
      assert (py_index srt (- k) = match srt !! Z.to_nat (- k) with
                                   | Some a => Ok a
                                   | None => Raise IndexError
                                   end) as Hidx.
      { unfold py_index. rewrite Hlen'.
        destruct (Z.ltb_spec (- k) 0).
        - assert (k = 0) by lia. lia.
        - destruct (Z.leb_spec 0 (- k)); [|lia].
          destruct (Z.ltb_spec (- k) n); [|lia]. done. }
      destruct (Z.ltb_spec (- k) 0); [lia|].
      destruct (Z.leb_spec 0 (- k)); [|lia].
      destruct (Z.ltb_spec (- k) n); [|lia]. simpl. rewrite Hidx.
      destruct (lookup_lt_is_Some_2 srt (Z.to_nat (- k))) as [v Hv]; [lia|].
      rewrite Hv. exists v. split; [done|].
      apply (is_kth_largest_perm srt Y); [done|].
      apply sorted_kth_largest.
      * apply StronglySorted_merge_sort; apply _.
      * rewrite Hperm. apply nan_to_num_no_nan.
      * lia.
      * replace (length srt - Z.to_nat (n + k))%nat with (Z.to_nat (- k)) by lia.
        done.
Qed.

End ReferenceEdges.


(** ** Forced items *)

(** X10. With a validated exploration fraction and a batch size below
    [2^53], the number of forced items [int(batch_size * epsilon)] is
    computed without error and lies between 0 and the batch size. *)
Theorem forced_count_bounds (self : Acquirer) (batch_size : Z) :
  0 ≤ batch_size < 2 ^ 53 →
  Float64.leb Float64.zero (epsilon self) = true →
  Float64.leb (epsilon self) Float64.one = true →
  ∃ m, forced_count self batch_size = Ok m ∧ 0 ≤ m ≤ batch_size.
Proof.
  intros Hbs H0 H1. unfold forced_count.
  destruct (Float64Bounds.int_mul_fraction_le batch_size (epsilon self))
    as (p & -> & Hp); [done..|].
  destruct (Float64Bounds.to_int_bounds p batch_size Hp) as (c & Hc & _ & Hcb).
  exists c. done.
Qed.


Lemma filter_submseteq {A} (P : A → Prop) `{∀ x, Decision (P x)} (l k : list A) :
  l ⊆+ k → filter P l ⊆+ filter P k.
Proof.
  induction 1 as [|x l k _ IH|x y l|x l k _ IH|l k m _ IH1 _ IH2].
  - done.
  - rewrite !filter_cons. destruct (decide (P x)); [by constructor|done].
  - rewrite !filter_cons.
    destruct (decide (P x)), (decide (P y)); try done. by constructor.
  - rewrite filter_cons. destruct (decide (P x)); [by constructor|done].
  - by etrans.
Qed.

Lemma filter_insert_length {A} (P : A → Prop) `{∀ x, Decision (P x)}
    (a : list A) (j : nat) (v : A) :
  (length (filter P (<[j := v]> a)) ≤ S (length (filter P a)))%nat.
Proof.
  revert j. induction a as [|y a IH]; intros j; [simpl; lia|].
  destruct j as [|j]; simpl; rewrite !filter_cons.
  - destruct (decide (P v)), (decide (P y)); simpl; lia.
  - specialize (IH j). destruct (decide (P y)); simpl; lia.
Qed.

Lemma np_put_count {A} (P : A → Prop) `{∀ x, Decision (P x)} (idxs : list nat) :
  ∀ (a : list A) (v : A),
    (length (filter P (np_put a idxs v)) ≤ length (filter P a) + length idxs)%nat.
Proof.
  unfold np_put. induction idxs as [|j idxs IH]; intros a v; simpl; [lia|].
  specialize (IH (<[j := v]> a) v).
  pose proof (filter_insert_length P a j v). lia.
Qed.

Lemma np_put_Forall {A} (P : A → Prop) (idxs : list nat) : ∀ (a : list A) (v : A),
  Forall P a → P v → Forall P (np_put a idxs v).
Proof.
  unfold np_put. induction idxs as [|j idxs IH]; intros a v Ha Hv; [done|].
  simpl. apply IH; [|done]. by apply Forall_insert.
Qed.

Section ForcedSelected.
Context `{Countable T} (item_lt : T → T → bool)
  `{!WeakOrderOn item_lt (λ _, True)}.

Abbreviation entry := (float64 * T)%type.

(** an entry whose utility is [+inf] is kept as long as the candidates
    hold no more than [cap] such entries *)
Lemma top_k_keeps_inf {V} (xs : list T) (U : list float64) (cap : Z)
    (explored : gmap T V) (i : nat) (x : T) :
  0 ≤ cap → length U = length xs →
  Forall (λ u, Float64.is_nan u = false) U →
  Z.of_nat (length (filter (λ u, u = Float64.PosInf) U)) ≤ cap →
  U !! i = Some Float64.PosInf → xs !! i = Some x → explored !! x = None →
  (Float64.PosInf, x) ∈ top_k item_lt xs U cap explored.
Proof.
  intros Hcap Hlen Hnan Hcount HU Hx Hnone.
  set (cands := (λ xu : T * float64, (xu.2, xu.1)) <$>
         filter (λ xu : T * float64, explored !! xu.1 = None) (zip xs U)).
  assert ((Float64.PosInf, x) ∈ cands) as Hin.
  { apply list_elem_of_fmap. exists (x, Float64.PosInf). split; [done|].
    apply list_elem_of_filter. split; [done|].
    apply list_elem_of_lookup. exists i. by apply lookup_zip_Some. }
  destruct (top_k_spec item_lt xs U cap explored) as [_ Hsize].
  rewrite top_k_as_fold in Hsize |- *. fold cands in Hsize |- *.
  destruct (bounded_selection_best item_lt cap cands)
    as ((rest & Hperm & Hbest) & _).
  { by apply zip_not_nan. }
  set (heap := foldl (λ heap e, bounded_push item_lt heap cap e) [] cands) in *.
  rewrite Hperm in Hin. apply elem_of_app in Hin as [Hin|Hin]; [done|].
  exfalso.
  assert (Forall (λ u, u = Float64.PosInf) (heap ++ [(Float64.PosInf, x)]).*1)
    as Hall.
  { apply Forall_fmap, Forall_app. split; [|by repeat constructor].
    apply Forall_forall. intros b Hb.
    destruct (Hbest _ b Hin Hb) as [_ Hle]. simpl in *.
    by destruct b.1. }
  assert ((heap ++ [(Float64.PosInf, x)]).*1 ⊆+ U) as Hsub.
  { trans cands.*1.
    - apply fmap_submseteq. rewrite Hperm. apply submseteq_app; [done|].
      by apply singleton_submseteq_l.
    - unfold cands. rewrite <- list_fmap_compose.
      rewrite (list_fmap_ext _ snd (filter _ (zip xs U))) by done.
      trans (zip xs U).*2.
      + apply fmap_submseteq, sublist_submseteq, sublist_filter.
      + rewrite snd_zip by lia. done. }
  apply (filter_submseteq (λ u, u = Float64.PosInf)) in Hsub.
  rewrite filter_all in Hsub by done.
  apply submseteq_length in Hsub.
  rewrite length_fmap, length_app in Hsub. simpl in Hsub.
  assert (length cands = length heap + length rest)%nat as Hcl.
  { by rewrite Hperm, length_app. }
  assert (0 < length rest)%nat.
  { destruct rest; [by apply elem_of_nil in Hin|simpl; lia]. }
  unfold cands in Hcl. rewrite length_fmap in Hcl. lia.
Qed.

(** X11. In top-k selection every item whose utility the override forced
    to positive infinity is selected unless it is already explored,
    provided the scoring module returned neither NaN nor positive
    infinity. *)
Theorem forced_items_selected (self : Acquirer) (xs : list T)
    (U : list float64) (batch_size : Z) (explored : gmap T float64)
    (Us : list (list float64)) (U' : list float64) (i : nat) (x : T) :
  0 ≤ batch_size < 2 ^ 53 →
  Float64.leb Float64.zero (epsilon self) = true →
  Float64.leb (epsilon self) Float64.one = true →
  length U = length xs →
  Forall (λ u, Float64.is_nan u = false ∧ u ≠ Float64.PosInf) U →
  epsilon_override self batch_size U = Ok Us → U' ∈ Us →
  U' !! i = Some Float64.PosInf → xs !! i = Some x → explored !! x = None →
  x ∈ (top_k item_lt xs U' batch_size explored).*2.
Proof.
  intros Hbs H0 H1 Hlen HU Hover HU' Hi Hx Hnone.
  unfold epsilon_override, forced_count in Hover.
  destruct (Float64Bounds.int_mul_fraction_le batch_size (epsilon self))
    as (p & Hmul & Hp); [done..|].
  rewrite Hmul in Hover. cbn [mbind result_mbind result_bind] in Hover.
  destruct (Float64Bounds.to_int_bounds p batch_size Hp) as (m & Hm & _ & Hmb).
  rewrite Hm in Hover. cbn [mbind result_mbind result_bind] in Hover.
  unfold np_random_choice in Hover.
  destruct (Z.ltb_spec m 0); [lia|].
  destruct (Z.ltb_spec (Z.of_nat (length U)) m); [done|].
  cbn [mbind result_mbind result_bind] in Hover. simplify_eq.
  apply list_elem_of_fmap in HU' as (idxs & -> & Hidxs).
  apply draws_spec in Hidxs as (Hil & _ & _).
  apply list_elem_of_fmap. exists (Float64.PosInf, x). split; [done|].
  apply (top_k_keeps_inf _ _ _ _ i); try done.
  - lia.
  - by rewrite np_put_length.
  - apply np_put_Forall; [|done].
    eapply Forall_impl; [exact HU|]. by intros u [? _].
  - pose proof (np_put_count (λ u, u = Float64.PosInf) idxs U Float64.PosInf)
      as Hc.
    rewrite (filter_none (λ u, u = Float64.PosInf) U) in Hc.
    2: { eapply Forall_impl; [exact HU|]. by intros u [_ ?]. }
    simpl in Hc. lia.
Qed.

End ForcedSelected.


(** ** Greedy batches *)

Section GreedyBatch.
Context `{Countable T} (item_lt : T → T → bool).
Context {P F : Type}.
Context (feature_matrix : list T → F) (cluster_fps : @basis P F → Z → Z → list Z).
Context (calc : Acquirer → list P → list P → float64 → Z → list float64).

(** X12. For a single objective, with [epsilon = 0.0] and no (or an
    unrecognised) [cluster_type], [acquire_batch] has a single outcome,
    whatever the generator does: the items of the top-k over the utilities
    the scoring module returned.  They are unexplored pool items, distinct
    for a duplicate-free pool, and [min(batch_size, |pool \ explored|)]
    many. *)
Theorem acquire_batch_greedy (fuel : nat) (self : Acquirer) (xs : list T)
    (y_means y_vars : list P) (explored : gmap T float64) (k t : Z)
    (current_max : float64) (bs : Z) :
  dim self = 1 →
  epsilon self = Float64.zero →
  (∀ ct, cluster_type self = Some ct →
         ct ≠ "fps"%string ∧ ct ≠ "objs"%string ∧ ct ≠ "both"%string) →
  reference_max self explored k = Ok current_max →
  batch_size self t = Ok bs → 0 ≤ bs < 2 ^ 53 →
  let top_n_scored := match cluster_superset self with
                      | Some c => if c =? 0 then bs else c
                      | None => bs
                      end in
  let U := calc self y_means y_vars current_max top_n_scored in
  let sel := (top_k item_lt xs U bs explored).*2 in
  acquire_batch item_lt feature_matrix cluster_fps calc fuel self xs
    y_means y_vars explored k t = Ok [Ok sel]
  ∧ (∀ x, x ∈ sel → x ∈ xs ∧ x ∉ dom explored)
  ∧ (NoDup xs → NoDup sel)
  ∧ (NoDup xs → length U = length xs →
     Z.of_nat (length sel)
     = Z.min bs (Z.of_nat (base.size (list_to_set xs ∖ dom explored : gset T)))).
Proof.
  intros _ Heps Hct Hmax Hbs Hrange top_n U sel. split_and!.
  - unfold acquire_batch. rewrite Hmax, Hbs.
    cbn [mbind result_mbind result_bind]. fold top_n. fold U.
    unfold epsilon_override, forced_count. rewrite Heps.
    rewrite Float64Facts.int_mul_zero by done.
    cbn [mbind result_mbind result_bind Float64.to_int Float64.zero].
    rewrite Z.quot_0_l by (pose proof Float64Facts.unit_pos; lia).
    unfold np_random_choice.
    destruct (Z.ltb_spec 0 0); [lia|].
    destruct (Z.ltb_spec (Z.of_nat (length U)) 0); [lia|].
    cbn [mbind result_mbind result_bind]. do 2 f_equal.
    unfold select_batch.
    destruct (cluster_type self) as [ct|] eqn:Hcte; [|done].
    destruct (Hct ct eq_refl) as (Hf & Ho & Hb).
    cbv iota. case_decide as Hd; [by destruct Hd|]. by case_decide.
  - intros x Hx. apply top_k_items in Hx as [Hin Hnone].
    split; [done|]. by apply not_elem_of_dom.
  - intros Hnd. by apply top_k_NoDup.
  - intros Hnd Hlen. unfold sel. rewrite length_fmap.
    apply top_k_count; [done..|lia].
Qed.

End GreedyBatch.


(** ** What clustered selection returns *)

Lemma float_neg_involutive (x : float64) : Float64.neg (Float64.neg x) = x.
Proof. destruct x; simpl; try done. f_equal. lia. Qed.

Lemma negated_involutive {T} (e : float64 * T) : negated (negated e) = e.
Proof. destruct e as [u x]. unfold negated. simpl. by rewrite float_neg_involutive. Qed.

Lemma negated_not_nan {T} (e : float64 * T) : not_nan e → not_nan (negated e).
Proof. unfold not_nan, negated. simpl. by destruct e.1. Qed.

Lemma float_neg_ltb (x y : float64) :
  Float64.ltb (Float64.neg x) (Float64.neg y) = Float64.ltb y x.
Proof.
  destruct x, y; simpl; try done.
  destruct (Z.ltb_spec (- m) (- m0)), (Z.ltb_spec m0 m); (done || lia).
Qed.

Lemma dict_get_set_eq {V} (d : list (Z * V)) (k : Z) (v : V) :
  dict_get (dict_set d k v) k = Ok v.
Proof.
  induction d as [|[k0 v0] d IH]; cbn [dict_get dict_set].
  { by rewrite decide_True. }
  destruct (decide (k0 = k)) as [->|Hk0]; cbn [dict_get].
  - by rewrite decide_True.
  - by rewrite decide_False.
Qed.

Lemma dict_get_None_keys {V} (d : list (Z * V)) (k : Z) :
  k ∉ d.*1 → dict_get d k = Raise KeyError.
Proof.
  induction d as [|[k' v] d IH]; intros Hnin; [done|].
  cbn [dict_get]. csimpl in Hnin. apply not_elem_of_cons in Hnin as [? ?].
  rewrite decide_False by done. by apply IH.
Qed.

Section ClusterContents.
Context `{Countable T} (item_lt : T → T → bool).

Abbreviation entry := (float64 * T)%type.
Abbreviation lt := (entry_lt item_lt).
Abbreviation rr := (round_robin item_lt).

(** filing adds the negated entries to the clusters *)
Lemma fill_clusters_concat (cxu : list (Z * entry)) :
  ∀ c c', fill_clusters item_lt c cxu = Ok c' →
    concat c'.*2 ≡ₚ (negated <$> cxu.*2) ++ concat c.*2.
Proof.
  unfold fill_clusters.
  induction cxu as [|[cid [u x]] cxu IH]; intros c c' Hfill.
  { simpl in Hfill. by simplify_eq. }
  apply foldl_result_cons in Hfill as (c1 & Hstep & Hfill). simpl in Hstep.
  destruct (dict_get c cid) as [cl| |] eqn:Hget; [|done..].
  simpl in Hstep. simplify_eq.
  rewrite (IH _ _ Hfill).
  destruct (dict_set_concat c cid cl Hget) as (X & HX & Hset).
  rewrite Hset, HX, heappush_perm. csimpl.
  symmetry. apply Permutation_middle.
Qed.

(** ... each under its own id *)
Lemma fill_clusters_get (cxu : list (Z * entry)) (cid : Z) :
  ∀ c c' h0, fill_clusters item_lt c cxu = Ok c' → dict_get c cid = Ok h0 →
    ∃ h, dict_get c' cid = Ok h
       ∧ h ≡ₚ (negated <$> (filter (λ t : Z * entry, t.1 = cid) cxu).*2) ++ h0.
Proof.
  unfold fill_clusters.
  induction cxu as [|[k [u x]] cxu IH]; intros c c' h0 Hfill Hget.
  { simpl in Hfill. simplify_eq. by exists h0. }
  apply foldl_result_cons in Hfill as (c1 & Hstep & Hfill). simpl in Hstep.
  destruct (dict_get c k) as [cl| |] eqn:Hk; [|done..].
  simpl in Hstep. simplify_eq. rewrite filter_cons. simpl.
  destruct (decide (k = cid)) as [->|Hne].
  - rewrite Hk in Hget. simplify_eq.
    destruct (IH _ _ _ Hfill (dict_get_set_eq c cid _)) as (h & Hh & Hperm).
    exists h. split; [done|]. rewrite Hperm, heappush_perm. csimpl.
    symmetry. apply Permutation_middle.
  - destruct (IH _ _ h0 Hfill) as (h & Hh & Hperm).
    { by rewrite dict_get_set_ne. }
    by exists h.
Qed.

End ClusterContents.


Lemma zip_snd_sublist {A B} (l : list A) (k : list B) : (zip l k).*2 `sublist_of` k.
Proof.
  revert k. induction l as [|a l IH]; intros [|b k]; csimpl;
    try constructor; auto using sublist_nil_l.
Qed.

Lemma concat_empty_clusters {E} (l : list Z) :
  concat ((λ cid : Z, (cid, @nil E)) <$> l).*2 = [].
Proof. induction l as [|cid l IH]; [done|]. by csimpl. Qed.

Lemma empty_clusters_keys {E} (l : list Z) :
  ((λ cid : Z, (cid, @nil E)) <$> l).*1 = l.
Proof.
  rewrite <- list_fmap_compose. rewrite (list_fmap_ext _ id l) by done.
  apply list_fmap_id.
Qed.

Section ClusteredReturns.
Context `{Countable T} (item_lt : T → T → bool).
Context {P F : Type}.
Context (feature_matrix : list T → F) (cluster_fps : @basis P F → Z → Z → list Z).

Abbreviation entry := (float64 * T)%type.
Abbreviation rr := (round_robin item_lt).

Lemma cluster_and_extract_sub fuel self (superset : list entry) bs
    (preds : gmap T P) heap :
  cluster_and_extract item_lt feature_matrix cluster_fps fuel self superset bs
    preds = Ok heap →
  heap ⊆+ superset.
Proof.
  unfold cluster_and_extract.
  destruct (cluster_basis feature_matrix self preds _) as [cb| |]; [|done..].
  cbn [mbind result_mbind result_bind].
  match goal with
  | |- context [fill_clusters _ ?c0 ?cxu] =>
    destruct (fill_clusters item_lt c0 cxu) as [clusters| |] eqn:Hfill;
      [|done..]
  end.
  cbn [mbind result_mbind result_bind]. intros Hrun%rr_submseteq.
  apply fill_clusters_concat in Hfill.
  rewrite concat_empty_clusters, app_nil_r in Hfill.
  rewrite app_nil_l, Hfill, <- list_fmap_compose in Hrun.
  rewrite (list_fmap_ext (negated ∘ negated) id) in Hrun
    by (intros i e _; apply negated_involutive).
  rewrite list_fmap_id, zip_fst_snd in Hrun.
  etrans; [exact Hrun|]. apply sublist_submseteq, zip_snd_sublist.
Qed.

Lemma clustered_batch_sub {V} fuel self xs U bs (explored : gmap T V)
    (preds : gmap T P) heap :
  clustered_batch item_lt feature_matrix cluster_fps fuel self xs U bs
    explored preds = Ok heap →
  ∃ c, cluster_superset self = Some c
     ∧ heap ⊆+ top_k item_lt xs U c explored.
Proof.
  unfold clustered_batch, superset_of.
  destruct (cluster_superset self) as [c|]; [|done].
  cbn [mbind result_mbind result_bind]. intros Hrun%cluster_and_extract_sub.
  by exists c.
Qed.

Lemma clustered_batch_NoDup {V} fuel self xs U bs (explored : gmap T V)
    (preds : gmap T P) heap :
  NoDup xs →
  clustered_batch item_lt feature_matrix cluster_fps fuel self xs U bs
    explored preds = Ok heap →
  NoDup heap.*2.
Proof.
  intros Hnd (c & _ & Hsub)%clustered_batch_sub.
  eapply submseteq_NoDup; [apply fmap_submseteq, Hsub|].
  by apply top_k_NoDup.
Qed.

(** X13. Whatever [clustered_batch] returns is a sub-multiset of the
    superset, the top-k of size [cluster_superset], with the utilities put
    back to their sign; over a duplicate-free pool no item is returned
    twice; the batch holds [batch_size] entries, none for a negative
    [batch_size]. *)
Theorem clustered_batch_distinct {V} (fuel : nat) (self : Acquirer)
    (xs : list T) (U : list float64) (batch_size : Z) (explored : gmap T V)
    (preds : gmap T P) (heap : list entry) :
  clustered_batch item_lt feature_matrix cluster_fps fuel self xs U batch_size
    explored preds = Ok heap →
  (∃ c, cluster_superset self = Some c
      ∧ heap ⊆+ top_k item_lt xs U c explored)
  ∧ (NoDup xs → NoDup heap.*2)
  ∧ Z.of_nat (length heap) = Z.max 0 batch_size.
Proof.
  intros Hrun. split_and!.
  - by eapply clustered_batch_sub.
  - intros Hnd. by eapply clustered_batch_NoDup.
  - destruct (Z.le_gt_cases 0 batch_size) as [Hbs|Hbs].
    + apply clustered_batch_spec in Hrun as [Hlen _]; [lia|done].
    + revert Hrun. unfold clustered_batch, superset_of, cluster_and_extract.
      destruct (cluster_superset self) as [c|]; [|done].
      cbn [mbind result_mbind result_bind].
      destruct (cluster_basis feature_matrix self preds _) as [cb| |]; [|done..].
      cbn [mbind result_mbind result_bind].
      match goal with
      | |- context [fill_clusters _ ?c0 ?cxu] =>
        destruct (fill_clusters item_lt c0 cxu) as [clusters| |]; [|done..]
      end.
      cbn [mbind result_mbind result_bind].
      rewrite rr_full by (simpl; lia). intros [= <-]. simpl. lia.
Qed.

(** X14. [clustered_batch] terminates with a full batch whenever the
    backend returns one cluster id per superset row and [batch_size]
    exceeds neither [cluster_superset] nor the number of unexplored pool
    items: from some fuel on every run returns the same [batch_size]
    distinct unexplored pool items. *)
Theorem clustered_batch_terminates {V} (self : Acquirer) (xs : list T)
    (U : list float64) (batch_size c : Z) (explored : gmap T V)
    (preds : gmap T P) (cb : basis) :
  cluster_superset self = Some c →
  NoDup xs → length U = length xs →
  let superset := top_k item_lt xs U c explored in
  cluster_basis feature_matrix self preds superset.*2 = Ok cb →
  length (cluster_fps cb batch_size (3 * batch_size)) = length superset →
  0 ≤ batch_size ≤
    Z.min c (Z.of_nat (base.size (list_to_set xs ∖ dom explored : gset T))) →
  ∃ fuel0 heap,
    (∀ fuel, (fuel0 ≤ fuel)%nat →
       clustered_batch item_lt feature_matrix cluster_fps fuel self xs U
         batch_size explored preds = Ok heap)
    ∧ Z.of_nat (length heap) = batch_size
    ∧ heap ⊆+ superset
    ∧ NoDup heap.*2
    ∧ ∀ x, x ∈ heap.*2 → x ∈ xs ∧ x ∉ dom explored.
Proof.
  intros Hc Hnd Hlen superset Hcb Hids Hbs.
  assert (Z.of_nat (length superset)
          = Z.min c (Z.of_nat (base.size (list_to_set xs ∖ dom explored : gset T))))
    as Hsize by (apply top_k_count; [done..|lia]).
  destruct (cluster_and_extract_terminates item_lt feature_matrix cluster_fps
              self superset batch_size preds cb Hcb Hids)
    as (fuel0 & heap & Hrun & Hlh); [lia|].
  assert (∀ fuel, (fuel0 ≤ fuel)%nat →
            clustered_batch item_lt feature_matrix cluster_fps fuel self xs U
              batch_size explored preds = Ok heap) as Hrun'.
  { intros fuel Hfuel. unfold clustered_batch, superset_of. rewrite Hc.
    cbn [mbind result_mbind result_bind]. by apply Hrun. }
  exists fuel0, heap. split_and!; [done..| | |].
  - eapply cluster_and_extract_sub. by apply (Hrun fuel0).
  - eapply clustered_batch_NoDup; [done|]. by apply (Hrun' fuel0).
  - intros x Hx.
    destruct (clustered_batch_spec item_lt feature_matrix cluster_fps fuel0 self
                xs U batch_size explored preds heap) as [_ Hitems];
      [lia|by apply Hrun'|].
    destruct (Hitems x Hx) as [Hin Hnone]. split; [done|].
    by apply not_elem_of_dom.
Qed.

(** the loop raises only when it has no cluster to visit or is sent to a
    cluster that does not exist *)
Lemma rr_no_raise o bs fuel : ∀ (c : list (Z * list entry)) r h e,
  o ≠ [] → (∀ cid, cid ∈ o → cid ∈ c.*1) → (∀ cid, cid ∈ r → cid ∈ c.*1) →
  rr fuel c o r h bs ≠ Raise e.
Proof.
  induction fuel as [|fuel IH]; intros c r h e Ho Hko Hkr; cbn [round_robin];
    destruct (Z.ltb_spec (Z.of_nat (length h)) bs); try done.
  assert (∃ cid r', cycle_next o r = Ok (cid, r') ∧ cid ∈ c.*1
                    ∧ ∀ k, k ∈ r' → k ∈ c.*1) as (cid & r' & -> & Hcid & Hr').
  { destruct r as [|cid r'].
    - destruct o as [|cid o']; [done|]. exists cid, o'. split; [done|].
      split; [apply Hko; by left|]. intros k Hk. apply Hko. by right.
    - exists cid, r'. split; [done|].
      split; [apply Hkr; by left|]. intros k Hk. apply Hkr. by right. }
  cbn [mbind result_mbind result_bind fst snd].
  destruct (dict_get_is_Ok c cid Hcid) as [cl Hget]. rewrite Hget.
  cbn [mbind result_mbind result_bind].
  destruct cl as [|top tl]; simpl.
  { by apply IH. }
  destruct (heappop_cons (entry_lt item_lt) top tl) as (tl' & Hpop & _).
  rewrite Hpop. cbn [mbind result_mbind result_bind fst snd].
  apply IH; [done|..]; intros k Hk; rewrite (dict_set_keys _ _ _ _ Hget); auto.
Qed.

(** X15. When [cluster_superset] or the number of unexplored pool items is
    below [batch_size], [clustered_batch] never returns a batch; with a
    backend that returns one id per row of a non-empty superset the
    [while] loop spins forever (no fuel is enough). *)
Theorem clustered_batch_starves {V} (self : Acquirer) (xs : list T)
    (U : list float64) (batch_size c : Z) (explored : gmap T V)
    (preds : gmap T P) :
  cluster_superset self = Some c →
  NoDup xs → length U = length xs → 0 ≤ c →
  Z.min c (Z.of_nat (base.size (list_to_set xs ∖ dom explored : gset T)))
    < batch_size →
  let superset := top_k item_lt xs U c explored in
  (∀ fuel heap,
     clustered_batch item_lt feature_matrix cluster_fps fuel self xs U
       batch_size explored preds ≠ Ok heap)
  ∧ (∀ cb, cluster_basis feature_matrix self preds superset.*2 = Ok cb →
       length (cluster_fps cb batch_size (3 * batch_size)) = length superset →
       superset ≠ [] →
       ∀ fuel,
         clustered_batch item_lt feature_matrix cluster_fps fuel self xs U
           batch_size explored preds = Diverge).
Proof.
  intros Hc Hnd Hlen Hc0 Hlt superset.
  assert (Z.of_nat (length superset) < batch_size) as Hsize.
  { unfold superset. rewrite top_k_count by done. done. }
  assert (∀ fuel heap,
     clustered_batch item_lt feature_matrix cluster_fps fuel self xs U
       batch_size explored preds ≠ Ok heap) as Hnever.
  { intros fuel heap. by eapply clustered_batch_starved. }
  split; [done|].
  intros cb Hcb Hids Hne fuel.
  specialize (Hnever fuel).
  revert Hnever. unfold clustered_batch, superset_of, cluster_and_extract.
  rewrite Hc. cbn [mbind result_mbind result_bind]. fold superset.
  rewrite Hcb. cbn [mbind result_mbind result_bind].
  set (ids := cluster_fps cb batch_size (3 * batch_size)) in *.
  destruct (fill_clusters_ok item_lt (zip ids (zip superset.*1 superset.*2))
              ((λ cid, (cid, [])) <$> np_unique ids))
    as (clusters & Hfill & Hk & _).
  { intros [cid ux] Hin. apply elem_of_zip_l in Hin. simpl.
    rewrite empty_clusters_keys. by apply np_unique_elem. }
  rewrite Hfill. cbn [mbind result_mbind result_bind].
  rewrite empty_clusters_keys in Hk.
  pose proof (cluster_order_perm clusters) as Hop. rewrite Hk in Hop.
  intros Hnever.
  match goal with |- ?run = Diverge => destruct run as [heap|e|] eqn:Hrun end;
    [by destruct (Hnever heap)| |done].
  exfalso. eapply rr_no_raise; [| | |exact Hrun].
  - intros Hnil. rewrite Hnil in Hop. symmetry in Hop.
    apply Permutation_nil_r in Hop.
    destruct superset as [|e0 superset']; [done|].
    destruct ids as [|i0 ids']; [done|].
    assert (i0 ∈ np_unique (i0 :: ids')) as Hin by (apply np_unique_elem; by left).
    rewrite Hop in Hin. by apply elem_of_nil in Hin.
  - intros cid. by rewrite Hop, Hk.
  - intros cid. by rewrite Hop, Hk.
Qed.

(** X16. Whenever hybrid selection returns, for a batch size below [2^53]
    and a duplicate-free pool, the batch holds exactly [batch_size]
    pairwise distinct items, all of them unexplored members of the pool. *)
Theorem cluster_both_distinct {V} (fuel : nat) (self : Acquirer) (xs : list T)
    (U : list float64) (batch_size : Z) (explored : gmap T V)
    (preds : gmap T P) (heap : list entry) :
  0 ≤ batch_size < 2 ^ 53 → NoDup xs →
  cluster_both item_lt feature_matrix cluster_fps fuel self xs U batch_size
    explored preds = Ok heap →
  Z.of_nat (length heap) = batch_size
  ∧ NoDup heap.*2
  ∧ ∀ x, x ∈ heap.*2 → x ∈ xs ∧ x ∉ dom explored.
Proof.
  intros Hbs Hnd. unfold cluster_both, cluster_both_parts.
  rewrite (batch_size_objs_exact cluster_fps batch_size Hbs).
  cbn [mbind result_mbind result_bind].
  destruct (clustered_batch item_lt feature_matrix cluster_fps fuel
              (set_cluster_type self (Some "objs"%string)) xs U
              ((batch_size + 1) `div` 2) explored preds)
    as [objs| |] eqn:Hobjs; [|done..].
  cbn [mbind result_mbind result_bind].
  destruct (clustered_batch item_lt feature_matrix cluster_fps fuel
              (set_cluster_type self (Some "fps"%string)) xs U
              (batch_size - (batch_size + 1) `div` 2)
              (dont_acquire explored objs) preds)
    as [fps| |] eqn:Hfps; [|done..].
  cbn [mbind result_mbind result_bind fst snd]. intros [= <-].
  assert (0 ≤ (batch_size + 1) `div` 2 ≤ batch_size) as Hhalf
    by (Z.div_mod_to_equations; lia).
  pose proof (clustered_batch_NoDup _ _ _ _ _ _ _ _ Hnd Hobjs) as Hndo.
  pose proof (clustered_batch_NoDup _ _ _ _ _ _ _ _ Hnd Hfps) as Hndf.
  apply clustered_batch_spec in Hobjs as [Hlo Hio]; [|lia].
  apply clustered_batch_spec in Hfps as [Hlf Hif]; [|lia].
  split_and!.
  - rewrite length_app. lia.
  - rewrite fmap_app. apply NoDup_app. split_and!; [done| |done].
    intros x Hx. apply Hif in Hx as [_ Hnone].
    by apply (dont_acquire_lookup item_lt) in Hnone as [_ ?].
  - intros x. rewrite fmap_app, elem_of_app. intros [Hx|Hx].
    + apply Hif in Hx as [Hin Hnone].
      apply (dont_acquire_lookup item_lt) in Hnone as [Hnone _].
      split; [done|]. by apply not_elem_of_dom.
    + apply Hio in Hx as [Hin Hnone]. split; [done|]. by apply not_elem_of_dom.
Qed.

End ClusteredReturns.


(** ** The predictions behind the objective basis *)

Section Preds.
Context `{Countable T} (item_lt : T → T → bool).
Context {P F : Type}.
Context (feature_matrix : list T → F) (cluster_fps : @basis P F → Z → Z → list Z).

Abbreviation entry := (float64 * T)%type.

Lemma preds_fold_notin (xs : list T) : ∀ (Ys : list P) (m : gmap T P) (x : T),
  x ∉ xs →
  foldl (λ m (xp : T * P), <[xp.1 := xp.2]> m) m (zip xs Ys) !! x = m !! x.
Proof.
  induction xs as [|x0 xs IH]; intros [|y0 Ys] m x Hx; try done.
  apply not_elem_of_cons in Hx as [Hne Hx]. simpl.
  rewrite IH by done. by apply lookup_insert_ne.
Qed.

Lemma build_preds_lookup (xs : list T) : ∀ (Ys : list P) (i : nat) (x : T) (y : P),
  NoDup xs → xs !! i = Some x → Ys !! i = Some y →
  build_preds xs Ys !! x = Some y.
Proof.
  unfold build_preds. generalize (∅ : gmap T P).
  induction xs as [|x0 xs IH]; intros m [|y0 Ys] i x y Hnd Hx Hy; try done.
  apply NoDup_cons in Hnd as [Hx0 Hnd]. simpl.
  destruct i as [|i]; simplify_eq/=.
  - rewrite preds_fold_notin by done. apply lookup_insert_eq.
  - by eapply IH.
Qed.

Lemma lookup_preds_Forall2 (preds : gmap T P) (l : list T) (rows : list P) :
  Forall2 (λ x y, preds !! x = Some y) l rows → lookup_preds preds l = Ok rows.
Proof.
  induction 1 as [|x y l rows Hxy _ IH]; [done|].
  cbn [lookup_preds]. rewrite Hxy. cbn [mbind result_mbind result_bind].
  rewrite IH. done.
Qed.

Lemma lookup_preds_total (preds : gmap T P) (l : list T) :
  Forall (λ x, is_Some (preds !! x)) l →
  ∃ rows, lookup_preds preds l = Ok rows ∧ length rows = length l.
Proof.
  induction 1 as [|x l [y Hy] _ (rows & IH & Hlen)]; [by exists []|].
  exists (y :: rows). cbn [lookup_preds]. rewrite Hy.
  cbn [mbind result_mbind result_bind]. rewrite IH. split; [done|].
  simpl. by rewrite Hlen.
Qed.

(** X17. The [preds] dictionary built from a duplicate-free pool and its
    predicted means gives every mean back: looking up the whole pool
    returns [Y_means]; looking up the superset never raises [KeyError],
    and for [cluster_type = 'objs'] and a non-empty superset the clustering
    basis is the stack of one prediction per superset entry. *)
Theorem preds_round_trip (self : Acquirer) (xs : list T) (Y_means : list P)
    (U : list float64) (c : Z) (explored : gmap T float64) :
  NoDup xs → length Y_means = length xs →
  let preds := build_preds xs Y_means in
  let superset := top_k item_lt xs U c explored in
  lookup_preds preds xs = Ok Y_means
  ∧ (∃ rows, lookup_preds preds superset.*2 = Ok rows
           ∧ length rows = length superset)
  ∧ (cluster_type self = Some "objs"%string → superset ≠ [] →
     ∃ rows, cluster_basis feature_matrix self preds superset.*2
             = Ok (Stacked rows)
           ∧ length rows = length superset).
Proof.
  intros Hnd Hlen preds superset.
  assert (∀ x, x ∈ xs → is_Some (preds !! x)) as Hcover.
  { intros x [i Hi]%list_elem_of_lookup.
    destruct (lookup_lt_is_Some_2 Y_means i) as [y Hy].
    { apply lookup_lt_Some in Hi. lia. }
    exists y. by eapply build_preds_lookup. }
  assert (∃ rows, lookup_preds preds superset.*2 = Ok rows
                ∧ length rows = length superset) as Hsup.
  { destruct (lookup_preds_total preds superset.*2) as (rows & Hrows & Hl).
    - apply Forall_forall. intros x Hx. apply Hcover.
      by apply top_k_items in Hx as [? _].
    - exists rows. split; [done|]. by rewrite Hl, length_fmap. }
  split_and!; [|done|].
  - apply lookup_preds_Forall2, Forall2_same_length_lookup.
    split; [done|]. intros i x y Hx Hy. by eapply build_preds_lookup.
  - intros Hct Hne. destruct Hsup as (rows & Hrows & Hl).
    exists rows. split; [|done].
    unfold cluster_basis. rewrite decide_True by done. rewrite Hrows.
    cbn [mbind result_mbind result_bind]. unfold np_stack.
    destruct rows; [|done]. destruct superset; done.
Qed.

(** X18. With nothing left to select (every pool item explored, or a
    non-positive [cluster_superset]) objective-space clustering raises
    [ValueError]: [numpy.stack] is handed an empty list. *)
Theorem clustered_batch_exhausted {V} (fuel : nat) (self : Acquirer)
    (xs : list T) (U : list float64) (batch_size c : Z) (explored : gmap T V)
    (preds : gmap T P) :
  cluster_superset self = Some c →
  cluster_type self ≠ Some "fps"%string →
  (c ≤ 0 ∨ ∀ x, x ∈ xs → x ∈ dom explored) →
  clustered_batch item_lt feature_matrix cluster_fps fuel self xs U batch_size
    explored preds = Raise ValueError.
Proof.
  intros Hc Hct Hnone.
  assert (top_k item_lt xs U c explored = []) as Hempty.
  { destruct (top_k_spec item_lt xs U c explored) as [_ Hlen].
    apply length_zero_iff_nil.
    destruct Hnone as [Hc0|Hall]; [lia|].
    rewrite (filter_none (λ xu : T * float64, explored !! xu.1 = None)) in Hlen.
    { simpl in Hlen. lia. }
    apply Forall_forall. intros [x u] Hin Hn. simpl in Hn.
    apply elem_of_zip_l in Hin. apply Hall in Hin.
    by apply not_elem_of_dom in Hn. }
  unfold clustered_batch, superset_of, cluster_and_extract, cluster_basis.
  rewrite Hc. cbn [mbind result_mbind result_bind]. rewrite Hempty.
  case_decide; [done|]. by rewrite decide_False.
Qed.

End Preds.


(** ** The best of each cluster *)

Section ClusterBest.
Context `{Countable T} (item_lt : T → T → bool)
  `{!WeakOrderOn item_lt (λ _, True)}.
Context {P F : Type}.
Context (feature_matrix : list T → F) (cluster_fps : @basis P F → Z → Z → list Z).

Abbreviation entry := (float64 * T)%type.
Abbreviation lt := (entry_lt item_lt).

(** every cluster is an ordered heap of entries without NaN *)
Abbreviation heaps_ordered :=
  (Forall (λ kv : Z * list entry,
             heap_ordered lt kv.2 ∧ Forall not_nan kv.2)).

Lemma fill_clusters_ordered (cxu : list (Z * entry)) :
  ∀ c c', fill_clusters item_lt c cxu = Ok c' →
    heaps_ordered c → Forall (λ t : Z * entry, not_nan t.2) cxu →
    heaps_ordered c'.
Proof.
  unfold fill_clusters.
  induction cxu as [|[cid [u x]] cxu IH]; intros c c' Hfill Hc Hcxu.
  { simpl in Hfill. by simplify_eq. }
  apply foldl_result_cons in Hfill as (c1 & Hstep & Hfill).
  apply Forall_cons in Hcxu as [Hx Hcxu]. simpl in Hstep, Hx.
  destruct (dict_get c cid) as [cl| |] eqn:Hget; [|done..].
  simpl in Hstep. simplify_eq.
  eapply IH; [exact Hfill| |done].
  apply dict_set_Forall; [done|]. simpl.
  apply dict_get_elem in Hget. rewrite Forall_forall in Hc.
  destruct (Hc (cid, cl) Hget) as [Hord Hok]. simpl in Hord, Hok.
  assert (not_nan (Float64.neg u, x)) as Hneg by (by apply (negated_not_nan (u, x))).
  split.
  - by apply (heappush_ordered lt not_nan).
  - rewrite heappush_perm. by constructor.
Qed.

Lemma first_yields_elem (c : list (Z * list entry)) (o : list Z) (e : entry) :
  e ∈ first_yields c o →
  ∃ cid top tl, cid ∈ o ∧ dict_get c cid = Ok (top :: tl) ∧ e = negated top.
Proof.
  unfold first_yields. intros (cid & Hcid & He)%list_elem_of_omap.
  destruct (dict_get c cid) as [[|top tl]| |] eqn:Hget; simplify_eq.
  by exists cid, top, tl.
Qed.

Lemma first_yields_length (c : list (Z * list entry)) (o : list Z) :
  (∀ cid, cid ∈ o → ∃ top tl, dict_get c cid = Ok (top :: tl)) →
  length (first_yields c o) = length o.
Proof.
  unfold first_yields. induction o as [|cid o IH]; intros Hall; [done|].
  cbn [omap list_omap].
  destruct (Hall cid) as (top & tl & ->); [by left|]. simpl.
  f_equal. apply IH. intros k Hk. apply Hall. by right.
Qed.

Lemma float_neg_inj (x y : float64) : Float64.neg x = Float64.neg y → x = y.
Proof.
  intros Heq. by rewrite <- (float_neg_involutive x), Heq, float_neg_involutive.
Qed.

(** X19. With utilities that are not NaN and a backend that returns one id
    per superset row, the batch of [clustered_batch] starts with one entry
    per cluster (up to [batch_size]), and each of them is the best of its
    cluster: no superset entry filed under the same id has a higher
    utility, and among equal utilities none has a smaller item. *)
Theorem clustered_batch_takes_best {V} (self : Acquirer) (xs : list T)
    (U : list float64) (batch_size c : Z) (explored : gmap T V)
    (preds : gmap T P) (cb : basis) :
  cluster_superset self = Some c →
  Forall (λ u, Float64.is_nan u = false) U →
  let superset := top_k item_lt xs U c explored in
  let ids := cluster_fps cb batch_size (3 * batch_size) in
  cluster_basis feature_matrix self preds superset.*2 = Ok cb →
  length ids = length superset →
  0 ≤ batch_size ≤ Z.of_nat (length superset) →
  ∃ fuel0 heap firsts,
    (∀ fuel, (fuel0 ≤ fuel)%nat →
       clustered_batch item_lt feature_matrix cluster_fps fuel self xs U
         batch_size explored preds = Ok heap)
    ∧ firsts `prefix_of` heap
    ∧ Z.of_nat (length firsts)
      = Z.min batch_size (Z.of_nat (length (np_unique ids)))
    ∧ ∀ e, e ∈ firsts →
        ∃ cid, (cid, e) ∈ zip ids superset
          ∧ ∀ e', (cid, e') ∈ zip ids superset →
              Float64.leb e'.1 e.1 = true
              ∧ (e'.1 = e.1 → item_lt e'.2 e.2 = false).
Proof.
  intros Hc HU superset ids Hcb Hids Hbs.
  assert (Forall not_nan superset) as Hnan.
  { unfold superset. rewrite top_k_as_fold.
    match goal with |- context [foldl _ [] ?es] =>
      destruct (bounded_fold_spec item_lt c es []) as [Hsub _];
      assert (Forall not_nan es) as Hes by (by apply zip_not_nan)
    end.
    rewrite app_nil_r in Hsub.
    apply Forall_forall. intros e He.
    eapply elem_of_submseteq in He; [|exact Hsub].
    by eapply Forall_forall in Hes. }
  set (cxu := zip ids superset).
  destruct (fill_clusters_ok item_lt cxu ((λ cid, (cid, [])) <$> np_unique ids))
    as (clusters & Hfill & Hk & Hpop).
  { intros [cid ux] Hin. apply elem_of_zip_l in Hin. simpl.
    rewrite empty_clusters_keys. by apply np_unique_elem. }
  rewrite empty_clusters_keys in Hk.
  rewrite population_empty in Hpop.
  assert (length cxu = length superset) as Hcl.
  { unfold cxu. rewrite length_zip. lia. }
  destruct (rr_from_start item_lt clusters batch_size)
    as (fuel0 & heap & Hrun & Hlen & Hpre).
  { rewrite Hk. apply np_unique_NoDup. }
  { lia. }
  set (order := cluster_order clusters) in *.
  assert (order ≡ₚ np_unique ids) as Hop.
  { unfold order. by rewrite cluster_order_perm, Hk. }
  assert (heaps_ordered clusters) as Hord.
  { eapply fill_clusters_ordered; [exact Hfill| |].
    - apply Forall_fmap, Forall_true. intros cid. simpl.
      split; [exact (heap_ordered_nil _)|constructor].
    - apply Forall_forall. intros [cid e] Hin.
      apply elem_of_zip_r in Hin. by eapply Forall_forall in Hnan. }
  assert (∀ cid, cid ∈ order →
            ∃ h, dict_get clusters cid = Ok h
               ∧ h ≡ₚ negated <$> (filter (λ t : Z * entry, t.1 = cid) cxu).*2)
    as Hget.
  { intros cid Hcid.
    destruct (fill_clusters_get item_lt cxu cid _ clusters [] Hfill)
      as (h & Hh & Hperm).
    - apply dict_get_unique; [rewrite empty_clusters_keys; apply np_unique_NoDup|].
      apply list_elem_of_fmap. exists cid. split; [done|]. by rewrite <- Hop.
    - exists h. split; [done|]. by rewrite app_nil_r in Hperm. }
  assert (∀ cid, cid ∈ order →
            ∃ top tl, dict_get clusters cid = Ok (top :: tl)) as Hfull.
  { intros cid Hcid. destruct (Hget cid Hcid) as (h & Hh & Hperm).
    rewrite Hop in Hcid. apply (proj1 (np_unique_elem _ _)) in Hcid.
    apply list_elem_of_lookup in Hcid as [i Hi].
    destruct (lookup_lt_is_Some_2 superset i) as [e He].
    { pose proof (lookup_lt_Some _ _ _ Hi) as Hi'. fold ids in Hi'. lia. }
    assert (negated e ∈ h) as Hin.
    { rewrite Hperm. apply list_elem_of_fmap. exists e. split; [done|].
      apply list_elem_of_fmap. exists (cid, e). split; [done|].
      apply list_elem_of_filter. split; [done|].
      apply list_elem_of_lookup. exists i.
      by apply lookup_zip_Some. }
    destruct h as [|top tl]; [by apply elem_of_nil in Hin|].
    by exists top, tl. }
  exists fuel0, heap, (take (Z.to_nat batch_size) (first_yields clusters order)).
  split_and!.
  - intros fuel Hfuel. unfold clustered_batch, superset_of, cluster_and_extract.
    rewrite Hc. cbn [mbind result_mbind result_bind]. fold superset.
    rewrite Hcb. cbn [mbind result_mbind result_bind]. fold ids.
    rewrite zip_fst_snd. fold cxu.
    rewrite Hfill. cbn [mbind result_mbind result_bind]. by apply Hrun.
  - done.
  - rewrite length_take, first_yields_length by done.
    rewrite Hop. lia.
  - intros e He%elem_of_take. destruct He as (i & He & _).
    apply list_elem_of_lookup_2, first_yields_elem in He
      as (cid & top & tl & Hcid & Htop & ->).
    destruct (Hget cid Hcid) as (h & Hh & Hperm).
    rewrite Htop in Hh. simplify_eq.
    assert (top ∈ negated <$> (filter (λ t : Z * entry, t.1 = cid) cxu).*2)
      as Hin by (rewrite <- Hperm; by left).
    apply list_elem_of_fmap in Hin as (e0 & -> & Hin).
    apply list_elem_of_fmap in Hin as ([cid' e0'] & -> & Hin).
    apply list_elem_of_filter in Hin as [Hc' Hin]. simpl in Hc'. subst cid'.
    rewrite negated_involutive. exists cid. simpl.
    split; [done|].
    intros e' He'.
    assert (not_nan e0' ∧ not_nan e') as [Hn0 Hn'].
    { split; eapply (Forall_forall not_nan superset); try done.
      - by apply elem_of_zip_r in Hin.
      - by apply elem_of_zip_r in He'. }
    assert (lt (negated e') (negated e0') = false) as Hlt.
    { rewrite Forall_forall in Hord.
      destruct (Hord (cid, negated e0' :: tl)) as [Ho Hok].
      { by apply dict_get_elem. }
      simpl in Ho, Hok.
      eapply (heap_ordered_root lt not_nan); [done..|].
      rewrite Hperm. apply list_elem_of_fmap. exists e'. split; [done|].
      apply list_elem_of_fmap. exists (cid, e'). split; [done|].
      by apply list_elem_of_filter. }
    rewrite (entry_lt_cases item_lt) in Hlt by (by apply negated_not_nan).
    apply orb_false_elim in Hlt as [Hlt Htie]. simpl in Hlt, Htie.
    rewrite float_neg_ltb in Hlt. split.
    + by apply float_not_lt_le.
    + intros Heq. rewrite Heq, bool_decide_eq_true_2 in Htie by done. done.
Qed.

End ClusterBest.


(** ** [_scale_heaps] on empty heaps *)
Section ScaleEmpty.
Context {T : Type} (item_lt : T → T → bool).
Context (math_exp : float64 → result float64).

Abbreviation entry := (float64 * T)%type.

Lemma scale_fold_empty (g temp : float64) (l : list (Z * (list entry * Z))) :
  Forall (λ item, item.2.1 = []) l →
  ∀ acc, foldl (λ acc item, d ← acc; scale_heap item_lt math_exp g temp d item)
           (Ok acc) l = Ok acc.
Proof.
  induction 1 as [|[cid [heap cap]] l Hempty _ IH]; intros acc; [done|].
  cbn [foldl]. simpl in Hempty. subst heap. apply IH.
Qed.

(** X20. Once the temperature is computed, [_scale_heaps] returns exactly
    when every heap is empty, and then it returns the mapping as it
    was. *)
Theorem scale_heaps_returns_iff (d_cid_heap d : list (Z * (list entry * Z)))
    (pred_global_max : float64) (t : Z) (temp_i temp_f temp : float64) :
  _calc_temp math_exp t temp_i temp_f = Ok temp →
  _scale_heaps item_lt math_exp d_cid_heap pred_global_max t temp_i temp_f = Ok d
  ↔ Forall (λ item, item.2.1 = []) d_cid_heap ∧ d = d_cid_heap.
Proof.
  intros Htemp. unfold _scale_heaps. rewrite Htemp.
  cbn [mbind result_mbind result_bind]. split.
  - intros Hrun.
    destruct (decide (Forall (λ item : Z * (list entry * Z), item.2.1 = [])
                        d_cid_heap)) as [Hall|Hex].
    + rewrite scale_fold_empty in Hrun by done. by simplify_eq.
    + apply not_Forall_Exists in Hex; [|apply _].
      rewrite (scale_fold_raises item_lt math_exp) in Hrun; [done|].
      eapply Exists_impl; [exact Hex|]. done.
  - intros [Hall ->]. by apply scale_fold_empty.
Qed.

End ScaleEmpty.


(** ** [scripts/utility.py] *)

(** X21. [cost] raises [ValueError] below one iteration; from one
    iteration on it is at least 720, grows by 152 per iteration and is
    strictly increasing. *)
Theorem cost_linear (it : Z) :
  (it < 1 → cost it = Raise ValueError)
  ∧ (1 ≤ it → ∃ c, cost it = Ok c ∧ 720 ≤ c
       ∧ cost (it + 1) = Ok (c + 152)
       ∧ ∀ it' c', cost it' = Ok c' → (it < it' ↔ c < c')).
Proof.
  unfold cost. split.
  - intros Hlt. by destruct (Z.ltb_spec it 1); [|lia].
  - intros Hge. destruct (Z.ltb_spec it 1); [lia|].
    eexists. split; [done|]. split; [lia|]. split.
    + destruct (Z.ltb_spec (it + 1) 1); [lia|]. f_equal. lia.
    + intros it' c'. destruct (Z.ltb_spec it' 1); [done|].
      intros [= <-]. lia.
Qed.

(** ** Instances on concrete inputs *)

Lemma batch_size_schedule_witness :
  batch_sizes demo_acquirer ≠ [] ∧ 0 ≤ 5 ∧
  ∃ bs, batch_size demo_acquirer 5 = Ok bs ∧
    ((5 < Z.of_nat (length (batch_sizes demo_acquirer))
        ∧ batch_sizes demo_acquirer !! Z.to_nat 5 = Some bs)
     ∨ (Z.of_nat (length (batch_sizes demo_acquirer)) ≤ 5
        ∧ last (batch_sizes demo_acquirer) = Some bs
        ∧ py_index (batch_sizes demo_acquirer) (-1) = Ok bs)).
Proof.
  assert (batch_sizes demo_acquirer ≠ []) as Hne by done.
  assert (0 ≤ 5) as H5 by lia.
  split; [exact Hne|]. split; [exact H5|].
  exact (batch_size_schedule demo_acquirer 5 Hne H5).
Defined.

Lemma top_k_unexplored_count_witness :
  let xs := [10; 20; 30; 40] in
  let U := Float64.of_int_exact <$> [3; 1; 4; 2] in
  let explored : gmap Z float64 := {[ 30 := Float64.zero ]} in
  NoDup xs ∧ length U = length xs ∧ 0 ≤ 2 ∧
  let heap := top_k Z.ltb xs U 2 explored in
  (∀ x, x ∈ heap.*2 → (x ∉ dom explored) ∧ x ∈ xs)
  ∧ NoDup (heap.*2)
  ∧ Z.of_nat (length (heap.*2)) =
      Z.min 2 (Z.of_nat (base.size (list_to_set xs ∖ dom explored : gset Z))).
Proof.
  intros xs U explored.
  assert (NoDup xs) as Hnd by compute_done.
  assert (length U = length xs) as Hlen by reflexivity.
  assert (0 ≤ 2) as Hbs by lia.
  split; [exact Hnd|]. split; [exact Hlen|]. split; [exact Hbs|].
  exact (top_k_unexplored_count Z.ltb xs U 2 explored Hnd Hlen Hbs).
Defined.

Lemma reference_max_kth_largest_witness :
  let explored : gmap Z float64 :=
    {[ 1 := f3; 2 := Float64.NaN; 3 := f5 ]} in
  explored ≠ ∅ ∧ dim demo_acquirer = 1 ∧ 1 ≤ 1 ≤ Z.of_nat (base.size explored)
  ∧ let ys := (map_to_list explored).*2 in
    ∃ v, reference_max demo_acquirer explored 1 = Ok v
      ∧ is_kth_largest (Float64.nan_to_num Float64.NegInf <$> ys) 1 v
      ∧ (Forall (λ y, Float64.is_inf y = false) ys →
         is_kth_largest (nan_as_neginf <$> ys) 1 v)
      ∧ (ys ≡ₚ [f3; Float64.NaN; f5] → 1 = 1 → v = f5).
Proof.
  intros explored.
  assert (explored ≠ ∅) as Hne by (by apply insert_non_empty).
  assert (dim demo_acquirer = 1) as Hdim by reflexivity.
  assert (1 ≤ 1 ≤ Z.of_nat (base.size explored)) as Hk by (vm_compute; split; discriminate).
  split; [exact Hne|]. split; [exact Hdim|]. split; [exact Hk|].
  exact (reference_max_kth_largest demo_acquirer explored 1 Hne Hdim Hk).
Defined.

(** The statement of C3 fails on the code: an explored outcome [+inf] is
    turned into the largest finite double before the maximum is taken, and
    with [k] above the number of explored outcomes [numpy.partition]
    raises. *)
Lemma reference_max_counterexample :
  let explored : gmap Z float64 := {[ 1 := Float64.PosInf ]} in
  (∃ v, reference_max demo_acquirer explored 1 = Ok v
      ∧ ¬ is_kth_largest (nan_as_neginf <$> (map_to_list explored).*2) 1 v)
  ∧ reference_max demo_acquirer explored 2 = Raise ValueError.
Proof.
  intros explored. split; [|by vm_compute].
  exists (Float64.Fin Float64.max_units). split; [by vm_compute|].
  intros (Hin & _). unfold explored in Hin.
  rewrite map_to_list_singleton in Hin. simpl in Hin.
  apply list_elem_of_singleton in Hin. discriminate.
Qed.

Lemma epsilon_override_forces_witness :
  let self := half_random_acquirer in
  let U := Float64.of_int_exact <$> [5; 1; 7; 3; 8] in
  0 ≤ 4 < 2 ^ 53
  ∧ Float64.leb Float64.zero (epsilon self) = true
  ∧ Float64.leb (epsilon self) Float64.one = true
  ∧ ∃ p m,
      Float64.int_mul 4 (epsilon self) = Ok (Float64.Fin p)
      ∧ m = p `div` Float64.unit
      ∧ forced_count self 4 = Ok m
      ∧ (m ≤ Z.of_nat (length U) →
         ∃ idxss,
           np_random_choice (length U) m = Ok idxss
           ∧ epsilon_override self 4 U
             = Ok ((λ idxs, np_put U idxs Float64.PosInf) <$> idxss)
           ∧ NoDup idxss
           ∧ (∀ idxs, idxs ∈ idxss ↔
                NoDup idxs ∧ Z.of_nat (length idxs) = m
                ∧ ∀ i, i ∈ idxs → (i < length U)%nat)
           ∧ ∀ idxs, idxs ∈ idxss →
               length (np_put U idxs Float64.PosInf) = length U
               ∧ ∀ i, (i < length U)%nat →
                   np_put U idxs Float64.PosInf !! i
                   = if decide (i ∈ idxs) then Some Float64.PosInf else U !! i)
      ∧ (epsilon self = Float64.zero →
         m = 0 ∧ epsilon_override self 4 U = Ok [U])
      ∧ (epsilon self = Float64.one → m = 4).
Proof.
  intros self U.
  assert (0 ≤ 4 < 2 ^ 53) as Hbs by (split; [lia|reflexivity]).
  assert (Float64.leb Float64.zero (epsilon self) = true) as H0
    by (vm_compute; reflexivity).
  assert (Float64.leb (epsilon self) Float64.one = true) as H1
    by (vm_compute; reflexivity).
  split; [exact Hbs|]. split; [exact H0|]. split; [exact H1|].
  exact (epsilon_override_forces self 4 U Hbs H0 H1).
Defined.

(** The statement of C2 fails on the code: with [epsilon = 1.0], a batch
    size of two and a single scored item, [floor(epsilon * batch_size)] is
    two, the draw of two distinct indices out of one raises [ValueError],
    and the call of [acquire_batch] ends there with no utility forced. *)
Lemma epsilon_override_counterexample :
  forced_count all_random_acquirer 2 = Ok 2
  ∧ epsilon_override all_random_acquirer 2 [f3] = Raise ValueError
  ∧ acquire_batch Z.ltb (λ xs : list Z, xs) modulo_cluster_fps greedy_calc 10
      all_random_acquirer [10] [f3] [f3] ∅ 1 0 = Raise ValueError.
Proof. split_and!; by vm_compute. Qed.

Lemma superset_ignores_batch_size_witness :
  let self := growing_acquirer in
  let xs := twelve_items in
  let U := Float64.of_int_exact <$> twelve_items in
  let explored : gmap Z float64 := ∅ in
  cluster_superset self = Some 10
  ∧ NoDup xs ∧ length U = length xs
  ∧ 0 ≤ 10 < 11
  ∧ 10 < Z.of_nat (base.size (list_to_set xs ∖ dom explored : gset Z))
  ∧ let superset := top_k Z.ltb xs U 10 explored in
    let claimed := top_k Z.ltb xs U (Z.max 10 11) explored in
    superset_of Z.ltb self xs U explored = Ok superset
    ∧ (∀ fuel (preds : gmap Z float64),
         clustered_batch Z.ltb (λ xs : list Z, xs) modulo_cluster_fps fuel self
           xs U 11 explored preds
         = cluster_and_extract Z.ltb (λ xs : list Z, xs) modulo_cluster_fps
             fuel self superset 11 preds)
    ∧ (∀ x, x ∈ superset.*2 → (x ∉ dom explored) ∧ x ∈ xs)
    ∧ Z.of_nat (length superset) = 10
    ∧ Z.of_nat (length claimed)
      = Z.min 11
          (Z.of_nat (base.size (list_to_set xs ∖ dom explored : gset Z)))
    ∧ (length superset < length claimed)%nat
    ∧ (∀ fuel (preds : gmap Z float64) heap,
         clustered_batch Z.ltb (λ xs : list Z, xs) modulo_cluster_fps fuel self
           xs U 11 explored preds ≠ Ok heap)
    ∧ (∀ (a : init_args) (ct : string),
         Acquirer_init a = Ok self →
         arg_cluster_type a = Some ct → ct ≠ EmptyString →
         arg_cluster_superset a = None →
         ∃ b, batch_sizes self !! 0%nat = Some b ∧ 10 = 10 * b).
Proof.
  intros self xs U explored.
  assert (cluster_superset self = Some 10) as Hc by reflexivity.
  assert (NoDup xs) as Hnd by compute_done.
  assert (length U = length xs) as Hlen by reflexivity.
  assert (0 ≤ 10 < 11) as Hbs by lia.
  assert (10 < Z.of_nat (base.size (list_to_set xs ∖ dom explored : gset Z)))
    as Hmore by (vm_compute; reflexivity).
  split; [exact Hc|]. split; [exact Hnd|]. split; [exact Hlen|].
  split; [exact Hbs|]. split; [exact Hmore|].
  exact (superset_ignores_batch_size Z.ltb (λ xs : list Z, xs)
           modulo_cluster_fps self xs U explored 10 11 Hc Hnd Hlen Hbs Hmore).
Defined.

(** The run behind it: the default of [cluster_superset] with the
    schedule [[1, 11]] is 10; in round 1 the batch size is 11, the superset
    holds ten of the twelve unexplored items, and the loop is still
    running after a thousand rounds. *)
Example growing_schedule_run :
  let xs := twelve_items in
  let U := Float64.of_int_exact <$> twelve_items in
  Acquirer_init growing_args = Ok growing_acquirer
  ∧ batch_size growing_acquirer 1 = Ok 11
  ∧ length (top_k Z.ltb xs U 10 (∅ : gmap Z float64)) = 10%nat
  ∧ select_batch Z.ltb (λ xs : list Z, xs) modulo_cluster_fps 1000
      growing_acquirer xs U U 11 ∅ = Diverge.
Proof. intros xs U. split_and!; by vm_compute. Qed.

Lemma round_robin_terminates_witness :
  NoDup three_clusters.*1
  ∧ 0 ≤ 6 ≤ Z.of_nat (population three_clusters)
  ∧ let sorted := sorted_by_rev (λ c : Z * list (float64 * Z),
                                   Z.of_nat (length c.2)) three_clusters in
    let order := cluster_order three_clusters in
    order = sorted.*1
    ∧ sorted ≡ₚ three_clusters
    ∧ StronglySorted (λ a b, (length b.2 ≤ length a.2)%nat) sorted
    ∧ ∃ fuel0 heap,
        (∀ fuel, (fuel0 ≤ fuel)%nat →
           round_robin Z.ltb fuel three_clusters order order [] 6 = Ok heap)
        ∧ Z.of_nat (length heap) = 6
        ∧ heap ⊆+ negated <$> concat three_clusters.*2
        ∧ take (Z.to_nat 6) (first_yields three_clusters order)
            `prefix_of` heap.
Proof.
  assert (NoDup three_clusters.*1) as Hnd by compute_done.
  assert (0 ≤ 6 ≤ Z.of_nat (population three_clusters)) as Hbs
    by (vm_compute; split; discriminate).
  split; [exact Hnd|]. split; [exact Hbs|].
  exact (round_robin_terminates Z.ltb three_clusters 6 Hnd Hbs).
Defined.

Lemma cluster_both_disjoint_witness :
  let xs := [1; 2; 3; 4; 5; 6; 7; 8] in
  let U := Float64.of_int_exact <$> [5; 1; 7; 3; 8; 2; 6; 4] in
  let explored : gmap Z float64 := {[ 5 := f3 ]} in
  let preds := build_preds xs U in
  let heap_fps := [(Float64.of_int_exact 5, 1)] in
  let heap_objs := [(Float64.of_int_exact 6, 7); (Float64.of_int_exact 7, 3)] in
  0 ≤ 3 < 2 ^ 53
  ∧ cluster_both_parts Z.ltb (λ xs : list Z, xs) modulo_cluster_fps 50
      hybrid_acquirer xs U 3 explored preds = Ok (heap_fps, heap_objs)
  ∧ batch_size_objs 3 = Ok ((3 + 1) `div` 2)
  ∧ Z.of_nat (length heap_objs) = (3 + 1) `div` 2
  ∧ Z.of_nat (length heap_fps) = 3 - (3 + 1) `div` 2
  ∧ (∀ x, x ∈ heap_fps.*2 →
       (x ∉ heap_objs.*2) ∧ (x ∉ dom explored) ∧ x ∈ xs)
  ∧ (∀ x, x ∈ heap_objs.*2 → (x ∉ dom explored) ∧ x ∈ xs)
  ∧ cluster_both Z.ltb (λ xs : list Z, xs) modulo_cluster_fps 50
      hybrid_acquirer xs U 3 explored preds = Ok (heap_fps ++ heap_objs).
Proof.
  intros xs U explored preds heap_fps heap_objs.
  assert (0 ≤ 3 < 2 ^ 53) as Hbs by (split; [lia|reflexivity]).
  assert (cluster_both_parts Z.ltb (λ xs : list Z, xs) modulo_cluster_fps 50
            hybrid_acquirer xs U 3 explored preds = Ok (heap_fps, heap_objs))
    as Hrun by (vm_compute; reflexivity).
  split; [exact Hbs|]. split; [exact Hrun|].
  exact (cluster_both_disjoint Z.ltb (λ xs : list Z, xs) modulo_cluster_fps
           50 hybrid_acquirer xs U 3 explored preds heap_fps heap_objs
           Hbs Hrun).
Defined.

Lemma initial_run_deterministic_witness :
  let xs := [1; 2; 3; 4; 5; 6] in
  let p1 := {| RG := 5; os_entropy := 9 |} in
  let p2 := {| RG := 1234; os_entropy := 77 |} in
  arg_seed clustered_args = Some 42
  ∧ initial_run Z.ltb clustered_args xs None None p1
    = initial_run Z.ltb clustered_args xs None None p2.
Proof.
  intros xs p1 p2.
  assert (arg_seed clustered_args = Some 42) as Hseed by reflexivity.
  split; [exact Hseed|].
  exact (initial_run_deterministic Z.ltb clustered_args 42 xs None None p1 p2
           Hseed).
Defined.

Lemma scale_heaps_raises_witness :
  let d_cid_heap := [(0, ([(Float64.of_ratio 1 2, 7)], 1))] in
  let math_exp := λ _ : float64, Ok Float64.one in
  let temp := Float64.of_int_exact 2 in
  _calc_temp math_exp 0 Float64.one Float64.one = Ok temp
  ∧ Exists (λ item : Z * (list (float64 * Z) * Z), item.2.1 ≠ []) d_cid_heap
  ∧ _scale_heaps Z.ltb math_exp d_cid_heap Float64.one 0 Float64.one Float64.one
    = Raise TypeError.
Proof.
  intros d_cid_heap math_exp temp.
  assert (_calc_temp math_exp 0 Float64.one Float64.one = Ok temp) as Htemp
    by (vm_compute; reflexivity).
  assert (Exists (λ item : Z * (list (float64 * Z) * Z), item.2.1 ≠ [])
            d_cid_heap) as Hex by (by left).
  split; [exact Htemp|]. split; [exact Hex|].
  exact (scale_heaps_raises Z.ltb math_exp d_cid_heap Float64.one 0
           Float64.one Float64.one temp Htemp Hex).
Defined.

Lemma acquire_initial_clustered_count_witness :
  let self := {| size := 4; init_size := 2; batch_sizes := [2]; dim := 1;
                 epsilon := Float64.zero; temp_i := None; temp_f := None;
                 cluster_type := None; cluster_superset := None |} in
  let xs := [10; 20; 30; 40] in
  let U := Float64.of_int_exact <$> [4; 3; 2; 1] in
  let ids := [0; 1; 1; 1] in
  let sizes := [(0, 1); (1, 3)] in
  let items := [10; 30; 20] in
  NoDup sizes.*1 ∧ length U = length ids ∧ length xs = length ids
  ∧ 0 ≤ init_size self ∧ Forall (λ cs, 0 ≤ cs.2) sizes
  ∧ acquire_initial Z.ltb self xs U (Some ids) (Some sizes) = Ok items
  ∧ ∃ caps,
      Forall2 (λ cs cap,
                 initial_capacity self cs.2 (Z.of_nat (length U)) = Ok cap
                 ∧ (init_size self * cs.2 < 2 ^ 53 →
                    Z.of_nat (length U) < 2 ^ 53 →
                    cap = ceil_div (init_size self * cs.2)
                            (Z.of_nat (length U))))
              sizes caps
      ∧ Z.of_nat (length items)
        = Z_sum (zip_with
            (λ cs cap,
               Z.min (Z.of_nat (length (filter (λ c, c = cs.1) ids))) cap)
            sizes caps).
Proof.
  intros self xs U ids sizes items.
  assert (NoDup sizes.*1) as Hnd by compute_done.
  assert (length U = length ids) as HU by reflexivity.
  assert (length xs = length ids) as Hxs by reflexivity.
  assert (0 ≤ init_size self) as Hinit by (simpl; lia).
  assert (Forall (λ cs : Z * Z, 0 ≤ cs.2) sizes) as Hsizes
    by (repeat constructor; simpl; lia).
  assert (acquire_initial Z.ltb self xs U (Some ids) (Some sizes) = Ok items)
    as Hrun by (vm_compute; reflexivity).
  split; [exact Hnd|]. split; [exact HU|]. split; [exact Hxs|].
  split; [exact Hinit|]. split; [exact Hsizes|]. split; [exact Hrun|].
  exact (proj1 acquire_initial_clustered_count Z _ _ Z.ltb self xs U ids sizes
           items Hnd HU Hxs Hinit Hsizes Hrun).
Defined.

(** ** Instances of the further properties *)

Lemma top_k_keeps_highest_witness :
  let explored : gmap Z float64 := {[ 3 := Float64.zero ]} in
  WeakOrderOn Z.ltb (λ _, True)
  ∧ Forall (λ u, Float64.is_nan u = false) six_utilities
  ∧ let heap := top_k Z.ltb six_items six_utilities 2 explored in
    let candidates := (λ xu : Z * float64, (xu.2, xu.1)) <$>
          filter (λ xu : Z * float64, explored !! xu.1 = None)
            (zip six_items six_utilities) in
    (∃ rest, candidates ≡ₚ heap ++ rest
       ∧ ∀ r b, r ∈ rest → b ∈ heap →
           entry_lt Z.ltb b r = false ∧ Float64.leb r.1 b.1 = true)
    ∧ (∀ top tl b, heap = top :: tl → b ∈ tl →
         entry_lt Z.ltb b top = false ∧ Float64.leb top.1 b.1 = true).
Proof.
  intros explored.
  assert (WeakOrderOn Z.ltb (λ _, True)) as Hwo by (split; intros; lia).
  assert (Forall (λ u, Float64.is_nan u = false) six_utilities) as HU
    by (by repeat constructor).
  split; [exact Hwo|]. split; [exact HU|].
  exact (@top_k_keeps_highest Z _ _ Z.ltb Hwo float64 six_items six_utilities 2
           explored HU).
Defined.

Lemma acquire_initial_highest_witness :
  WeakOrderOn Z.ltb (λ _, True)
  ∧ Forall (λ u, Float64.is_nan u = false) six_utilities
  ∧ ∃ heap rest,
      acquire_initial Z.ltb demo_acquirer six_items six_utilities None None
      = Ok heap.*2
      ∧ (λ xu : Z * float64, (xu.2, xu.1)) <$> zip six_items six_utilities
        ≡ₚ heap ++ rest
      ∧ ∀ r b, r ∈ rest → b ∈ heap →
          entry_lt Z.ltb b r = false ∧ Float64.leb r.1 b.1 = true.
Proof.
  assert (WeakOrderOn Z.ltb (λ _, True)) as Hwo by (split; intros; lia).
  assert (Forall (λ u, Float64.is_nan u = false) six_utilities) as HU
    by (by repeat constructor).
  split; [exact Hwo|]. split; [exact HU|].
  exact (@acquire_initial_highest Z Z.ltb Hwo demo_acquirer six_items
           six_utilities HU).
Defined.

Lemma acquire_initial_clustered_total_witness :
  let self := {| size := 4; init_size := 2; batch_sizes := [2]; dim := 1;
                 epsilon := Float64.zero; temp_i := None; temp_f := None;
                 cluster_type := None; cluster_superset := None |} in
  let xs := [10; 20; 30; 40] in
  let U := Float64.of_int_exact <$> [4; 3; 2; 1] in
  let ids := [0; 1; 1; 1] in
  let sizes := [(0, 1); (1, 3)] in
  NoDup sizes.*1 ∧ length U = length ids ∧ length xs = length ids
  ∧ Forall (λ c, c ∈ sizes.*1) ids
  ∧ Forall (λ cs, cs.2 = Z.of_nat (length (filter (λ i, i = cs.1) ids))) sizes
  ∧ 0 ≤ init_size self ≤ Z.of_nat (length U)
  ∧ 0 < Z.of_nat (length U) < 2 ^ 53
  ∧ init_size self * Z.of_nat (length U) < 2 ^ 53
  ∧ ∃ items,
      acquire_initial Z.ltb self xs U (Some ids) (Some sizes) = Ok items
      ∧ init_size self ≤ Z.of_nat (length items)
        < init_size self + Z.of_nat (length sizes).
Proof.
  intros self xs U ids sizes.
  assert (NoDup sizes.*1) as Hnd by compute_done.
  assert (length U = length ids) as HU by reflexivity.
  assert (length xs = length ids) as Hxs by reflexivity.
  assert (Forall (λ c, c ∈ sizes.*1) ids) as Hids by compute_done.
  assert (Forall (λ cs : Z * Z,
                    cs.2 = Z.of_nat (length (filter (λ i, i = cs.1) ids))) sizes)
    as Hsizes by (by repeat constructor).
  assert (0 ≤ init_size self ≤ Z.of_nat (length U)) as Hinit by (simpl; lia).
  assert (0 < Z.of_nat (length U) < 2 ^ 53) as HN
    by (split; [simpl; lia|reflexivity]).
  assert (init_size self * Z.of_nat (length U) < 2 ^ 53) as Hsmall
    by reflexivity.
  split; [exact Hnd|]. split; [exact HU|]. split; [exact Hxs|].
  split; [exact Hids|]. split; [exact Hsizes|]. split; [exact Hinit|].
  split; [exact HN|]. split; [exact Hsmall|].
  exact (acquire_initial_clustered_total Z.ltb self xs U ids sizes
           Hnd HU Hxs Hids Hsizes Hinit HN Hsmall).
Defined.

Lemma Acquirer_init_validated_witness :
  let a := clustered_args in
  let self := clustered_acquirer in
  Acquirer_init a = Ok self
  ∧ size self = arg_size a
  ∧ 0 ≤ init_size self
  ∧ 1 ≤ dim self
  ∧ Float64.leb Float64.zero (epsilon self) = true
  ∧ Float64.leb (epsilon self) Float64.one = true
  ∧ Forall2 (λ v b, resolve_batch_size (arg_size a) v = Ok b)
      (arg_batch_sizes a) (batch_sizes self)
  ∧ (0 ≤ arg_size a → Forall (λ b, 0 ≤ b) (batch_sizes self))
  ∧ (cluster_superset self = None ↔
     arg_cluster_type a = None ∨ arg_cluster_type a = Some EmptyString)
  ∧ (∀ c, cluster_superset self = Some c →
     (arg_cluster_superset a = Some c ∧ c ≠ 0)
     ∨ ∃ b, batch_sizes self !! 0%nat = Some b ∧ c = 10 * b).
Proof.
  intros a self.
  assert (Acquirer_init a = Ok self) as Hinit by (vm_compute; reflexivity).
  split; [exact Hinit|].
  exact (Acquirer_init_validated a self Hinit).
Defined.

Lemma fraction_sizes_bounded_witness :
  let f := Float64.of_ratio 3 10 in
  0 ≤ 10 < 2 ^ 53
  ∧ (Float64.leb Float64.zero f = true ∧ Float64.leb f Float64.one = true →
     ∃ n, resolve_init_size 10 (Float f) = Ok n
          ∧ resolve_batch_size 10 (Float f) = Ok n
          ∧ 0 ≤ n ≤ 10)
  ∧ (¬ (Float64.leb Float64.zero f = true ∧ Float64.leb f Float64.one = true) →
     resolve_init_size 10 (Float f) = Raise ValueError
     ∧ resolve_batch_size 10 (Float f) = Raise ValueError)
  ∧ resolve_init_size 10 (Float Float64.zero) = Ok 0
  ∧ resolve_init_size 10 (Float Float64.one) = Ok 10.
Proof.
  intros f.
  assert (0 ≤ 10 < 2 ^ 53) as Hsz by (split; [lia|reflexivity]).
  split; [exact Hsz|].
  exact (fraction_sizes_bounded 10 f Hsz).
Defined.

Lemma forced_count_bounds_witness :
  let self := half_random_acquirer in
  0 ≤ 4 < 2 ^ 53
  ∧ Float64.leb Float64.zero (epsilon self) = true
  ∧ Float64.leb (epsilon self) Float64.one = true
  ∧ ∃ m, forced_count self 4 = Ok m ∧ 0 ≤ m ≤ 4.
Proof.
  intros self.
  assert (0 ≤ 4 < 2 ^ 53) as Hbs by (split; [lia|reflexivity]).
  assert (Float64.leb Float64.zero (epsilon self) = true) as H0
    by (vm_compute; reflexivity).
  assert (Float64.leb (epsilon self) Float64.one = true) as H1
    by (vm_compute; reflexivity).
  split; [exact Hbs|]. split; [exact H0|]. split; [exact H1|].
  exact (forced_count_bounds self 4 Hbs H0 H1).
Defined.

Lemma forced_items_selected_witness :
  let self := half_random_acquirer in
  let xs := [10; 20; 30] in
  let U := three_utilities in
  let explored : gmap Z float64 := {[ 30 := f3 ]} in
  let U' := np_put three_utilities [0; 1]%nat Float64.PosInf in
  WeakOrderOn Z.ltb (λ _, True)
  ∧ 0 ≤ 4 < 2 ^ 53
  ∧ Float64.leb Float64.zero (epsilon self) = true
  ∧ Float64.leb (epsilon self) Float64.one = true
  ∧ length U = length xs
  ∧ Forall (λ u, Float64.is_nan u = false ∧ u ≠ Float64.PosInf) U
  ∧ epsilon_override self 4 U = Ok forced_outcomes
  ∧ U' ∈ forced_outcomes
  ∧ U' !! 1%nat = Some Float64.PosInf
  ∧ xs !! 1%nat = Some 20
  ∧ explored !! 20 = None
  ∧ 20 ∈ (top_k Z.ltb xs U' 4 explored).*2.
Proof.
  intros self xs U explored U'.
  assert (WeakOrderOn Z.ltb (λ _, True)) as Hwo by (split; intros; lia).
  assert (0 ≤ 4 < 2 ^ 53) as Hbs by (split; [lia|reflexivity]).
  assert (Float64.leb Float64.zero (epsilon self) = true) as H0
    by (vm_compute; reflexivity).
  assert (Float64.leb (epsilon self) Float64.one = true) as H1
    by (vm_compute; reflexivity).
  assert (length U = length xs) as Hlen by reflexivity.
  assert (Forall (λ u, Float64.is_nan u = false ∧ u ≠ Float64.PosInf) U) as HU
    by (by repeat constructor).
  assert (epsilon_override self 4 U = Ok forced_outcomes) as Hover
    by (vm_compute; reflexivity).
  assert (U' ∈ forced_outcomes) as HU' by (vm_compute; left).
  assert (U' !! 1%nat = Some Float64.PosInf) as Hi by reflexivity.
  assert (xs !! 1%nat = Some 20) as Hx by reflexivity.
  assert (explored !! 20 = None) as Hnone by reflexivity.
  split; [exact Hwo|]. split; [exact Hbs|]. split; [exact H0|].
  split; [exact H1|]. split; [exact Hlen|]. split; [exact HU|].
  split; [exact Hover|]. split; [exact HU'|]. split; [exact Hi|].
  split; [exact Hx|]. split; [exact Hnone|].
  exact (@forced_items_selected Z _ _ Z.ltb Hwo self xs U 4 explored
           forced_outcomes U' 1%nat 20 Hbs H0 H1 Hlen HU Hover HU' Hi Hx Hnone).
Defined.

Lemma acquire_batch_greedy_witness :
  let self := demo_acquirer in
  let explored : gmap Z float64 := {[ 5 := f3 ]} in
  dim self = 1
  ∧ epsilon self = Float64.zero
  ∧ (∀ ct, cluster_type self = Some ct →
           ct ≠ "fps"%string ∧ ct ≠ "objs"%string ∧ ct ≠ "both"%string)
  ∧ reference_max self explored 1 = Ok f3
  ∧ batch_size self 0 = Ok 3
  ∧ 0 ≤ 3 < 2 ^ 53
  ∧ let top_n_scored := match cluster_superset self with
                        | Some c => if c =? 0 then 3 else c
                        | None => 3
                        end in
    let U := greedy_calc self six_utilities six_utilities f3 top_n_scored in
    let sel := (top_k Z.ltb six_items U 3 explored).*2 in
    acquire_batch Z.ltb (λ xs : list Z, xs) modulo_cluster_fps greedy_calc 10
      self six_items six_utilities six_utilities explored 1 0 = Ok [Ok sel]
    ∧ (∀ x, x ∈ sel → x ∈ six_items ∧ x ∉ dom explored)
    ∧ (NoDup six_items → NoDup sel)
    ∧ (NoDup six_items → length U = length six_items →
       Z.of_nat (length sel)
       = Z.min 3 (Z.of_nat (base.size
                   (list_to_set six_items ∖ dom explored : gset Z)))).
Proof.
  intros self explored.
  assert (dim self = 1) as Hdim by reflexivity.
  assert (epsilon self = Float64.zero) as Heps by reflexivity.
  assert (∀ ct, cluster_type self = Some ct →
            ct ≠ "fps"%string ∧ ct ≠ "objs"%string ∧ ct ≠ "both"%string) as Hct
    by (intros ct Hct; discriminate Hct).
  assert (reference_max self explored 1 = Ok f3) as Hmax
    by (vm_compute; reflexivity).
  assert (batch_size self 0 = Ok 3) as Hbs by reflexivity.
  assert (0 ≤ 3 < 2 ^ 53) as Hrange by (split; [lia|reflexivity]).
  split; [exact Hdim|].
  split; [exact Heps|]. split; [exact Hct|]. split; [exact Hmax|].
  split; [exact Hbs|]. split; [exact Hrange|].
  exact (acquire_batch_greedy Z.ltb (λ xs : list Z, xs) modulo_cluster_fps
           greedy_calc 10 self six_items six_utilities six_utilities explored
           1 0 f3 3 Hdim Heps Hct Hmax Hbs Hrange).
Defined.

Lemma clustered_batch_distinct_witness :
  let explored : gmap Z float64 := ∅ in
  let preds : gmap Z float64 := ∅ in
  let heap := [(Float64.of_int_exact 7, 3); (Float64.of_int_exact 8, 5)] in
  clustered_batch Z.ltb (λ xs : list Z, xs) modulo_cluster_fps 50 fps_acquirer
    six_items six_utilities 2 explored preds = Ok heap
  ∧ (∃ c, cluster_superset fps_acquirer = Some c
        ∧ heap ⊆+ top_k Z.ltb six_items six_utilities c explored)
  ∧ (NoDup six_items → NoDup heap.*2)
  ∧ Z.of_nat (length heap) = Z.max 0 2.
Proof.
  intros explored preds heap.
  assert (clustered_batch Z.ltb (λ xs : list Z, xs) modulo_cluster_fps 50
            fps_acquirer six_items six_utilities 2 explored preds = Ok heap)
    as Hrun by (vm_compute; reflexivity).
  split; [exact Hrun|].
  exact (clustered_batch_distinct Z.ltb (λ xs : list Z, xs) modulo_cluster_fps
           50 fps_acquirer six_items six_utilities 2 explored preds heap Hrun).
Defined.

Lemma clustered_batch_terminates_witness :
  let self := fps_acquirer in
  let explored : gmap Z float64 := ∅ in
  let preds : gmap Z float64 := ∅ in
  let cb : @basis float64 (list Z) := Features [4; 1; 3; 5] in
  cluster_superset self = Some 4
  ∧ NoDup six_items ∧ length six_utilities = length six_items
  ∧ let superset := top_k Z.ltb six_items six_utilities 4 explored in
    cluster_basis (λ xs : list Z, xs) self preds superset.*2 = Ok cb
    ∧ length (modulo_cluster_fps cb 2 (3 * 2)) = length superset
    ∧ 0 ≤ 2 ≤ Z.min 4 (Z.of_nat (base.size
                 (list_to_set six_items ∖ dom explored : gset Z)))
    ∧ ∃ fuel0 heap,
        (∀ fuel, (fuel0 ≤ fuel)%nat →
           clustered_batch Z.ltb (λ xs : list Z, xs) modulo_cluster_fps fuel
             self six_items six_utilities 2 explored preds = Ok heap)
        ∧ Z.of_nat (length heap) = 2
        ∧ heap ⊆+ superset
        ∧ NoDup heap.*2
        ∧ ∀ x, x ∈ heap.*2 → x ∈ six_items ∧ x ∉ dom explored.
Proof.
  intros self explored preds cb.
  assert (cluster_superset self = Some 4) as Hc by reflexivity.
  assert (NoDup six_items) as Hnd by compute_done.
  assert (length six_utilities = length six_items) as Hlen by reflexivity.
  assert (cluster_basis (λ xs : list Z, xs) self preds
            (top_k Z.ltb six_items six_utilities 4 explored).*2 = Ok cb) as Hcb
    by (vm_compute; reflexivity).
  assert (length (modulo_cluster_fps cb 2 (3 * 2))
          = length (top_k Z.ltb six_items six_utilities 4 explored)) as Hids
    by (vm_compute; reflexivity).
  assert (0 ≤ 2 ≤ Z.min 4 (Z.of_nat (base.size
            (list_to_set six_items ∖ dom explored : gset Z)))) as Hbs
    by (vm_compute; split; discriminate).
  split; [exact Hc|]. split; [exact Hnd|]. split; [exact Hlen|].
  split; [exact Hcb|]. split; [exact Hids|]. split; [exact Hbs|].
  exact (clustered_batch_terminates Z.ltb (λ xs : list Z, xs)
           modulo_cluster_fps self six_items six_utilities 2 4 explored preds
           cb Hc Hnd Hlen Hcb Hids Hbs).
Defined.

Lemma clustered_batch_starves_witness :
  let self := narrow_acquirer in
  let xs := [10; 20; 30] in
  let U := Float64.of_int_exact <$> [1; 3; 2] in
  let explored : gmap Z float64 := ∅ in
  let preds := build_preds xs U in
  cluster_superset self = Some 1
  ∧ NoDup xs ∧ length U = length xs ∧ 0 ≤ 1
  ∧ Z.min 1 (Z.of_nat (base.size (list_to_set xs ∖ dom explored : gset Z))) < 2
  ∧ let superset := top_k Z.ltb xs U 1 explored in
    (∀ fuel heap,
       clustered_batch Z.ltb (λ xs : list Z, xs) modulo_cluster_fps fuel self
         xs U 2 explored preds ≠ Ok heap)
    ∧ (∀ cb, cluster_basis (λ xs : list Z, xs) self preds superset.*2 = Ok cb →
         length (modulo_cluster_fps cb 2 (3 * 2)) = length superset →
         superset ≠ [] →
         ∀ fuel,
           clustered_batch Z.ltb (λ xs : list Z, xs) modulo_cluster_fps fuel
             self xs U 2 explored preds = Diverge).
Proof.
  intros self xs U explored preds.
  assert (cluster_superset self = Some 1) as Hc by reflexivity.
  assert (NoDup xs) as Hnd by compute_done.
  assert (length U = length xs) as Hlen by reflexivity.
  assert (0 ≤ 1) as Hc0 by lia.
  assert (Z.min 1 (Z.of_nat (base.size
            (list_to_set xs ∖ dom explored : gset Z))) < 2) as Hlt
    by (vm_compute; reflexivity).
  split; [exact Hc|]. split; [exact Hnd|]. split; [exact Hlen|].
  split; [exact Hc0|]. split; [exact Hlt|].
  exact (clustered_batch_starves Z.ltb (λ xs : list Z, xs) modulo_cluster_fps
           self xs U 2 1 explored preds Hc Hnd Hlen Hc0 Hlt).
Defined.

Lemma cluster_both_distinct_witness :
  let xs := [1; 2; 3; 4; 5; 6; 7; 8] in
  let U := Float64.of_int_exact <$> [5; 1; 7; 3; 8; 2; 6; 4] in
  let explored : gmap Z float64 := {[ 5 := f3 ]} in
  let preds := build_preds xs U in
  let heap := [(Float64.of_int_exact 5, 1); (Float64.of_int_exact 6, 7);
               (Float64.of_int_exact 7, 3)] in
  0 ≤ 3 < 2 ^ 53 ∧ NoDup xs
  ∧ cluster_both Z.ltb (λ xs : list Z, xs) modulo_cluster_fps 50
      hybrid_acquirer xs U 3 explored preds = Ok heap
  ∧ Z.of_nat (length heap) = 3
  ∧ NoDup heap.*2
  ∧ ∀ x, x ∈ heap.*2 → x ∈ xs ∧ x ∉ dom explored.
Proof.
  intros xs U explored preds heap.
  assert (0 ≤ 3 < 2 ^ 53) as Hbs by (split; [lia|reflexivity]).
  assert (NoDup xs) as Hnd by compute_done.
  assert (cluster_both Z.ltb (λ xs : list Z, xs) modulo_cluster_fps 50
            hybrid_acquirer xs U 3 explored preds = Ok heap) as Hrun
    by (vm_compute; reflexivity).
  split; [exact Hbs|]. split; [exact Hnd|]. split; [exact Hrun|].
  exact (cluster_both_distinct Z.ltb (λ xs : list Z, xs) modulo_cluster_fps 50
           hybrid_acquirer xs U 3 explored preds heap Hbs Hnd Hrun).
Defined.

Lemma preds_round_trip_witness :
  let self := clustered_acquirer in
  let explored : gmap Z float64 := {[ 5 := f3 ]} in
  NoDup six_items ∧ length six_utilities = length six_items
  ∧ let preds := build_preds six_items six_utilities in
    let superset := top_k Z.ltb six_items six_utilities 3 explored in
    lookup_preds preds six_items = Ok six_utilities
    ∧ (∃ rows, lookup_preds preds superset.*2 = Ok rows
             ∧ length rows = length superset)
    ∧ (cluster_type self = Some "objs"%string → superset ≠ [] →
       ∃ rows, cluster_basis (λ xs : list Z, xs) self preds superset.*2
               = Ok (Stacked rows)
             ∧ length rows = length superset).
Proof.
  intros self explored.
  assert (NoDup six_items) as Hnd by compute_done.
  assert (length six_utilities = length six_items) as Hlen by reflexivity.
  split; [exact Hnd|]. split; [exact Hlen|].
  exact (preds_round_trip Z.ltb (λ xs : list Z, xs) self six_items
           six_utilities six_utilities 3 explored Hnd Hlen).
Defined.

Lemma clustered_batch_exhausted_witness :
  let self := narrow_acquirer in
  let xs := [10; 20] in
  let U := Float64.of_int_exact <$> [1; 3] in
  let explored : gmap Z float64 := {[ 10 := f3; 20 := f5 ]} in
  let preds := build_preds xs U in
  cluster_superset self = Some 1
  ∧ cluster_type self ≠ Some "fps"%string
  ∧ (1 ≤ 0 ∨ ∀ x, x ∈ xs → x ∈ dom explored)
  ∧ clustered_batch Z.ltb (λ xs : list Z, xs) modulo_cluster_fps 50 self xs U
      2 explored preds = Raise ValueError.
Proof.
  intros self xs U explored preds.
  assert (cluster_superset self = Some 1) as Hc by reflexivity.
  assert (cluster_type self ≠ Some "fps"%string) as Hct by discriminate.
  assert (1 ≤ 0 ∨ ∀ x, x ∈ xs → x ∈ dom explored) as Hall.
  { right. intros x Hx. apply elem_of_dom.
    apply elem_of_cons in Hx as [->|Hx]; [by eexists|].
    apply list_elem_of_singleton in Hx as ->. by eexists. }
  split; [exact Hc|]. split; [exact Hct|]. split; [exact Hall|].
  exact (clustered_batch_exhausted Z.ltb (λ xs : list Z, xs) modulo_cluster_fps
           50 self xs U 2 1 explored preds Hc Hct Hall).
Defined.

Lemma clustered_batch_takes_best_witness :
  let self := fps_acquirer in
  let explored : gmap Z float64 := ∅ in
  let preds : gmap Z float64 := ∅ in
  let cb : @basis float64 (list Z) := Features [4; 1; 3; 5] in
  WeakOrderOn Z.ltb (λ _, True)
  ∧ cluster_superset self = Some 4
  ∧ Forall (λ u, Float64.is_nan u = false) six_utilities
  ∧ let superset := top_k Z.ltb six_items six_utilities 4 explored in
    let ids := modulo_cluster_fps cb 2 (3 * 2) in
    cluster_basis (λ xs : list Z, xs) self preds superset.*2 = Ok cb
    ∧ length ids = length superset
    ∧ 0 ≤ 2 ≤ Z.of_nat (length superset)
    ∧ ∃ fuel0 heap firsts,
        (∀ fuel, (fuel0 ≤ fuel)%nat →
           clustered_batch Z.ltb (λ xs : list Z, xs) modulo_cluster_fps fuel
             self six_items six_utilities 2 explored preds = Ok heap)
        ∧ firsts `prefix_of` heap
        ∧ Z.of_nat (length firsts)
          = Z.min 2 (Z.of_nat (length (np_unique ids)))
        ∧ ∀ e, e ∈ firsts →
            ∃ cid, (cid, e) ∈ zip ids superset
              ∧ ∀ e', (cid, e') ∈ zip ids superset →
                  Float64.leb e'.1 e.1 = true
                  ∧ (e'.1 = e.1 → Z.ltb e'.2 e.2 = false).
Proof.
  intros self explored preds cb.
  assert (WeakOrderOn Z.ltb (λ _, True)) as Hwo by (split; intros; lia).
  assert (cluster_superset self = Some 4) as Hc by reflexivity.
  assert (Forall (λ u, Float64.is_nan u = false) six_utilities) as HU
    by (by repeat constructor).
  assert (cluster_basis (λ xs : list Z, xs) self preds
            (top_k Z.ltb six_items six_utilities 4 explored).*2 = Ok cb) as Hcb
    by (vm_compute; reflexivity).
  assert (length (modulo_cluster_fps cb 2 (3 * 2))
          = length (top_k Z.ltb six_items six_utilities 4 explored)) as Hids
    by (vm_compute; reflexivity).
  assert (0 ≤ 2 ≤ Z.of_nat (length
            (top_k Z.ltb six_items six_utilities 4 explored))) as Hbs
    by (vm_compute; split; discriminate).
  split; [exact Hwo|]. split; [exact Hc|]. split; [exact HU|].
  split; [exact Hcb|]. split; [exact Hids|]. split; [exact Hbs|].
  exact (@clustered_batch_takes_best Z _ _ Z.ltb Hwo float64 (list Z)
           (λ xs : list Z, xs) modulo_cluster_fps float64 self six_items
           six_utilities 2 4 explored preds cb Hc HU Hcb Hids Hbs).
Defined.

Lemma scale_heaps_returns_iff_witness :
  let d_cid_heap : list (Z * (list (float64 * Z) * Z)) :=
    [(0, ([], 1)); (1, ([], 2))] in
  let math_exp := λ _ : float64, Ok Float64.one in
  let temp := Float64.of_int_exact 2 in
  _calc_temp math_exp 0 Float64.one Float64.one = Ok temp
  ∧ (_scale_heaps Z.ltb math_exp d_cid_heap Float64.one 0 Float64.one
       Float64.one = Ok d_cid_heap
     ↔ Forall (λ item : Z * (list (float64 * Z) * Z), item.2.1 = [])
         d_cid_heap ∧ d_cid_heap = d_cid_heap).
Proof.
  intros d_cid_heap math_exp temp.
  assert (_calc_temp math_exp 0 Float64.one Float64.one = Ok temp) as Htemp
    by (vm_compute; reflexivity).
  split; [exact Htemp|].
  exact (scale_heaps_returns_iff Z.ltb math_exp d_cid_heap d_cid_heap
           Float64.one 0 Float64.one Float64.one temp Htemp).
Defined.

Lemma acquire_initial_clustered_highest_witness :
  let self := {| size := 4; init_size := 2; batch_sizes := [2]; dim := 1;
                 epsilon := Float64.zero; temp_i := None; temp_f := None;
                 cluster_type := None; cluster_superset := None |} in
  let xs := [10; 20; 30; 40] in
  let U := Float64.of_int_exact <$> [4; 3; 2; 1] in
  let ids := [0; 1; 1; 1] in
  let sizes := [(0, 1); (1, 3)] in
  let items := [10; 30; 20] in
  WeakOrderOn Z.ltb (λ _, True)
  ∧ NoDup sizes.*1
  ∧ Forall (λ u, Float64.is_nan u = false) U
  ∧ acquire_initial Z.ltb self xs U (Some ids) (Some sizes) = Ok items
  ∧ ∃ heaps : list (list (float64 * Z)),
      items = (concat heaps).*2
      ∧ Forall2 (λ cs heap,
                   ∃ rest,
                     cluster_entries cs.1 (zip xs (zip U ids)) ≡ₚ heap ++ rest
                     ∧ ∀ r b, r ∈ rest → b ∈ heap →
                         entry_lt Z.ltb b r = false
                         ∧ Float64.leb r.1 b.1 = true)
          sizes heaps.
Proof.
  intros self xs U ids sizes items.
  assert (WeakOrderOn Z.ltb (λ _, True)) as Hwo by (split; intros; lia).
  assert (NoDup sizes.*1) as Hnd by compute_done.
  assert (Forall (λ u, Float64.is_nan u = false) U) as HU
    by (by repeat constructor).
  assert (acquire_initial Z.ltb self xs U (Some ids) (Some sizes) = Ok items)
    as Hrun by (vm_compute; reflexivity).
  split; [exact Hwo|]. split; [exact Hnd|]. split; [exact HU|].
  split; [exact Hrun|].
  exact (@acquire_initial_clustered_highest Z _ _ Z.ltb Hwo self xs U ids sizes
           items Hnd HU Hrun).
Defined.
